(** * Density-fitted Coulomb / exchange build of [scf/dfhf.py]

    A shallow embedding of [get_jk_], its inner closure [fjk] and the block
    iterator [prange], with the array objects the Python code allocates and
    updates in place kept in an explicit store.

    Numbers.  Python integers are [Z] (sizes and indices that index a list
    are [nat]).  Floating-point values are idealised as exact rationals [Q];
    the constant [1e-12] is the rational [1 / 10^12] and [.5] is [1 / 2].
    Equality of computed values is therefore [Qeq] (written [==]), lifted to
    vectors and matrices.  The one place where the rounding of floats
    decides a branch, the memory test of line 62, is modelled with the
    binary64 rounding written out.

    Collaborators that are not part of [scf/dfhf.py] (the eigensolver
    [scipy.linalg.eigh], [numpy.sqrt], the factor builders of [pyscf.df], the
    integral object [mol]) are Section variables: every theorem holds for all
    of them, and the closed examples instantiate them with concrete
    functions. *)

From Stdlib Require Import ZArith QArith Qabs Qround Qpower List Lia Bool Setoid Morphisms String.
From stdpp Require Import base list.
Import ListNotations.

#[local] Open Scope Z_scope.

(* ================================================================= *)
(** ** Python integers, [range] and [prange] *)

Inductive exn : Set :=
| ValueError
| IndexError
| TypeError
| AttributeError
| LinAlgError.

(** Outcome of a Python call: an exception or a value. *)
Definition result (A : Type) : Type := (exn + A)%type.

(** [len(range(start, stop, step))] as CPython computes it. *)
Definition range_len (start stop step : Z) : Z :=
  if 0 <? step then
    if start <? stop then (stop - start - 1) / step + 1 else 0
  else
    if stop <? start then (start - stop - 1) / (- step) + 1 else 0.

(** [range(start, stop, step)]; a zero step raises [ValueError]. *)
Definition py_range (start stop step : Z) : result (list Z) :=
  if step =? 0 then inl ValueError
  else inr (map (fun k => start + Z.of_nat k * step)
                (seq 0 (Z.to_nat (range_len start stop step)))).

(** [prange]: the generator run to exhaustion.
<<
def prange(start, end, step):
    for i in range(start, end, step):
        yield i, min(i+step, end)
>> *)
Definition prange (start end_ step : Z) : result (list (Z * Z)) :=
  match py_range start end_ step with
  | inl e => inl e
  | inr idx => inr (map (fun i => (i, Z.min (i + step) end_)) idx)
  end.

(** The integers of the half-open interval [[a, b)]. *)
Definition interval (a b : Z) : list Z :=
  map (fun k => a + Z.of_nat k) (seq 0 (Z.to_nat (b - a))).

(** [tiling step a e bs]: the blocks [bs] are non-empty half-open intervals of
    length at most [step], each one starting where the previous one ended,
    the first at [a] and the last ending at [e]; a block ends at
    [min (b0 + step) e]. *)
Inductive tiling (step : Z) : Z -> Z -> list (Z * Z) -> Prop :=
| tiling_nil a : tiling step a a []
| tiling_cons a b e bs :
    a < b -> b - a <= step -> b = Z.min (a + step) e ->
    tiling step b e bs ->
    tiling step a e ((a, b) :: bs).

#[local] Close Scope Z_scope.

(* ================================================================= *)
(** ** Arrays of numbers

    A one-dimensional array is a list; a two-dimensional array is the list of
    its rows (an array without rows is the 0 x 0 array).  [rect r c m] says
    that [m] is a proper [r] x [c] array. *)

Abbreviation vec := (list Q).
Abbreviation matrix := (list (list Q)).

Definition Qltb (a b : Q) : bool := negb (Qle_bool b a).

Definition nrows (m : matrix) : nat := length m.
Definition ncols (m : matrix) : nat :=
  match m with [] => 0 | r :: _ => length r end.
Definition shape (m : matrix) : nat * nat := (nrows m, ncols m).

Definition rect (r c : nat) (m : matrix) : Prop :=
  length m = r /\ Forall (fun row => length row = c) m.

Definition entry (m : matrix) (i j : nat) : Q := nth j (nth i m []) 0%Q.

Definition tabulate (r c : nat) (f : nat -> nat -> Q) : matrix :=
  map (fun i => map (fun j => f i j) (seq 0 c)) (seq 0 r).

Definition transpose (m : matrix) : matrix :=
  tabulate (ncols m) (nrows m) (fun i j => entry m j i).

Definition zeros (r c : nat) : matrix := tabulate r c (fun _ _ => 0%Q).

(** [numpy.zeros_like] *)
Definition zeros_like (m : matrix) : matrix := zeros (nrows m) (ncols m).

Definition Qsum (l : list Q) : Q := fold_right Qplus 0%Q l.

(** Sum of [f k] for [k < n]. *)
Definition sumn (n : nat) (f : nat -> Q) : Q := Qsum (map f (seq 0 n)).

Definition vdot (u v : vec) : Q := Qsum (zip_with Qmult u v).

(** *** numpy broadcasting of two 2-D operands *)

Definition bdim (a b : nat) : option nat :=
  if a =? b then Some a
  else if a =? 1 then Some b
  else if b =? 1 then Some a
  else None.

Definition bidx (d i : nat) : nat := if d =? 1 then 0 else i.

Definition np_binop (op : Q -> Q -> Q) (a b : matrix) : result matrix :=
  match bdim (nrows a) (nrows b), bdim (ncols a) (ncols b) with
  | Some r, Some c =>
      inr (tabulate r c (fun i j =>
             op (entry a (bidx (nrows a) i) (bidx (ncols a) j))
                (entry b (bidx (nrows b) i) (bidx (ncols b) j))))
  | _, _ => inl ValueError
  end.

(** [a + b] *)
Definition np_add : matrix -> matrix -> result matrix := np_binop Qplus.

Definition shape_eqb (a b : matrix) : bool :=
  (nrows a =? nrows b) && (ncols a =? ncols b).

(** The value [a] holds after [a += b] (resp. [a -= b]): the broadcast result
    has to have the shape of [a]. *)
Definition np_inplace (op : Q -> Q -> Q) (a b : matrix) : result matrix :=
  match np_binop op a b with
  | inl e => inl e
  | inr m => if shape_eqb m a then inr m else inl ValueError
  end.

Definition np_iadd : matrix -> matrix -> result matrix := np_inplace Qplus.
Definition np_isub : matrix -> matrix -> result matrix := np_inplace Qminus.

(** *** [numpy.dot] on the operand ranks that occur in [fjk] *)

Definition mv (m : matrix) (v : vec) : vec := map (fun row => vdot row v) m.
Definition vm (v : vec) (m : matrix) : vec :=
  map (fun j => vdot v (map (fun row => nth j row 0%Q) m)) (seq 0 (ncols m)).
Definition mm (a b : matrix) : matrix := map (fun row => vm row b) a.

Definition dot_mv (m : matrix) (v : vec) : result vec :=
  if ncols m =? length v then inr (mv m v) else inl ValueError.
Definition dot_vm (v : vec) (m : matrix) : result vec :=
  if length v =? nrows m then inr (vm v m) else inl ValueError.
Definition dot_mm (a b : matrix) : result matrix :=
  if ncols a =? nrows b then inr (mm a b) else inl ValueError.

(** [reduce(numpy.dot, (eri1, dmtril, eri1))] *)
Definition dot3 (eri1 : matrix) (dmtril : vec) : result vec :=
  match dot_mv eri1 dmtril with
  | inl e => inl e
  | inr w => dot_vm w eri1
  end.

(** *** Packed triangular storage *)

(** Offset of row [i] in packed lower-triangular storage: [i*(i+1)//2]. *)
Definition tri (i : nat) : nat := i * (i + 1) / 2.

Fixpoint pack_rows (i : nat) (m : matrix) : vec :=
  match m with
  | [] => []
  | row :: m' => firstn (S i) row ++ pack_rows (S i) m'
  end.

(** Modelled from the spec: [pyscf.lib.pack_tril] is not among the sources.
    It stores the lower triangle of a square array row after row, so that
    entry [(i, j)], [j <= i], sits at offset [i*(i+1)/2 + j]. *)
Definition pack_tril (m : matrix) : vec := pack_rows 0 m.

(** Side length [n] of the square whose packed triangle has [len] entries. *)
Definition tril_dim (len : nat) : nat := Nat.sqrt (2 * len).

Definition unpack_sym (n : nat) (v : vec) : matrix :=
  tabulate n n (fun i j => nth (tri (Nat.max i j) + Nat.min i j) v 0%Q).

(** Modelled from the spec: [pyscf.lib.unpack_tril(v, 1)] is not among the
    sources.  It is the inverse of [pack_tril] on symmetric arrays: the
    packed vector is expanded into the symmetric square array. *)
Definition unpack_tril (v : vec) : matrix := unpack_sym (tril_dim (length v)) v.

(** *** Boolean masks and the scaling [einsum('ij,j->ij', a, w)] *)

(** [v[mask]] *)
Fixpoint select {A : Type} (l : list A) (mask : list bool) : list A :=
  match l, mask with
  | x :: l', b :: mask' => if b then x :: select l' mask' else select l' mask'
  | _, _ => []
  end.

(** [c[:,mask]] *)
Definition select_cols (c : matrix) (mask : list bool) : matrix :=
  map (fun row => select row mask) c.

(** [sum(mask)] *)
Definition count_true (mask : list bool) : nat :=
  list_sum (map Nat.b2n mask).

(** [numpy.einsum('ij,j->ij', a, w)]: column [j] of [a] times [w[j]]. *)
Definition einsum_ij_j (a : matrix) (w : vec) : matrix :=
  map (fun row => zip_with Qmult row w) a.

(* ================================================================= *)
(** ** The integral-transformation kernels

    Modelled from the spec: the C kernels behind [_ao2mo.libao2mo] and
    [df.incore._fpointer] are not among the sources.  Section 4.3 of the
    specification and the [einsum] comments of [fjk] fix what they compute:
    for every auxiliary index [p] of the block, [AO2MOtranse2_nr_s2kl]
    expands the packed row [eri1[p]] into the symmetric [nao] x [nao] array
    [L_p]; [RIhalfmmm_nr_s2_bra] writes the half-transformed
    [out[p][k][i] = sum_j c[j][k] * L_p[j][i]] for the [ncol] columns of the
    coefficient array [c], and [RImmm_nr_s2_copy] writes [L_p] itself. *)

Definition RIhalfmmm_nr_s2_bra (nao ncol : nat) (L c : matrix) : matrix :=
  tabulate ncol nao (fun k i => sumn nao (fun j => (entry c j k * entry L j i)%Q)).

Definition RImmm_nr_s2_copy (nao : nat) (L : matrix) : matrix :=
  tabulate nao nao (fun k i => entry L k i).

(** [AO2MOnr_e2_drv(ftrans, fmmm, out, eri1, c, nb, nao, 0, ncol, 0, 0)]:
    the value written to [out], one array per auxiliary index. *)
Definition AO2MOnr_e2_drv (fmmm : matrix -> matrix) (nb nao : nat)
           (eri1 : matrix) : list matrix :=
  map (fun row => fmmm (unpack_sym nao row)) (firstn nb eri1).

(** [buf.reshape(-1, nao)] of a 3-D array: the rows of all slices. *)
Definition reshape_rows (t : list matrix) : matrix := concat t.

(* ================================================================= *)
(** ** The store of array objects

    Every [numpy] array the code creates or receives is an object in the
    store, named by its position.  Names bound to arrays are store
    locations, so two names may denote one object, and an update in place
    is seen through all of them. *)

Inductive ndarray : Type :=
| Arr1 (v : vec)
| Arr2 (forder : bool) (m : matrix)     (* [forder]: Fortran-contiguous *)
| Arr3 (t : list matrix).

Definition loc : Set := nat.

(** [loads] records the calls [df.load_buf(cderi, b0, count)] made so far. *)
Record state : Type := mkState {
  heap : list ndarray;
  loads : list (Z * Z)
}.

(** Computations that read and update the store and may raise. *)
Definition M (A : Type) : Type := state -> result A * state.

Definition ret {A} (a : A) : M A := fun st => (inr a, st).
Definition raise {A} (e : exn) : M A := fun st => (inl e, st).
Definition bind {A B} (m : M A) (k : A -> M B) : M B :=
  fun st => match m st with
            | (inl e, st') => (inl e, st')
            | (inr a, st') => k a st'
            end.
Definition lift {A} (r : result A) : M A := fun st => (r, st).

Declare Scope M_scope.
Delimit Scope M_scope with M.
Notation "x <- m ;; k" := (bind m (fun x => k))
  (at level 100, m at next level, right associativity) : M_scope.
Notation "m ;;; k" := (bind m (fun _ => k))
  (at level 100, right associativity) : M_scope.
#[local] Open Scope M_scope.

(** A new array object. *)
Definition alloc (v : ndarray) : M loc :=
  fun st => (inr (length (heap st)), mkState (heap st ++ [v]) (loads st)).

Definition read (l : loc) : M ndarray :=
  fun st => match heap st !! l with
            | Some v => (inr v, st)
            | None => (inl TypeError, st)
            end.

Definition write (l : loc) (v : ndarray) : M unit :=
  fun st => (inr tt, mkState (<[l := v]> (heap st)) (loads st)).

Definition read1 (l : loc) : M vec :=
  v <- read l ;; match v with Arr1 x => ret x | _ => raise TypeError end.
Definition read2 (l : loc) : M (bool * matrix) :=
  v <- read l ;; match v with Arr2 f m => ret (f, m) | _ => raise TypeError end.
Definition read3 (l : loc) : M (list matrix) :=
  v <- read l ;; match v with Arr3 t => ret t | _ => raise TypeError end.

Definition log_load (b0 count : Z) : M unit :=
  fun st => (inr tt, mkState (heap st) (loads st ++ [(b0, count)])).

(** [for x in l: body(x)] *)
Fixpoint for_each {A} (l : list A) (body : A -> M unit) : M unit :=
  match l with
  | [] => ret tt
  | x :: l' => body x ;;; for_each l' body
  end.

(** [[f(x) for x in l]] *)
Fixpoint map_M {A B} (f : A -> M B) (l : list A) : M (list B) :=
  match l with
  | [] => ret []
  | x :: l' => y <- f x ;; ys <- map_M f l' ;; ret (y :: ys)
  end.

(** [v[i] *= q] on the object at [l]; an index past the end raises. *)
Definition imul_at (l : loc) (i : nat) (q : Q) : M unit :=
  v <- read1 l ;;
  if i <? length v then write l (Arr1 (<[i := (nth i v 0 * q)%Q]> v))
  else raise IndexError.

(** [a += x] and [a -= x] on the object at [l]. *)
Definition iadd (l : loc) (x : matrix) : M unit :=
  a <- read2 l ;; m <- lift (np_iadd (snd a) x) ;; write l (Arr2 (fst a) m).
Definition isub (l : loc) (x : matrix) : M unit :=
  a <- read2 l ;; m <- lift (np_isub (snd a) x) ;; write l (Arr2 (fst a) m).

(** [numpy.asfortranarray(a)]: the object itself when it is already
    Fortran-contiguous, a new copy otherwise. *)
Definition asfortranarray (l : loc) : M loc :=
  a <- read2 l ;;
  if fst a then ret l else alloc (Arr2 true (snd a)).

(** [numpy.empty((r, c))]: a new object; its contents are unspecified until
    written (zeros here). *)
Definition np_empty2 (r c : nat) : M loc := alloc (Arr2 false (zeros r c)).
Definition np_empty3 (n r c : nat) : M loc := alloc (Arr3 (repeat (zeros r c) n)).

(** The auxiliary factor [mf._cderi]: the array itself, or the name of the
    file that holds it (with the array stored there). *)
Inductive factor : Type :=
| InCore (t : matrix)
| OutCore (fname : string) (t : matrix).

Definition factor_rows (f : factor) : matrix :=
  match f with InCore t => t | OutCore _ t => t end.

(** Modelled from the spec: [df.load_buf] is not among the sources.
    [load_buf(cderi, start, count)] returns the rows [[start, start+count)]
    of the factor, from memory or from the file. *)
Definition load_buf (cderi : factor) (b0 count : Z) : M matrix :=
  log_load b0 count ;;;
  ret (firstn (Z.to_nat count) (skipn (Z.to_nat b0) (factor_rows cderi))).

Definition OCCDROP : Q := 1 # 1000000000000.
Definition BLOCKDIM : Z := 160.


(* ================================================================= *)
(** ** Python floats

    A Python float is an IEEE binary64 number: a rational with 53
    significant bits, or an infinity.  Where the code computes with the
    floats themselves rather than with idealised reals (the memory test of
    line 62), the rounding is written out. *)

Section Floats.

#[local] Open Scope Q_scope.

Inductive pyfloat : Type :=
| Finite (q : Q)
| Inf (negative : bool).

(** [floor(log2 q)] for [q > 0]. *)
Definition Qlog2 (q : Q) : Z :=
  let e0 := (Z.log2 (Qnum q) - Z.log2 (Zpos (Qden q)))%Z in
  if Qle_bool (2 ^ e0) q then e0 else (e0 - 1)%Z.

(** The nearest integer, a tie going to the even one. *)
Definition round_half_even (q : Q) : Z :=
  let fl := Qfloor q in
  match Qcompare (q - inject_Z fl) (1 # 2) with
  | Lt => fl
  | Gt => (fl + 1)%Z
  | Eq => if Z.even fl then fl else (fl + 1)%Z
  end.

(** The binary64 number nearest to [q] (round to nearest, ties to even):
    53 significant bits, exponents from -1022 with gradual underflow below,
    and overflow to infinity from [2^1024]. *)
Definition round_double (q : Q) : pyfloat :=
  if Qeq_bool q 0 then Finite 0
  else
    let a := Qabs q in
    let u := Z.max (Qlog2 a - 52) (-1074) in
    let v := Qred (inject_Z (round_half_even (a / 2 ^ u)) * 2 ^ u) in
    if Qle_bool (2 ^ 1024) v then Inf (negb (Qle_bool 0 q))
    else Finite (if Qle_bool 0 q then v else - v).

(** [x * 1e6] for a Python number [x]: a float, or an int, which the
    product converts to a float first (an int beyond the range of floats
    makes Python raise [OverflowError] there; [x] is taken within the
    range).  The constant [1e6] is exact. *)
Definition times_1e6 (x : Q) : pyfloat :=
  match round_double x with
  | Finite a => round_double (a * 1000000)
  | Inf negative => Inf negative
  end.

(** [z < x] for an int [z] and a float [x]: Python compares the exact
    values. *)
Definition int_lt_float (z : Z) (x : pyfloat) : bool :=
  match x with
  | Finite q => Qltb (inject_Z z) q
  | Inf negative => negb negative
  end.

(** The same as a proposition. *)
Definition below (z : Z) (x : pyfloat) : Prop :=
  match x with
  | Finite q => inject_Z z < q
  | Inf negative => negative = false
  end.

End Floats.
(* ================================================================= *)
(** ** Values computed by the loops, as functions

    The in-place loops of [fjk] are related below to these functions of the
    array contents. *)

(** The halving loop of lines 80-81 run for [i < k] on the vector [t]. *)
Definition halve_diag (k : nat) (t : vec) : vec :=
  fold_left (fun v i => <[tri i + i := (nth (tri i + i) v 0 * (1 # 2))%Q]> v)
            (seq 0 k) t.

(** The packed density of lines 79-81 for a square [dm] of side [n]. *)
Definition dmtril_val (n : nat) (dm : matrix) : vec :=
  halve_diag n (pack_tril (tabulate n n (fun i j => (entry dm i j + entry dm j i)%Q))).

(** Entrywise sum and difference of arrays of one shape. *)
Definition madd (a x : matrix) : matrix :=
  tabulate (nrows a) (ncols a) (fun i j => (entry a i j + entry x i j)%Q).
Definition msub (a x : matrix) : matrix :=
  tabulate (nrows a) (ncols a) (fun i j => (entry a i j - entry x i j)%Q).

(** The factor rows of block [[b0, b1)]. *)
Definition block_rows (cderi : factor) (b : Z * Z) : matrix :=
  firstn (Z.to_nat (snd b - fst b)) (skipn (Z.to_nat (fst b)) (factor_rows cderi)).

(** Coulomb contribution of one block: [unpack_tril(eri1 . dmtril . eri1)]. *)
Definition j_block (eri1 : matrix) (t : vec) : matrix :=
  unpack_tril (vm (mv eri1 t) eri1).

(** The half-transformed block against the coefficient array [coef], as
    rows, and its exchange contribution [buf.T . buf]. *)
Definition half_buf (nao : nat) (eri1 coef : matrix) : matrix :=
  reshape_rows (AO2MOnr_e2_drv
    (fun L => RIhalfmmm_nr_s2_bra nao (ncols coef) L coef) (length eri1) nao eri1).
Definition k_half (nao : nat) (eri1 coef : matrix) : matrix :=
  mm (transpose (half_buf nao eri1 coef)) (half_buf nao eri1 coef).

(** Exchange contribution of one block on the general path. *)
Definition k_gen_block (nao : nat) (eri1 dm : matrix) : matrix :=
  mm (transpose (reshape_rows (AO2MOnr_e2_drv
        (fun L => RIhalfmmm_nr_s2_bra nao nao L dm) (length eri1) nao eri1)))
     (reshape_rows (AO2MOnr_e2_drv (RImmm_nr_s2_copy nao) (length eri1) nao eri1)).

(** The blocks [prange(0, n, BLOCKDIM)] yields. *)
Definition blocks_of (start end_ step : Z) (k : nat) : list (Z * Z) :=
  map (fun i => (i, Z.min (i + step) end_))
      (map (fun k => (start + Z.of_nat k * step)%Z) (seq 0 k)).
(** Length of the last block of [prange(start, end, step)]. *)
Definition last_len (start end_ step : Z) : Z :=
  (if (end_ - start) mod step =? 0 then step else (end_ - start) mod step)%Z.

Definition aux_blocks (n : Z) : list (Z * Z) :=
  blocks_of 0 n BLOCKDIM (Z.to_nat (range_len 0 n BLOCKDIM)).

(** [J] after the block loop (either path). *)
Definition J_val (cderi : factor) (n : Z) (t : vec) (J0 : matrix) : matrix :=
  fold_left (fun J b => madd J (j_block (block_rows cderi b) t)) (aux_blocks n) J0.

(** One exchange branch of the symmetric path. *)
Definition k_step (op : matrix -> matrix -> matrix) (nao : nat)
           (eri1 coef K : matrix) : matrix :=
  if 0 <? ncols coef then op K (k_half nao eri1 coef) else K.

(** [K] after the block loop of the symmetric path. *)
Definition K_sym (cderi : factor) (n : Z) (nao : nat) (cpos cneg K0 : matrix)
  : matrix :=
  fold_left (fun K b =>
               k_step msub nao (block_rows cderi b) cneg
                 (k_step madd nao (block_rows cderi b) cpos K))
            (aux_blocks n) K0.

(** [K] after the block loop of the general path. *)
Definition K_gen (cderi : factor) (n : Z) (nao : nat) (dm K0 : matrix) : matrix :=
  fold_left (fun K b => madd K (k_gen_block nao (block_rows cderi b) dm))
            (aux_blocks n) K0.

(** The positions at which a mask holds [True], in increasing order. *)
Fixpoint mask_index_from (i : nat) (mask : list bool) : list nat :=
  match mask with
  | [] => []
  | b :: mask' =>
      if b then i :: mask_index_from (S i) mask' else mask_index_from (S i) mask'
  end.
Definition mask_index (mask : list bool) : list nat := mask_index_from 0 mask.

(** Shapes that fit: a basis of [nao >= 1] functions, an [nao] x [nao]
    overlap, and a factor of [N] packed rows. *)
Definition well_shaped (cderi : factor) (s : matrix) (nao N : nat) : Prop :=
  0 < nao /\ rect nao nao s /\ rect N (tri nao) (factor_rows cderi).

(** The [load_buf] calls of one pass over the blocks. *)
Definition block_loads (n : Z) : list (Z * Z) :=
  map (fun b => (fst b, (snd b - fst b)%Z)) (aux_blocks n).

(** Column [j] of an array. *)
Definition col (j : nat) (m : matrix) : vec := map (fun row => nth j row 0%Q) m.

(** The half-transform of the symmetric array packed in [row] against
    column [k] of [coef], at orbital [i]. *)
Definition half (nao : nat) (coef : matrix) (row : vec) (k i : nat) : Q :=
  sumn nao (fun j => (entry coef j k * entry (unpack_sym nao row) j i)%Q).

(** [pair_sum cderi n nao c w i j]: the sum, over every auxiliary index
    [p] of every block and every eigenvector [m], of
    [w[m] * (L_p c_m)[i] * (L_p c_m)[j]]. *)
Definition pair_sum (cderi : factor) (n : Z) (nao : nat) (c : matrix) (w : vec)
           (i j : nat) : Q :=
  Qsum (map (fun b =>
    Qsum (map (fun row =>
      sumn (length w) (fun m =>
        (nth m w 0 * half nao c row m i * half nao c row m j)%Q))
      (block_rows cderi b)))
    (aux_blocks n)).

(** The eigenvalues the sign split drops (the others replaced by zero). *)
Definition dropped_weights (e : vec) : vec :=
  map (fun x => if Qltb OCCDROP x || Qltb x (- OCCDROP) then 0%Q else x) e.

(** Equality of arrays up to [Qeq] on the entries. *)
Definition veq (u v : vec) : Prop := Forall2 Qeq u v.
Definition meq (a b : matrix) : Prop := Forall2 veq a b.

(** Arrays all of whose entries are zero. *)
Definition vzero (v : vec) : Prop := Forall (fun x => x == 0)%Q v.
Definition mzero (m : matrix) : Prop := Forall vzero m.

(* ================================================================= *)
(** ** Reasoning about store computations *)

(** [wp m Q st]: from [st], [m] returns a value and [Q] holds of it and of
    the final store. *)
Definition wp {A} (m : M A) (Q : A -> state -> Prop) (st : state) : Prop :=
  match m st with
  | (inr a, st') => Q a st'
  | (inl _, _) => False
  end.

(** [wpx m Q st]: from [st], [m] raises and [Q] holds of the exception and
    of the store at that moment. *)
Definition wpx {A} (m : M A) (Q : exn -> state -> Prop) (st : state) : Prop :=
  match m st with
  | (inl e, st') => Q e st'
  | (inr _, _) => False
  end.

(** [agree n st st']: the objects at locations below [n] are the same in
    both stores, and no object has disappeared. *)
Definition agree (n : nat) (st st' : state) : Prop :=
  length (heap st) <= length (heap st') /\
  forall l, l < n -> heap st' !! l = heap st !! l.

(** What a block leaves behind: the accumulators [vj] and [vk] hold [J] and
    [K], the other objects that were there are as before, and the calls to
    [load_buf] so far are [L]. *)
Definition block_post (st : state) (vj vk : loc) (f : bool) (J K : matrix)
           (L : list (Z * Z)) (st' : state) : Prop :=
  heap st' !! vj = Some (Arr2 f J) /\
  heap st' !! vk = Some (Arr2 f K) /\
  (forall l, l < length (heap st) -> l <> vj -> l <> vk ->
             heap st' !! l = heap st !! l) /\
  length (heap st) <= length (heap st') /\
  loads st' = L.

(** [local n m P]: started with at least [n] objects in the store, [m]
    leaves the objects below [n] as they are, whatever the outcome, and a
    returned value satisfies [P]. *)
Definition local {A} (n : nat) (m : M A) (P : A -> Prop) : Prop :=
  forall st, n <= length (heap st) ->
    agree n st (snd (m st)) /\
    match fst (m st) with inr a => P a | inl _ => True end.


(* ================================================================= *)
(** ** The contractions the comments of [fjk] give

    The lines of [fjk] that start with [#:] state what the blocked,
    packed loops compute as one contraction over the whole, unpacked
    factor.  They are embedded here as they are written, to be compared
    with the values the loops leave in the arrays. *)

(** [cderi[p]] as the symmetric [nao] x [nao] array it packs. *)
Definition L_of (cderi : factor) (nao p : nat) : matrix :=
  unpack_sym nao (nth p (factor_rows cderi) []).

(** [numpy.dot(L.reshape(nao*nao), dm.reshape(-1))] *)
Definition flat_dot (nao : nat) (L dm : matrix) : Q :=
  sumn nao (fun k => sumn nao (fun l => (entry L k l * entry dm k l)%Q)).

(** Lines 77-78:
<<
#:vj = reduce(numpy.dot, (cderi.reshape(-1,nao*nao), dm.reshape(-1),
#:                        cderi.reshape(-1,nao*nao))).reshape(nao,nao)
>>
    entry [(i, j)] of the result, for a factor of [N] rows. *)
Definition vj_ref (cderi : factor) (N nao : nat) (dm : matrix) (i j : nat) : Q :=
  sumn N (fun p => (flat_dot nao (L_of cderi nao p) dm
                    * entry (L_of cderi nao p) i j)%Q).

(** The quadratic form [sum_ij x[i] * F[i][j] * x[j]] over indices below
    [n], and [x^T . K . x] for a square array [K] of side [n]. *)
Definition qform (n : nat) (F : nat -> nat -> Q) (x : nat -> Q) : Q :=
  sumn n (fun i => sumn n (fun j => (x i * F i j * x j)%Q)).
Definition quad_form (n : nat) (K : matrix) (x : vec) : Q :=
  qform n (entry K) (fun i => nth i x 0%Q).

(** The [load_buf] calls read consecutive ranges: each starts where the
    previous one ended, the first at [a] and the last ending at [e]. *)
Fixpoint consecutive (a e : Z) (l : list (Z * Z)) : Prop :=
  match l with
  | [] => a = e
  | (b0, count) :: l' => b0 = a /\ consecutive (a + count)%Z e l'
  end.

(** [wlp m Q st]: if [m] returns from [st], [Q] holds of the value and of
    the final store (nothing is said of a run that raises). *)
Definition wlp {A} (m : M A) (Q : A -> state -> Prop) (st : state) : Prop :=
  match m st with
  | (inr a, st') => Q a st'
  | (inl _, _) => True
  end.

(* ================================================================= *)
(** ** Arrays with their shape, for [symm/test/test_basis.py]

    [get_so] looks at the shape of the arrays it is handed, also of empty
    ones, so an array is kept here with its shape tuple; [numpy] has
    [size] equal to the product of the dimensions. *)

Record narray : Type := mkNarray {
  nshape : list nat;
  ndata : list Q
}.

(** [c.size] *)
Definition np_size (c : narray) : nat := fold_right Nat.mul 1 (nshape c).

(** The loop of [get_so], from the count [n] reached so far; [c.shape[1]]
    raises [IndexError] when the shape tuple has fewer than two entries.
<<
for c in so:
    if c.size > 0:
        n += c.shape[1]
>> *)
Fixpoint count_so (so : list narray) (n : nat) : result nat :=
  match so with
  | [] => inr n
  | c :: so' =>
      if 0 <? np_size c then
        match nshape c !! 1 with
        | Some d => count_so so' (n + d)
        | None => inl IndexError
        end
      else count_so so' n
  end.
(** The SCF object [mf], as far as [get_jk_] reads and writes it.  [_cderi]
    and [_naoaux] are [None] while the attribute is missing or [None];
    [max_memory] is in megabytes, a Python number (an int, or a float given
    by its exact value) within the range of floats; [ovlp] is what
    [mf.get_ovlp()] returns. *)
Record SCF : Type := mkSCF {
  auxbasis : string;
  _cderi : option factor;
  _naoaux : option Z;
  direct_scf : bool;
  max_memory : Q;
  ovlp : matrix
}.

(** The argument [dms]: one 2-D array object, or a sequence of them. *)
Inductive dms_arg : Type :=
| One (dm : loc)
| Many (dms : list loc).

(** What [get_jk_] returns: the two arrays [(vj, vk)], 2-D for a single
    density and stacked (3-D) for a sequence. *)
Definition jk : Type := (loc * loc)%type.

(* ================================================================= *)
(** ** Concrete collaborators and inputs for the closed examples *)

Module Demo.

(** [sqrt] to twelve decimal places; exact on squares of such numbers. *)
Definition sqrt_demo (q : Q) : Q :=
  Qred (Z.sqrt (Qnum q * Zpos (Qden q) * 10 ^ 24) # (Qden q * 1000000000000)).

(** An eigensolver that knows the problems of the examples: every 1 x 1
    problem with unit overlap ([dm = [[x]]]: eigenvalue [x], eigenvector
    [1]), and the 2 x 2 problem [dm = [[5, 3], [3, 5]]],
    [S = [[1/2, 0], [0, 1/2]]], whose type-2 eigenpairs are [1] with
    [(1, -1)] and [4] with [(1, 1)].  Like [eigh] it reads the lower
    triangle of [dm] only. *)
Definition eigh_demo (a b : matrix) : option (vec * matrix) :=
  match a, b with
  | [[x]], [[y]] =>
      if Qeq_bool y 1 then Some ([x], [[1%Q]]) else None
  | [[a00; _]; [a10; a11]], [[b00; b01]; [b10; b11]] =>
      if Qeq_bool a00 5 && Qeq_bool a10 3 && Qeq_bool a11 5 &&
         Qeq_bool b00 (1 # 2) && Qeq_bool b01 0 && Qeq_bool b10 0 &&
         Qeq_bool b11 (1 # 2)
      then Some ([1%Q; 4%Q], [[1%Q; 1%Q]; [(-1)%Q; 1%Q]])
      else None
  | _, _ => None
  end.

(** A molecule is known by its number of basis functions; the auxiliary
    basis has two functions. *)
Definition Mole : Type := Z.
Definition nao_nr (mol : Mole) : Z := mol.
Definition format_aux_basis (mol : Mole) (auxbasis : string) : Mole := 2%Z.
Definition factor1 : matrix := [[3%Q]; [2%Q]].
Definition incore_cholesky_eri (mol : Mole) (auxbasis : string) : matrix := factor1.
Definition outcore_cholesky_eri (mol : Mole) (fname auxbasis : string) : matrix :=
  factor1.
Definition tempname : string := "/tmp/tmpcderi".

(** One basis function, unit overlap, factor not built yet. *)
Definition mf1 (max_memory : Q) : SCF :=
  mkSCF "weigend" None None false max_memory [[1%Q]].

(** Two basis functions. *)
Definition s2 : matrix := [[1 # 2; 0]; [0; 1 # 2]]%Q.
Definition dm2 : matrix := [[5; 3]; [3; 5]]%Q.
Definition factor2 : matrix := [[1; 2; 3]; [0; 1; 0]]%Q.

(** Five eigenvalues around the drop threshold, with their columns. *)
Definition e5 : vec := [-4; 1 # 1000000000000; 0; 9; - (1 # 1000000000000)]%Q.
Definition c5 : matrix := [[1; 1; 1; 1; 1]; [2; 2; 2; 2; 2]]%Q.

(** Stores. *)
Definition tiny : Q := 1 # 10000000000000.          (* 1e-13 *)
Definition st_tiny : state := mkState [Arr2 false [[tiny]]] [].
Definition st_one : state := mkState [Arr2 false [[4%Q]]] [].
Definition st_two : state := mkState [Arr2 false [[4%Q]]; Arr2 false [[9%Q]]] [].
Definition st_zero : state := mkState [Arr2 false [[0%Q]]] [].
Definition st_mixed : state :=
  mkState [Arr2 false [[4%Q]]; Arr2 false [[5; 3]; [3; 5]]%Q] [].
Definition st_dm2 : state := mkState [Arr2 false dm2] [].

End Demo.


(** More inputs for the closed examples. *)
Module Demo2.

(** A density that is not symmetric, its transpose, a second density and
    the combination [2 * dmA - dmB]. *)
Definition dmA : matrix := [[1; 2]; [0; 3]]%Q.
Definition dmAT : matrix := [[1; 0]; [2; 3]]%Q.
Definition dmB : matrix := [[0; 1]; [1; 0]]%Q.
Definition dmC : matrix := [[2; 3]; [-1; 6]]%Q.
Definition st_lin : state :=
  mkState [Arr2 false dmA; Arr2 false dmAT; Arr2 false dmB; Arr2 false dmC] [].

(** One basis function with overlap 2, on which [Demo.eigh_demo] fails. *)
Definition mf_bad : SCF := mkSCF "weigend" None None false 4000 [[2%Q]].

(** An SCF object that was handed a factor but not [_naoaux]. *)
Definition mf_preset : SCF :=
  mkSCF "weigend" (Some (InCore Demo.factor1)) None false 4000 [[1%Q]].

(** Collaborators of [get_so]: atoms and groups are numbers, and the
    symmetry-adapted basis has three blocks of three rows, one of them
    without columns. *)
Definition detect_symm (atoms : nat) : nat * nat := (0, atoms).
Definition symm_identical_atoms (gpname atoms : nat) : nat := atoms.
Definition so3 : list narray :=
  [mkNarray [3; 2] [1; 0; 0; 1; 0; 0]%Q; mkNarray [3; 0] [];
   mkNarray [3; 1] [0; 0; 1]%Q].
Definition symm_adapted_basis (gpname eql_atoms atoms basis : nat) : list narray :=
  so3.

(** A factor with one large row, and a store with the density [[2]]. *)
Definition factor_big : matrix := [[10000000000%Q]].
Definition st_sqrt2 : state := mkState [Arr2 false [[2%Q]]] [].

End Demo2.
Section Collaborators.

(** [scipy.linalg.eigh(a, b, type=2)] on arrays of matching square shape:
    eigenvalues and eigenvector columns, or [None] when the solver fails
    ([LinAlgError]). *)
Variable eigh : matrix -> matrix -> option (vec * matrix).
(** [numpy.sqrt] on one number. *)
Variable np_sqrt : Q -> Q.
(** [mol] and the basis-set collaborators of [pyscf.df]. *)
Variable Mole : Type.
Variable nao_nr : Mole -> Z.
Variable format_aux_basis : Mole -> string -> Mole.
Variable incore_cholesky_eri : Mole -> string -> matrix.
Variable outcore_cholesky_eri : Mole -> string -> string -> matrix.
(** The name [tempfile.NamedTemporaryFile()] picks. *)
Variable tempname : string.

(** [density_fit(mf)]: the object [HF()] *)
Definition density_fit (mf : SCF) : SCF :=
  mkSCF "weigend" None (_naoaux mf) false (max_memory mf) (ovlp mf).

(** The test of line 62,
<<
nao*(nao+1)/2*mf._naoaux*8 < mf.max_memory*1e6
>>
    The left side is an int ([nao*(nao+1)] is even, so the division is
    exact), the right side the float product, rounded; Python compares the
    two by their exact values. *)
Definition in_core (nao naoaux : Z) (max_memory : Q) : bool :=
  int_lt_float (nao * (nao + 1) / 2 * naoaux * 8) (times_1e6 max_memory).

(** Lines 57-70 of [get_jk_]: build the factor on first use. *)
Definition build_cderi (mf : SCF) (mol : Mole) : SCF :=
  match _cderi mf with
  | Some _ => mf
  | None =>
      let nao := nao_nr mol in
      let auxmol := format_aux_basis mol (auxbasis mf) in
      let naoaux := nao_nr auxmol in
      if in_core nao naoaux (max_memory mf) then
        mkSCF (auxbasis mf)
              (Some (InCore (incore_cholesky_eri mol (auxbasis mf))))
              (Some naoaux) (direct_scf mf) (max_memory mf) (ovlp mf)
      else
        mkSCF (auxbasis mf)
              (Some (OutCore tempname
                       (outcore_cholesky_eri mol tempname (auxbasis mf))))
              (Some naoaux) (direct_scf mf) (max_memory mf) (ovlp mf)
  end.

(** The call [scipy.linalg.eigh(dm, s, type=2)]: both arguments have to be
    square of one size. *)
Definition eigh_call (a b : matrix) : result (vec * matrix) :=
  if (nrows a =? ncols a) && shape_eqb a b then
    match eigh a b with
    | Some ec => inr ec
    | None => inl LinAlgError
    end
  else inl ValueError.

(** [mf._naoaux] *)
Definition getattr {A} (o : option A) : M A :=
  match o with Some a => ret a | None => raise AttributeError end.

(** Lines 92-93 and 97-100: the sign split of the eigenpairs.
<<
pos = e > OCCDROP
neg = e < -OCCDROP
cpos = numpy.einsum('ij,j->ij', c[:,pos], numpy.sqrt(e[pos]))
cneg = numpy.einsum('ij,j->ij', c[:,neg], numpy.sqrt(-e[neg]))
>> *)
Definition pos_mask (e : vec) : list bool := map (fun x => Qltb OCCDROP x) e.
Definition neg_mask (e : vec) : list bool := map (fun x => Qltb x (- OCCDROP)) e.
Definition cpos_of (c : matrix) (e : vec) : matrix :=
  einsum_ij_j (select_cols c (pos_mask e))
              (map np_sqrt (select e (pos_mask e))).
Definition cneg_of (c : matrix) (e : vec) : matrix :=
  einsum_ij_j (select_cols c (neg_mask e))
              (map (fun x => np_sqrt (- x)) (select e (neg_mask e))).

Section fjk.
(** The variables the closure [fjk] captures. *)
Variable cderi : factor.
Variable s : matrix.
Variable nao : nat.
Variable naoaux : option Z.
Variable hermi : Z.

(** One exchange branch of the symmetric path (lines 111-118 and
    119-126): skipped when the coefficient array has no column. *)
Definition k_branch (acc : loc -> matrix -> M unit) (vk : loc)
           (eri1 : matrix) (b0 b1 : Z) (coef : matrix) : M unit :=
  if 0 <? ncols coef then
    let nb := Z.to_nat (b1 - b0) in
    buf <- np_empty2 (nb * ncols coef) nao ;;
    write buf (Arr2 false (reshape_rows
      (AO2MOnr_e2_drv (fun L => RIhalfmmm_nr_s2_bra nao (ncols coef) L coef)
                      nb nao eri1))) ;;;
    b <- read2 buf ;;
    kk <- lift (dot_mm (transpose (snd b)) (snd b)) ;;
    acc vk kk
  else ret tt.

(** Body of the block loop, symmetric path (lines 108-126). *)
Definition block_sym (dmtril vj vk : loc) (cpos cneg : matrix)
           (b : Z * Z) : M unit :=
  let '(b0, b1) := b in
  eri1 <- load_buf cderi b0 (b1 - b0) ;;
  t <- read1 dmtril ;;
  buf <- lift (dot3 eri1 t) ;;
  iadd vj (unpack_tril buf) ;;;
  k_branch iadd vk eri1 b0 b1 cpos ;;;
  k_branch isub vk eri1 b0 b1 cneg.

(** Body of the block loop, general path (lines 136-151). *)
Definition block_gen (dmtril vj vk dm : loc) (b : Z * Z) : M unit :=
  let '(b0, b1) := b in
  let nb := Z.to_nat (b1 - b0) in
  eri1 <- load_buf cderi b0 (b1 - b0) ;;
  t <- read1 dmtril ;;
  buf <- lift (dot3 eri1 t) ;;
  iadd vj (unpack_tril buf) ;;;
  buf <- np_empty3 nb nao nao ;;
  c <- read2 dm ;;
  write buf (Arr3 (AO2MOnr_e2_drv
               (fun L => RIhalfmmm_nr_s2_bra nao nao L (snd c)) nb nao eri1)) ;;;
  buf1 <- np_empty3 nb nao nao ;;
  write buf1 (Arr3 (AO2MOnr_e2_drv (RImmm_nr_s2_copy nao) nb nao eri1)) ;;;
  x <- read3 buf ;;
  x1 <- read3 buf1 ;;
  kk <- lift (dot_mm (transpose (reshape_rows x)) (reshape_rows x1)) ;;
  iadd vk kk.

(** Lines 79-81: the packed density.
<<
dmtril = pyscf.lib.pack_tril(dm+dm.T)
for i in range(nao):
dmtril[i*(i+1)//2+i] *= .5
>> *)
Definition pack_density (dm : loc) : M loc :=
  a <- read2 dm ;;
  sym <- lift (np_add (snd a) (transpose (snd a))) ;;
  dmtril <- alloc (Arr1 (pack_tril sym)) ;;
  for_each (seq 0 nao) (fun i => imul_at dmtril (tri i + i) (1 # 2)) ;;;
  ret dmtril.

(** Lines 83-152, with [dmtril] bound. *)
Definition fjk_from (dm dmtril : loc) : M jk :=
  a <- read2 dm ;;
  vj <- alloc (Arr2 (fst a) (zeros_like (snd a))) ;;
  vk <- alloc (Arr2 (fst a) (zeros_like (snd a))) ;;
  (if (hermi =? 1)%Z then
     ec <- lift (eigh_call (snd a) s) ;;
     let e := fst ec in
     let c := snd ec in
     let pos := pos_mask e in
     let neg := neg_mask e in
     if 0 <? count_true pos + count_true neg then
       let cpos := cpos_of c e in
       let cneg := cneg_of c e in
       n <- getattr naoaux ;;
       blocks <- lift (prange 0 n BLOCKDIM) ;;
       for_each blocks (block_sym dmtril vj vk cpos cneg)
     else ret tt
   else
     dmF <- asfortranarray dm ;;
     n <- getattr naoaux ;;
     blocks <- lift (prange 0 n BLOCKDIM) ;;
     for_each blocks (block_gen dmtril vj vk dmF)) ;;;
  ret (vj, vk).

(** [fjk(dm)], lines 76-152. *)
Definition fjk (dm : loc) : M jk :=
  dmtril <- pack_density dm ;;
  fjk_from dm dmtril.
End fjk.

(** Lines 72-74 and 154-161 of [get_jk_], after the factor is there. *)
Definition jk_of (mf : SCF) (hermi : Z) (dms : dms_arg) : M jk :=
  let s := ovlp mf in
  cderi <- getattr (_cderi mf) ;;
  let nao := nrows s in
  let fjk' := fjk cderi s nao (_naoaux mf) hermi in
  match dms with
  | One dm => fjk' dm
  | Many l =>
      vjk <- map_M fjk' l ;;
      js <- map_M (fun x => a <- read2 (fst x) ;; ret (snd a)) vjk ;;
      vj <- alloc (Arr3 js) ;;
      ks <- map_M (fun x => a <- read2 (snd x) ;; ret (snd a)) vjk ;;
      vk <- alloc (Arr3 ks) ;;
      ret (vj, vk)
  end.

(** [get_jk_(mf, mol, dms, hermi)]: the SCF object after the call, the
    outcome and the store. *)
Definition get_jk_ (mf : SCF) (mol : Mole) (dms : dms_arg) (hermi : Z)
  : state -> SCF * (result jk * state) :=
  fun st =>
    let mf' := build_cderi mf mol in
    (mf', jk_of mf' hermi dms st).

(** The values [fjk] leaves in [vj] and [vk] on the symmetric path, for the
    eigenpairs [(e, c)] of the density [dm]: nothing is accumulated when
    both masks are empty. *)
Definition retained (e : vec) : bool :=
  0 <? count_true (pos_mask e) + count_true (neg_mask e).
Definition J_sym (cderi : factor) (n : Z) (nao : nat) (dm : matrix) (e : vec)
  : matrix :=
  if retained e then J_val cderi n (dmtril_val nao dm) (zeros nao nao)
  else zeros nao nao.
Definition K_sym_val (cderi : factor) (n : Z) (nao : nat) (c : matrix) (e : vec)
  : matrix :=
  if retained e
  then K_sym cderi n nao (cpos_of c e) (cneg_of c e) (zeros nao nao)
  else zeros nao nao.

(** The pair [(J, K)] that [fjk] computes from the contents [dm] of a
    well-shaped density, on either path ([None]: the eigensolver fails). *)
Definition fjk_val (cderi : factor) (s : matrix) (nao : nat) (n : Z)
           (hermi : Z) (dm : matrix) : option (matrix * matrix) :=
  if (hermi =? 1)%Z then
    match eigh dm s with
    | Some (e, c) => Some (J_sym cderi n nao dm e, K_sym_val cderi n nao c e)
    | None => None
    end
  else Some (J_val cderi n (dmtril_val nao dm) (zeros nao nao),
             K_gen cderi n nao dm (zeros nao nao)).

(** The [load_buf] calls [fjk] makes for a well-shaped density [dm]. *)
Definition fjk_trace (s : matrix) (n : Z) (hermi : Z) (dm : matrix)
  : list (Z * Z) :=
  if (hermi =? 1)%Z then
    match eigh dm s with
    | Some (e, c) => if retained e then block_loads n else []
    | None => []
    end
  else block_loads n.

(** The same for the density object at [dm] in the store [st]. *)
Definition dm_trace (st : state) (s : matrix) (n : Z) (hermi : Z) (dm : loc)
  : list (Z * Z) :=
  match heap st !! dm with
  | Some (Arr2 _ a) => fjk_trace s n hermi a
  | _ => []
  end.

(** The density at [dm] is a well-shaped array on which [fjk] computes
    [(J, K)]. *)
Definition dm_ok (st : state) cderi s nao N hermi (dm : loc)
           (r : bool * matrix * matrix) : Prop :=
  exists a, heap st !! dm = Some (Arr2 (fst (fst r)) a) /\ rect nao nao a /\
            fjk_val cderi s nao (Z.of_nat N) hermi a = Some (snd (fst r), snd r).

Definition holds (st : state) (o : jk) (r : bool * matrix * matrix) : Prop :=
  heap st !! fst o = Some (Arr2 (fst (fst r)) (snd (fst r))) /\
  heap st !! snd o = Some (Arr2 (fst (fst r)) (snd r)).



(** The method [get_jk] of the object [density_fit] returns (lines 46-47);
    [hermi] is [None] when the caller leaves the argument out.
<<
def get_jk(self, mol, dm, hermi=1):
    return get_jk_(self, mol, dm, hermi)
>> *)
Definition get_jk (self : SCF) (mol : Mole) (dm : dms_arg) (hermi : option Z)
  : state -> SCF * (result jk * state) :=
  get_jk_ self mol dm (default 1%Z hermi).

(** The collaborators of [symm/test/test_basis.py]: the point-group
    detection and the construction of the symmetry-adapted basis of
    [pyscf.symm]. *)
Variable Atoms : Type.
Variable Basis : Type.
Variable Group : Type.
Variable EqlAtoms : Type.
Variable detect_symm : Atoms -> Group * Atoms.
Variable symm_identical_atoms : Group -> Atoms -> EqlAtoms.
Variable symm_adapted_basis : Group -> EqlAtoms -> Atoms -> Basis -> list narray.

(** [get_so(atoms, basis)]
<<
gpname, atoms = symm.detect_symm(atoms)
eql_atoms = symm.symm_identical_atoms(gpname, atoms)
so = symm.basis.symm_adapted_basis(gpname, eql_atoms, atoms, basis)
n = 0
for c in so: ...
return n, so
>> *)
Definition get_so (atoms : Atoms) (basis : Basis) : result (nat * list narray) :=
  let '(gpname, atoms) := detect_symm atoms in
  let eql_atoms := symm_identical_atoms gpname atoms in
  let so := symm_adapted_basis gpname eql_atoms atoms basis in
  match count_so so 0 with
  | inl e => inl e
  | inr n => inr (n, so)
  end.

(** The assignment [method.max_memory = q] of the script at the end of
    [scf/dfhf.py]. *)
Definition set_max_memory (mf : SCF) (q : Q) : SCF :=
  mkSCF (auxbasis mf) (_cderi mf) (_naoaux mf) (direct_scf mf) q (ovlp mf).

(* ================================================================= *)
(** ** What the two exchange paths differ by *)

(** The weight the symmetric path gives an eigenpair of eigenvalue [x]:
    lines 95-96 scale the eigenvector by [numpy.sqrt(x)] and lines 99-100
    by [numpy.sqrt(-x)], the contraction multiplies two scaled copies, and
    the contribution of a negative eigenvalue is subtracted (line 123); an
    eigenpair that neither mask selects has no weight at all. *)
Definition used_weight (x : Q) : Q :=
  if Qltb OCCDROP x then (np_sqrt x * np_sqrt x)%Q
  else if Qltb x (- OCCDROP) then (- (np_sqrt (- x) * np_sqrt (- x)))%Q
  else 0%Q.
Definition used_weights (e : vec) : vec := map used_weight e.

(** What is lost of each eigenvalue on the symmetric path: the round-off of
    the square root for an eigenvalue that is kept, the whole eigenvalue
    for one that is dropped. *)
Definition weight_gap (e : vec) : vec := map (fun x => (x - used_weight x)%Q) e.

(** The array the eigenpairs stand for, [sum_m e[m] * c_m c_m^T], and what
    the density differs from it by. *)
Definition eig_density (nao : nat) (e : vec) (c : matrix) : matrix :=
  tabulate nao nao (fun p q =>
    sumn (length e) (fun m => (nth m e 0 * entry c p m * entry c q m)%Q)).
Definition eig_residual (nao : nat) (a : matrix) (e : vec) (c : matrix) : matrix :=
  tabulate nao nao (fun p q => (entry a p q - entry (eig_density nao e c) p q)%Q).

(** [pair_abs cderi n nao c k i j]: the sum, over every auxiliary index [p]
    and the first [k] eigenvectors [m], of [|(L_p c_m)[i] * (L_p c_m)[j]|]. *)
Definition pair_abs (cderi : factor) (n : Z) (nao : nat) (c : matrix) (k : nat)
           (i j : nat) : Q :=
  Qsum (map (fun b =>
    Qsum (map (fun row =>
      sumn k (fun m => Qabs (half nao c row m i * half nao c row m j)%Q))
      (block_rows cderi b)))
    (aux_blocks n)).

(* ================================================================= *)
(** ** Rules for [wp], [wpx] and [local] *)

Lemma wp_ret {A} (a : A) Q st : Q a st -> wp (ret a) Q st.
Proof. done. Qed.

Lemma wp_bind {A B} (m : M A) (k : A -> M B) Q st :
  wp m (fun a st' => wp (k a) Q st') st -> wp (bind m k) Q st.
Proof. unfold wp, bind. destruct (m st) as [[e|a] st']; done. Qed.

Lemma wp_mono {A} (m : M A) (Q Q' : A -> state -> Prop) st :
  wp m Q st -> (forall a st', Q a st' -> Q' a st') -> wp m Q' st.
Proof. unfold wp. destruct (m st) as [[e|a] st']; [done|]. auto. Qed.

Lemma wp_run {A} (m : M A) Q st :
  wp m Q st -> exists a st', m st = (inr a, st') /\ Q a st'.
Proof. unfold wp. destruct (m st) as [[e|a] st']; [done|]. eauto. Qed.

Lemma wp_lift {A} (r : result A) a Q st :
  r = inr a -> Q a st -> wp (lift r) Q st.
Proof. intros ->. done. Qed.

Lemma wp_read l v Q st :
  heap st !! l = Some v -> Q v st -> wp (read l) Q st.
Proof. unfold wp, read. intros ->. done. Qed.

Lemma wp_read1 l v Q st :
  heap st !! l = Some (Arr1 v) -> Q v st -> wp (read1 l) Q st.
Proof. intros H HQ. apply wp_bind. eapply wp_read; [exact H|]. done. Qed.

Lemma wp_read2 l f m Q st :
  heap st !! l = Some (Arr2 f m) -> Q (f, m) st -> wp (read2 l) Q st.
Proof. intros H HQ. apply wp_bind. eapply wp_read; [exact H|]. done. Qed.

Lemma wp_read3 l t Q st :
  heap st !! l = Some (Arr3 t) -> Q t st -> wp (read3 l) Q st.
Proof. intros H HQ. apply wp_bind. eapply wp_read; [exact H|]. done. Qed.

Lemma wp_alloc v Q st :
  Q (length (heap st)) (mkState (heap st ++ [v]) (loads st)) ->
  wp (alloc v) Q st.
Proof. done. Qed.

Lemma wp_write l v Q st :
  Q tt (mkState (<[l := v]> (heap st)) (loads st)) -> wp (write l v) Q st.
Proof. done. Qed.

Lemma wp_getattr {A} (o : option A) a Q st :
  o = Some a -> Q a st -> wp (getattr o) Q st.
Proof. intros ->. done. Qed.

(** A loop that keeps the invariant [I], indexed by the elements done. *)
Lemma wp_for_each {A} (body : A -> M unit) (I : list A -> state -> Prop) :
  forall l done st,
    I done st ->
    (forall d x st', In x l -> I d st' ->
                     wp (body x) (fun _ => I (d ++ [x])) st') ->
    wp (for_each l body) (fun _ => I (done ++ l)) st.
Proof.
  induction l as [|x l IH]; intros d st HI Hbody.
  - cbn. rewrite app_nil_r. done.
  - cbn [for_each]. apply wp_bind.
    eapply wp_mono; [apply Hbody; [by left|exact HI]|].
    intros [] st' HI'. cbn beta.
    replace (d ++ x :: l) with ((d ++ [x]) ++ l) by (by rewrite <- app_assoc).
    apply IH; [exact HI'|]. intros d' y st'' Hy. apply Hbody. by right.
Qed.

Lemma wpx_raise {A} e (Q : exn -> state -> Prop) st :
  Q e st -> wpx (@raise A e) Q st.
Proof. done. Qed.

Lemma wpx_lift {A} (r : result A) e Q st :
  r = inl e -> Q e st -> wpx (lift r) Q st.
Proof. intros ->. done. Qed.

Lemma wpx_bind_l {A B} (m : M A) (k : A -> M B) Q st :
  wpx m Q st -> wpx (bind m k) Q st.
Proof. unfold wpx, bind. destruct (m st) as [[e|a] st']; done. Qed.

Lemma wpx_bind_r {A B} (m : M A) (k : A -> M B) Q st :
  wp m (fun a st' => wpx (k a) Q st') st -> wpx (bind m k) Q st.
Proof. unfold wp, wpx, bind. destruct (m st) as [[e|a] st']; done. Qed.

Lemma wpx_run {A} (m : M A) Q st :
  wpx m Q st -> exists e st', m st = (inl e, st') /\ Q e st'.
Proof. unfold wpx. destruct (m st) as [[e|a] st']; [|done]. eauto. Qed.

Lemma agree_refl n st : agree n st st.
Proof. split; [lia|done]. Qed.

Lemma agree_trans n st1 st2 st3 :
  agree n st1 st2 -> agree n st2 st3 -> agree n st1 st3.
Proof.
  intros [H1 H1'] [H2 H2']. split; [lia|].
  intros l Hl. rewrite H2', H1' by done. done.
Qed.

Lemma local_ret {A} n (a : A) (P : A -> Prop) : P a -> local n (ret a) P.
Proof. intros HP st Hn. split; [apply agree_refl|done]. Qed.

Lemma local_raise {A} n e (P : A -> Prop) : local n (raise e) P.
Proof. intros st Hn. split; [apply agree_refl|done]. Qed.

Lemma local_lift {A} n (r : result A) : local n (lift r) (fun _ => True).
Proof. intros st Hn. split; [apply agree_refl|]. cbn. by destruct r. Qed.

Lemma local_getattr {A} n (o : option A) : local n (getattr o) (fun _ => True).
Proof. destruct o; [by apply local_ret|apply local_raise]. Qed.

Lemma local_bind {A B} n (m : M A) (k : A -> M B) P R :
  local n m P -> (forall a, P a -> local n (k a) R) -> local n (bind m k) R.
Proof.
  intros Hm Hk st Hn. destruct (Hm st Hn) as [Hag HP].
  unfold bind. destruct (m st) as [[e|a] st'] eqn:E; cbn in *; [done|].
  assert (n <= length (heap st')) as Hn' by (destruct Hag; lia).
  destruct (Hk a HP st' Hn') as [Hag' HR].
  split; [eapply agree_trans; eassumption|exact HR].
Qed.

Lemma local_weaken {A} n (m : M A) (P P' : A -> Prop) :
  local n m P -> (forall a, P a -> P' a) -> local n m P'.
Proof.
  intros Hm HPP st Hn. destruct (Hm st Hn) as [Hag HP]. split; [done|].
  destruct (fst (m st)); auto.
Qed.

Lemma local_read n l : local n (read l) (fun _ => True).
Proof.
  intros st Hn. unfold read. destruct (heap st !! l); (split; [apply agree_refl|done]).
Qed.

Lemma local_read1 n l : local n (read1 l) (fun _ => True).
Proof.
  eapply local_bind; [apply local_read|]. intros [v|f m|t] _;
    first [by apply local_ret | apply local_raise].
Qed.

Lemma local_read2 n l : local n (read2 l) (fun _ => True).
Proof.
  eapply local_bind; [apply local_read|]. intros [v|f m|t] _;
    first [by apply local_ret | apply local_raise].
Qed.

Lemma local_read3 n l : local n (read3 l) (fun _ => True).
Proof.
  eapply local_bind; [apply local_read|]. intros [v|f m|t] _;
    first [by apply local_ret | apply local_raise].
Qed.

(** A new object lies above every object that was there. *)
Lemma local_alloc n v : local n (alloc v) (fun l => n <= l).
Proof.
  intros st Hn. unfold agree. cbn. split; [|done]. split.
  - rewrite length_app. cbn. lia.
  - intros l Hl. apply lookup_app_l. lia.
Qed.

(** Writing to an object above [n] leaves the objects below [n] alone. *)
Lemma local_write n l v : n <= l -> local n (write l v) (fun _ => True).
Proof.
  intros Hl st Hn. unfold agree. cbn. split; [|done]. split.
  - rewrite length_insert. lia.
  - intros l' Hl'. apply list_lookup_insert_ne. lia.
Qed.

Lemma local_log_load n b0 c : local n (log_load b0 c) (fun _ => True).
Proof. intros st Hn. unfold agree. cbn. split; [split; [lia|done]|done]. Qed.

Lemma local_for_each {A} n (body : A -> M unit) l :
  (forall x, local n (body x) (fun _ => True)) ->
  local n (for_each l body) (fun _ => True).
Proof.
  intros Hb. induction l as [|x l IH]; cbn [for_each].
  - by apply local_ret.
  - eapply local_bind; [apply Hb|]. intros _ _. exact IH.
Qed.

Lemma local_map_M {A B} n (f : A -> M B) (P : B -> Prop) l :
  (forall x, local n (f x) P) ->
  local n (map_M f l) (Forall P).
Proof.
  intros Hf. induction l as [|x l IH]; cbn [map_M].
  - by apply local_ret.
  - eapply local_bind; [apply Hf|]. intros y Hy.
    eapply local_bind; [apply IH|]. intros ys Hys.
    apply local_ret. by constructor.
Qed.

(* ================================================================= *)
(** ** The objects [fjk] updates are its own *)

Lemma local_imul_at n l i q : n <= l -> local n (imul_at l i q) (fun _ => True).
Proof.
  intros Hl. eapply local_bind; [apply local_read1|]. intros v _.
  destruct (i <? length v); [by apply local_write|apply local_raise].
Qed.

Lemma local_iadd n l x : n <= l -> local n (iadd l x) (fun _ => True).
Proof.
  intros Hl. eapply local_bind; [apply local_read2|]. intros a _.
  eapply local_bind; [apply local_lift|]. intros m _. by apply local_write.
Qed.

Lemma local_isub n l x : n <= l -> local n (isub l x) (fun _ => True).
Proof.
  intros Hl. eapply local_bind; [apply local_read2|]. intros a _.
  eapply local_bind; [apply local_lift|]. intros m _. by apply local_write.
Qed.

Lemma local_asfortranarray n l : local n (asfortranarray l) (fun _ => True).
Proof.
  eapply local_bind; [apply local_read2|]. intros a _.
  destruct (fst a); [by apply local_ret|].
  eapply local_weaken; [apply local_alloc|done].
Qed.

Lemma local_load_buf n cderi b0 c : local n (load_buf cderi b0 c) (fun _ => True).
Proof.
  eapply local_bind; [apply local_log_load|]. intros _ _. by apply local_ret.
Qed.

Lemma local_k_branch n acc nao vk eri1 b0 b1 coef :
  (forall x, local n (acc vk x) (fun _ => True)) ->
  local n (k_branch nao acc vk eri1 b0 b1 coef) (fun _ => True).
Proof.
  intros Hacc. unfold k_branch. destruct (0 <? ncols coef); [|by apply local_ret].
  eapply local_bind; [apply local_alloc|]. intros buf Hbuf.
  eapply local_bind; [by apply local_write|]. intros _ _.
  eapply local_bind; [apply local_read2|]. intros b _.
  eapply local_bind; [apply local_lift|]. intros kk _. apply Hacc.
Qed.

Lemma local_block_sym n cderi nao dmtril vj vk cpos cneg b :
  n <= vj -> n <= vk ->
  local n (block_sym cderi nao dmtril vj vk cpos cneg b) (fun _ => True).
Proof.
  intros Hvj Hvk. destruct b as [b0 b1]. unfold block_sym.
  eapply local_bind; [apply local_load_buf|]. intros eri1 _.
  eapply local_bind; [apply local_read1|]. intros t _.
  eapply local_bind; [apply local_lift|]. intros buf _.
  eapply local_bind; [by apply local_iadd|]. intros _ _.
  eapply local_bind; [apply local_k_branch; intros; by apply local_iadd|].
  intros _ _. apply local_k_branch. intros. by apply local_isub.
Qed.

Lemma local_block_gen n cderi nao dmtril vj vk dm b :
  n <= vj -> n <= vk ->
  local n (block_gen cderi nao dmtril vj vk dm b) (fun _ => True).
Proof.
  intros Hvj Hvk. destruct b as [b0 b1]. unfold block_gen.
  eapply local_bind; [apply local_load_buf|]. intros eri1 _.
  eapply local_bind; [apply local_read1|]. intros t _.
  eapply local_bind; [apply local_lift|]. intros buf _.
  eapply local_bind; [by apply local_iadd|]. intros _ _.
  eapply local_bind; [apply local_alloc|]. intros buf' Hbuf.
  eapply local_bind; [apply local_read2|]. intros c _.
  eapply local_bind; [by apply local_write|]. intros _ _.
  eapply local_bind; [apply local_alloc|]. intros buf1 Hbuf1.
  eapply local_bind; [by apply local_write|]. intros _ _.
  eapply local_bind; [apply local_read3|]. intros x _.
  eapply local_bind; [apply local_read3|]. intros x1 _.
  eapply local_bind; [apply local_lift|]. intros kk _.
  by apply local_iadd.
Qed.

Lemma local_pack_density n nao dm :
  local n (pack_density nao dm) (fun dmtril => n <= dmtril).
Proof.
  unfold pack_density.
  eapply local_bind; [apply local_read2|]. intros a _.
  eapply local_bind; [apply local_lift|]. intros sym _.
  eapply local_bind; [apply local_alloc|]. intros dmtril Hd.
  eapply local_bind.
  { apply local_for_each. intros i. by apply local_imul_at. }
  intros _ _. by apply local_ret.
Qed.

Lemma local_fjk_from n cderi s nao naoaux hermi dm dmtril :
  local n (fjk_from cderi s nao naoaux hermi dm dmtril)
        (fun r => n <= fst r /\ n <= snd r).
Proof.
  unfold fjk_from.
  eapply local_bind; [apply local_read2|]. intros a _.
  eapply local_bind; [apply local_alloc|]. intros vj Hvj.
  eapply local_bind; [apply local_alloc|]. intros vk Hvk.
  eapply local_bind with (P := fun _ => True); [|intros _ _; by apply local_ret].
  destruct (hermi =? 1)%Z.
  - eapply local_bind; [apply local_lift|]. intros ec _. cbn zeta.
    destruct (0 <? _); [|by apply local_ret].
    eapply local_bind; [apply local_getattr|]. intros k _.
    eapply local_bind; [apply local_lift|]. intros blocks _.
    apply local_for_each. intros b. by apply local_block_sym.
  - eapply local_bind; [apply local_asfortranarray|]. intros dmF _.
    eapply local_bind; [apply local_getattr|]. intros k _.
    eapply local_bind; [apply local_lift|]. intros blocks _.
    apply local_for_each. intros b. by apply local_block_gen.
Qed.

Lemma local_fjk n cderi s nao naoaux hermi dm :
  local n (fjk cderi s nao naoaux hermi dm) (fun r => n <= fst r /\ n <= snd r).
Proof.
  unfold fjk.
  eapply local_bind; [apply local_pack_density|]. intros dmtril Hd.
  apply local_fjk_from.
Qed.

Lemma local_jk_of n mf hermi dms : local n (jk_of mf hermi dms) (fun _ => True).
Proof.
  unfold jk_of.
  eapply local_bind; [apply local_getattr|]. intros cderi _.
  destruct dms as [dm|l].
  - eapply local_weaken; [apply local_fjk|done].
  - eapply local_bind; [apply local_map_M; intros; apply local_fjk|].
    intros vjk _.
    eapply local_bind.
    { apply local_map_M with (P := fun _ => True). intros x.
      eapply local_bind; [apply local_read2|]. intros; by apply local_ret. }
    intros js _.
    eapply local_bind; [apply local_alloc|]. intros vj _.
    eapply local_bind.
    { apply local_map_M with (P := fun _ => True). intros x.
      eapply local_bind; [apply local_read2|]. intros; by apply local_ret. }
    intros ks _.
    eapply local_bind; [apply local_alloc|]. intros vk _.
    by apply local_ret.
Qed.

(** C10.  Whatever the outcome of [get_jk_] (a pair of arrays or an
    exception), the store after the call begins with the store before it:
    every array object that existed when the call was made, in particular
    every density matrix handed in, holds the same contents (and layout
    flag) afterwards.  The arrays that are updated in place ([dmtril],
    [vj], [vk], the transform buffers) are objects the call created. *)
Theorem get_jk_keeps_inputs mf mol dms hermi st :
  firstn (length (heap st)) (heap (snd (snd (get_jk_ mf mol dms hermi st))))
  = heap st.
Proof.
  unfold get_jk_. cbn [snd].
  destruct (local_jk_of (length (heap st)) (build_cderi mf mol) hermi dms st)
    as [[Hlen Hag] _]; [lia|].
  apply list_eq. intros i.
  destruct (Nat.lt_ge_cases i (length (heap st))) as [Hi|Hi].
  - rewrite lookup_take_lt by done. by apply Hag.
  - rewrite lookup_take_ge by done.
    symmetry. by apply lookup_ge_None.
Qed.

(* ================================================================= *)
(** ** Shapes and entries of the array operations *)

Lemma tri_S i : tri (S i) = tri i + S i.
Proof.
  unfold tri. replace (S i * (S i + 1)) with (i * (i + 1) + S i * 2) by lia.
  by rewrite Nat.div_add.
Qed.

Lemma tri_0 : tri 0 = 0.
Proof. done. Qed.

Lemma tri_double n : 2 * tri n = n * (n + 1).
Proof. induction n as [|n IH]; [done|]. rewrite tri_S. lia. Qed.

Lemma tri_mono i j : i <= j -> tri i <= tri j.
Proof. induction 1 as [|j _ IH]; [done|]. rewrite tri_S. lia. Qed.

Lemma tri_diag_lt i n : i < n -> tri i + i < tri n.
Proof.
  intros H. pose proof (tri_mono (S i) n H) as Hm. rewrite tri_S in Hm. lia.
Qed.

Lemma tri_diag_ge i n : n <= i -> tri n <= tri i + i.
Proof. intros H. pose proof (tri_mono n i H). lia. Qed.

(** The packed offset determines the row and the column. *)
Lemma tri_inj i j i' j' :
  j <= i -> j' <= i' -> tri i + j = tri i' + j' -> i = i' /\ j = j'.
Proof.
  intros Hj Hj' E.
  assert (i = i') as ->.
  { destruct (Nat.lt_trichotomy i i') as [H|[H|H]]; [|done|].
    - pose proof (tri_mono (S i) i' H) as Hm. rewrite tri_S in Hm. lia.
    - pose proof (tri_mono (S i') i H) as Hm. rewrite tri_S in Hm. lia. }
  split; [done|lia].
Qed.

Lemma tril_dim_tri n : tril_dim (tri n) = n.
Proof.
  unfold tril_dim. rewrite tri_double. apply Nat.sqrt_unique. cbn. lia.
Qed.

Lemma nth_map' {A B} (f : A -> B) (l : list A) d d' j :
  j < length l -> nth j (map f l) d = f (nth j l d').
Proof.
  intros Hj. rewrite (nth_indep (map f l) d (f d')) by (by rewrite length_map).
  apply map_nth.
Qed.

Lemma length_tabulate r c f : length (tabulate r c f) = r.
Proof. unfold tabulate. by rewrite length_map, length_seq. Qed.

Lemma nrows_tabulate r c f : nrows (tabulate r c f) = r.
Proof. apply length_tabulate. Qed.

Lemma rect_tabulate r c f : rect r c (tabulate r c f).
Proof.
  split; [apply length_tabulate|]. unfold tabulate.
  apply List.Forall_forall. intros row Hin. apply in_map_iff in Hin as (i & <- & _).
  by rewrite length_map, length_seq.
Qed.

Lemma rect_nrows r c m : rect r c m -> nrows m = r.
Proof. by intros [H _]. Qed.

Lemma rect_ncols r c m : rect r c m -> 0 < r -> ncols m = c.
Proof.
  intros [Hl Hrows] Hr. destruct m as [|row m]; cbn in *; [lia|].
  by inversion Hrows.
Qed.

Lemma rect_ncols_sq n m : rect n n m -> ncols m = n.
Proof.
  intros H. destruct n as [|n]; [|apply (rect_ncols _ _ _ H); lia].
  destruct H as [Hl _]. by destruct m.
Qed.

Lemma rect_row r c m i : rect r c m -> i < r -> length (nth i m []) = c.
Proof.
  intros [Hl Hrows] Hi. rewrite List.Forall_forall in Hrows.
  apply Hrows, nth_In. lia.
Qed.

Lemma ncols_tabulate r c f : 0 < r -> ncols (tabulate r c f) = c.
Proof. intros Hr. apply (rect_ncols r c); [apply rect_tabulate|done]. Qed.

Lemma ncols_tabulate_sq n f : ncols (tabulate n n f) = n.
Proof. apply rect_ncols_sq, rect_tabulate. Qed.

Lemma nth_tabulate r c f i :
  i < r -> nth i (tabulate r c f) [] = map (fun j => f i j) (seq 0 c).
Proof.
  intros Hi. unfold tabulate.
  rewrite (nth_indep _ [] (map (fun j => f 0 j) (seq 0 c)))
    by (by rewrite length_map, length_seq).
  rewrite (map_nth (fun i => map (fun j => f i j) (seq 0 c))).
  by rewrite seq_nth.
Qed.

Lemma entry_tabulate r c f i j :
  i < r -> j < c -> entry (tabulate r c f) i j = f i j.
Proof.
  intros Hi Hj. unfold entry. rewrite nth_tabulate by done.
  rewrite (nth_indep _ 0%Q (f i 0)) by (by rewrite length_map, length_seq).
  rewrite (map_nth (fun j => f i j)). by rewrite seq_nth.
Qed.

Lemma tabulate_ext r c f g :
  (forall i j, i < r -> j < c -> f i j = g i j) ->
  tabulate r c f = tabulate r c g.
Proof.
  intros H. unfold tabulate. apply map_ext_in. intros i Hi.
  apply map_ext_in. intros j Hj. apply in_seq in Hi, Hj. apply H; lia.
Qed.

(** An array is the table of its entries. *)
Lemma rect_tabulate_entry r c m : rect r c m -> m = tabulate r c (entry m).
Proof.
  intros Hm. apply nth_ext with (d := []) (d' := []).
  - rewrite length_tabulate. apply Hm.
  - intros i Hi. destruct Hm as [Hl Hrows]. rewrite Hl in Hi.
    rewrite nth_tabulate by done.
    apply nth_ext with (d := 0%Q) (d' := 0%Q).
    + rewrite length_map, length_seq. apply (rect_row r c); [by split|done].
    + intros j Hj. rewrite (rect_row r c) in Hj by (by split || done).
      change (nth j (nth i m []) 0%Q) with (entry m i j).
      rewrite (nth_indep _ 0%Q (entry m i 0)) by (by rewrite length_map, length_seq).
      rewrite (map_nth (entry m i)). by rewrite seq_nth.
Qed.

Lemma rect_zeros r c : rect r c (zeros r c).
Proof. apply rect_tabulate. Qed.

Lemma zeros_like_rect r c m : rect r c m -> 0 < r \/ r = c -> zeros_like m = zeros r c.
Proof.
  intros Hm Hr. unfold zeros_like. rewrite (rect_nrows _ _ _ Hm).
  destruct Hr as [Hr| ->]; [by rewrite (rect_ncols _ _ _ Hm)|].
  by rewrite (rect_ncols_sq _ _ Hm).
Qed.

Lemma bidx_lt d i : i < d -> bidx d i = i.
Proof. intros H. unfold bidx. destruct (Nat.eqb_spec d 1); lia. Qed.

Lemma bdim_same a : bdim a a = Some a.
Proof. unfold bdim. by rewrite Nat.eqb_refl. Qed.

Lemma np_binop_same op n a b :
  rect n n a -> rect n n b ->
  np_binop op a b = inr (tabulate n n (fun i j => op (entry a i j) (entry b i j))).
Proof.
  intros Ha Hb. unfold np_binop.
  rewrite (rect_nrows _ _ _ Ha), (rect_nrows _ _ _ Hb),
    (rect_ncols_sq _ _ Ha), (rect_ncols_sq _ _ Hb), bdim_same.
  f_equal. apply tabulate_ext. intros i j Hi Hj. by rewrite !bidx_lt.
Qed.

Lemma shape_eqb_sq n a b : rect n n a -> rect n n b -> shape_eqb a b = true.
Proof.
  intros Ha Hb. unfold shape_eqb.
  rewrite (rect_nrows _ _ _ Ha), (rect_nrows _ _ _ Hb),
    (rect_ncols_sq _ _ Ha), (rect_ncols_sq _ _ Hb), !Nat.eqb_refl. done.
Qed.

Lemma madd_sq n a x :
  rect n n a -> madd a x = tabulate n n (fun i j => (entry a i j + entry x i j)%Q).
Proof.
  intros Ha. unfold madd. by rewrite (rect_nrows _ _ _ Ha), (rect_ncols_sq _ _ Ha).
Qed.

Lemma msub_sq n a x :
  rect n n a -> msub a x = tabulate n n (fun i j => (entry a i j - entry x i j)%Q).
Proof.
  intros Ha. unfold msub. by rewrite (rect_nrows _ _ _ Ha), (rect_ncols_sq _ _ Ha).
Qed.

Lemma rect_madd n a x : rect n n a -> rect n n (madd a x).
Proof. intros Ha. rewrite (madd_sq n) by done. apply rect_tabulate. Qed.

Lemma rect_msub n a x : rect n n a -> rect n n (msub a x).
Proof. intros Ha. rewrite (msub_sq n) by done. apply rect_tabulate. Qed.

Lemma np_iadd_sq n a x :
  rect n n a -> rect n n x -> np_iadd a x = inr (madd a x).
Proof.
  intros Ha Hx. unfold np_iadd, np_inplace. rewrite (np_binop_same _ n) by done.
  rewrite (shape_eqb_sq n) by (apply rect_tabulate || done).
  by rewrite (madd_sq n).
Qed.

Lemma np_isub_sq n a x :
  rect n n a -> rect n n x -> np_isub a x = inr (msub a x).
Proof.
  intros Ha Hx. unfold np_isub, np_inplace. rewrite (np_binop_same _ n) by done.
  rewrite (shape_eqb_sq n) by (apply rect_tabulate || done).
  by rewrite (msub_sq n).
Qed.

Lemma transpose_sq n a :
  rect n n a -> transpose a = tabulate n n (fun i j => entry a j i).
Proof.
  intros Ha. unfold transpose.
  by rewrite (rect_nrows _ _ _ Ha), (rect_ncols_sq _ _ Ha).
Qed.

(** [dm + dm.T] for a square [dm] *)
Lemma np_add_T_sq n a :
  rect n n a ->
  np_add a (transpose a) =
  inr (tabulate n n (fun i j => (entry a i j + entry a j i)%Q)).
Proof.
  intros Ha. unfold np_add. rewrite (np_binop_same _ n);
    [|done|rewrite (transpose_sq n) by done; apply rect_tabulate].
  f_equal. apply tabulate_ext. intros i j Hi Hj.
  rewrite (transpose_sq n) by done. by rewrite entry_tabulate.
Qed.

(* ================================================================= *)
(** ** The packed density (lines 79-81) *)

Lemma length_pack_rows m : forall i,
  Forall (fun row => i + length m <= length row) m ->
  tri i + length (pack_rows i m) = tri (i + length m).
Proof.
  induction m as [|row m IH]; intros i Hm; cbn [pack_rows length].
  - by rewrite !Nat.add_0_r.
  - inversion Hm as [|? ? Hrow Hrest]; subst. cbn [length] in *.
    rewrite length_app, length_take_le by lia.
    specialize (IH (S i)). rewrite tri_S in IH.
    replace (i + S (length m)) with (S i + length m) by lia.
    rewrite <- IH; [lia|].
    eapply Forall_impl; [exact Hrest|]. cbn. intros; lia.
Qed.

Lemma nth_pack_rows m : forall i k j,
  Forall (fun row => i + length m <= length row) m ->
  k < length m -> j <= i + k ->
  nth (tri (i + k) + j - tri i) (pack_rows i m) 0%Q = nth j (nth k m []) 0%Q.
Proof.
  induction m as [|row m IH]; intros i k j Hm Hk Hj; cbn [length] in *; [lia|].
  inversion Hm as [|? ? Hrow Hrest]; subst. cbn [pack_rows length] in *.
  destruct k as [|k].
  - rewrite Nat.add_0_r in *. replace (tri i + j - tri i) with j by lia.
    rewrite app_nth1 by (rewrite length_take_le; lia).
    rewrite nth_firstn. destruct (Nat.ltb_spec j (S i)); [done|lia].
  - pose proof (tri_mono (S i) (i + S k) ltac:(lia)) as Hmono.
    rewrite tri_S in Hmono.
    rewrite app_nth2 by (rewrite length_take_le; lia).
    rewrite length_take_le by lia.
    replace (tri (i + S k) + j - tri i - S i)
      with (tri (S i + k) + j - tri (S i))
      by (rewrite tri_S; replace (i + S k) with (S i + k) by lia; lia).
    cbn [nth]. apply IH; [|lia|lia].
    eapply Forall_impl; [exact Hrest|]. cbn. intros; lia.
Qed.

Lemma length_pack_tril n m : rect n n m -> length (pack_tril m) = tri n.
Proof.
  intros [Hl Hrows]. unfold pack_tril.
  pose proof (length_pack_rows m 0) as H. rewrite tri_0, Hl in H.
  apply H. eapply Forall_impl; [exact Hrows|]. cbn. intros; lia.
Qed.

Lemma nth_pack_tril n m i j :
  rect n n m -> i < n -> j <= i ->
  nth (tri i + j) (pack_tril m) 0%Q = entry m i j.
Proof.
  intros [Hl Hrows] Hi Hj. unfold pack_tril, entry.
  rewrite <- (nth_pack_rows m 0 i j); [by rewrite tri_0, Nat.sub_0_r| |lia|done].
  eapply Forall_impl; [exact Hrows|]. cbn. intros; lia.
Qed.

Lemma nth_insert_eq {A} (l : list A) i x d :
  i < length l -> nth i (<[i := x]> l) d = x.
Proof. intros H. rewrite nth_lookup, list_lookup_insert_eq; done. Qed.

Lemma nth_insert_ne {A} (l : list A) i j x d :
  i <> j -> nth j (<[i := x]> l) d = nth j l d.
Proof. intros H. rewrite !nth_lookup, list_lookup_insert_ne; done. Qed.

Lemma halve_diag_S k t :
  halve_diag (S k) t =
  <[tri k + k := (nth (tri k + k) (halve_diag k t) 0 * (1 # 2))%Q]> (halve_diag k t).
Proof. unfold halve_diag. by rewrite seq_S, fold_left_app. Qed.

Lemma length_halve_diag k t : length (halve_diag k t) = length t.
Proof.
  induction k as [|k IH]; [done|]. by rewrite halve_diag_S, length_insert.
Qed.

(** The loop halves the diagonal entries of the rows below [k] and nothing
    else. *)
Lemma nth_halve_diag k t i j :
  j <= i -> tri i + j < length t ->
  nth (tri i + j) (halve_diag k t) 0%Q =
  if (i =? j) && (i <? k) then (nth (tri i + j) t 0 * (1 # 2))%Q
  else nth (tri i + j) t 0%Q.
Proof.
  intros Hj Hlen. induction k as [|k IH].
  - cbn. by rewrite andb_false_r.
  - rewrite halve_diag_S.
    destruct (Nat.eq_dec (tri k + k) (tri i + j)) as [E|E].
    + apply tri_inj in E as [-> ->]; [|lia..].
      rewrite nth_insert_eq by (rewrite length_halve_diag; lia).
      rewrite IH, Nat.eqb_refl, Nat.ltb_irrefl.
      replace (j <? S j) with true by (symmetry; apply Nat.ltb_lt; lia).
      done.
    + rewrite nth_insert_ne by done. rewrite IH.
      destruct (Nat.eqb_spec i j) as [->|Hij]; cbn [andb]; [|done].
      destruct (Nat.ltb_spec j k), (Nat.ltb_spec j (S k)); try done; try lia.
      assert (j = k) by lia. by subst.
Qed.

Lemma wp_for_each_app {A} (body : A -> M unit) l1 l2 Q st :
  wp (for_each l1 body) (fun _ st' => wp (for_each l2 body) Q st') st ->
  wp (for_each (l1 ++ l2) body) Q st.
Proof.
  revert st. induction l1 as [|x l1 IH]; intros st H; cbn [for_each app] in *.
  - exact H.
  - apply wp_bind. unfold wp at 1 in H. unfold bind in H. unfold wp at 1.
    destruct (body x st) as [[e|[]] st']; [done|]. by apply IH.
Qed.

Lemma wp_imul_at l i q t Q st :
  heap st !! l = Some (Arr1 t) -> i < length t ->
  Q tt (mkState (<[l := Arr1 (<[i := (nth i t 0 * q)%Q]> t)]> (heap st)) (loads st)) ->
  wp (imul_at l i q) Q st.
Proof.
  intros Hl Hi HQ. unfold imul_at. apply wp_bind.
  eapply wp_read1; [exact Hl|]. destruct (Nat.ltb_spec i (length t)); [|lia].
  by apply wp_write.
Qed.

Lemma wp_halve_loop l t st : forall k,
  heap st !! l = Some (Arr1 t) -> tri k <= length t ->
  wp (for_each (seq 0 k) (fun i => imul_at l (tri i + i) (1 # 2)))
     (fun _ st' => heap st' = <[l := Arr1 (halve_diag k t)]> (heap st) /\
                   loads st' = loads st) st.
Proof.
  intros k Hl. induction k as [|k IH]; intros Hk.
  - apply wp_ret. split; [|done]. symmetry. by apply list_insert_id.
  - rewrite seq_S. apply wp_for_each_app.
    rewrite tri_S in Hk.
    eapply wp_mono; [apply IH; lia|]. intros [] st' [Hh Hld]. cbn beta.
    cbn [for_each Nat.add]. apply wp_bind.
    assert (l < length (heap st)) as Hlt by (by eapply lookup_lt_Some).
    eapply wp_imul_at.
    + rewrite Hh. by apply list_lookup_insert_eq.
    + rewrite length_halve_diag. lia.
    + apply wp_ret. cbn [heap loads].
      rewrite Hh, list_insert_insert_eq, halve_diag_S. done.
Qed.

Lemma insert_snoc {A} (h : list A) x y : <[length h := y]> (h ++ [x]) = h ++ [y].
Proof.
  rewrite insert_app_r_alt by lia. by rewrite Nat.sub_diag.
Qed.

Lemma wp_pack_density nao dm f a Q st :
  heap st !! dm = Some (Arr2 f a) -> rect nao nao a ->
  Q (length (heap st))
    (mkState (heap st ++ [Arr1 (dmtril_val nao a)]) (loads st)) ->
  wp (pack_density nao dm) Q st.
Proof.
  intros Hdm Ha HQ. unfold pack_density.
  apply wp_bind. eapply wp_read2; [exact Hdm|]. cbn [snd].
  apply wp_bind. eapply wp_lift; [by apply np_add_T_sq|].
  apply wp_bind. apply wp_alloc.
  apply wp_bind. eapply wp_mono.
  { apply wp_halve_loop with (t := pack_tril (tabulate nao nao
            (fun i j => (entry a i j + entry a j i)%Q))).
    - cbn. apply list_lookup_middle. done.
    - rewrite (length_pack_tril nao); [done|apply rect_tabulate]. }
  intros [] [h' ld'] [Hh Hld]. cbn in Hh, Hld. subst h' ld'.
  apply wp_ret. by rewrite insert_snoc.
Qed.

Lemma pack_density_run nao dm f a st :
  heap st !! dm = Some (Arr2 f a) -> rect nao nao a ->
  pack_density nao dm st =
  (inr (length (heap st)),
   mkState (heap st ++ [Arr1 (dmtril_val nao a)]) (loads st)).
Proof.
  intros Hdm Ha.
  destruct (wp_run (pack_density nao dm)
              (fun l st' => l = length (heap st) /\
                 st' = mkState (heap st ++ [Arr1 (dmtril_val nao a)]) (loads st)) st)
    as (l & st' & E & -> & ->); [|exact E].
  eapply wp_pack_density; [exact Hdm|exact Ha|done].
Qed.

Lemma length_dmtril_val n a : length (dmtril_val n a) = tri n.
Proof.
  unfold dmtril_val. rewrite length_halve_diag.
  apply length_pack_tril, rect_tabulate.
Qed.

Lemma nth_dmtril_val n a i j :
  j <= i -> i < n ->
  nth (tri i + j) (dmtril_val n a) 0%Q =
  if i =? j then ((entry a i i + entry a i i) * (1 # 2))%Q
  else (entry a i j + entry a j i)%Q.
Proof.
  intros Hj Hi. unfold dmtril_val.
  assert (tri i + j < tri n) as Hlt.
  { pose proof (tri_diag_lt i n Hi). lia. }
  pose proof (length_pack_tril n _ (rect_tabulate n n
    (fun i j => (entry a i j + entry a j i)%Q))) as Hlen.
  rewrite nth_halve_diag by (rewrite ?Hlen; lia).
  rewrite (nth_pack_tril n), entry_tabulate by (apply rect_tabulate || lia).
  destruct (Nat.eqb_spec i j) as [->|Hne]; cbn [andb]; [|done].
  destruct (Nat.ltb_spec j n); [done|lia].
Qed.

(** C6.  For a square density matrix of side [nao], lines 79-81 create one
    new vector [dmtril] of length [nao*(nao+1)/2] whose entry at packed
    offset [i*(i+1)/2 + j] ([j <= i]) is [dm[i][j] + dm[j][i]], multiplied
    by [.5] on the diagonal ([j = i], offset [i*(i+1)/2 + i]).  This is so
    for every value of [hermi], and the vector is still the same when
    [fjk] is left. *)
Theorem dmtril_packed cderi s nao naoaux hermi dm st f a :
  heap st !! dm = Some (Arr2 f a) -> rect nao nao a ->
  exists t,
    pack_density nao dm st =
      (inr (length (heap st)), mkState (heap st ++ [Arr1 t]) (loads st)) /\
    heap (snd (fjk cderi s nao naoaux hermi dm st)) !! length (heap st)
      = Some (Arr1 t) /\
    length t = tri nao /\
    forall i j, j <= i -> i < nao ->
      nth (tri i + j) t 0%Q =
      if i =? j then ((entry a i i + entry a i i) * (1 # 2))%Q
      else (entry a i j + entry a j i)%Q.
Proof.
  intros Hdm Ha. exists (dmtril_val nao a).
  pose proof (pack_density_run nao dm f a st Hdm Ha) as Hrun.
  split; [exact Hrun|]. split; [|split].
  - unfold fjk, bind. rewrite Hrun.
    set (st1 := mkState _ _).
    destruct (local_fjk_from (S (length (heap st))) cderi s nao naoaux hermi
                dm (length (heap st)) st1) as [[_ Hag] _].
    { subst st1. cbn. rewrite length_app. cbn. lia. }
    rewrite Hag by lia. subst st1. cbn. apply list_lookup_middle. done.
  - apply length_dmtril_val.
  - intros i j Hj Hi. by apply nth_dmtril_val.
Qed.

(* ================================================================= *)
(** ** The sign split of the eigenpairs (lines 92-100) *)

Lemma Qltb_lt a b : Qltb a b = true <-> (a < b)%Q.
Proof.
  unfold Qltb. rewrite negb_true_iff. split.
  - intros H. apply Qnot_le_lt. intros Hle.
    apply Qle_bool_iff in Hle. congruence.
  - intros H. destruct (Qle_bool b a) eqn:E; [|done].
    apply Qle_bool_iff in E. exfalso. by apply (Qlt_not_le a b).
Qed.

Lemma nth_pos_mask e k :
  k < length e ->
  nth k (pos_mask e) false = Qltb OCCDROP (nth k e 0%Q).
Proof.
  intros Hk. unfold pos_mask.
  rewrite (nth_indep _ false (Qltb OCCDROP 0)) by (by rewrite length_map).
  by rewrite (map_nth (fun x => Qltb OCCDROP x)).
Qed.

Lemma nth_neg_mask e k :
  k < length e ->
  nth k (neg_mask e) false = Qltb (nth k e 0%Q) (- OCCDROP).
Proof.
  intros Hk. unfold neg_mask.
  rewrite (nth_indep _ false (Qltb 0 (- OCCDROP))) by (by rewrite length_map).
  by rewrite (map_nth (fun x => Qltb x (- OCCDROP))).
Qed.

Lemma mask_index_from_spec mask : forall i k,
  In k (mask_index_from i mask) <->
  i <= k < i + length mask /\ nth (k - i) mask false = true.
Proof.
  induction mask as [|b mask IH]; intros i k; cbn [mask_index_from length].
  - split; [done|]. intros [H _]. lia.
  - assert (In k (mask_index_from (S i) mask) <->
            S i <= k < i + S (length mask) /\ nth (k - i) (b :: mask) false = true)
      as IH'.
    { rewrite IH. split; intros [H1 H2]; (split; [lia|]).
      - replace (k - i) with (S (k - S i)) by lia. exact H2.
      - replace (k - i) with (S (k - S i)) in H2 by lia. exact H2. }
    destruct b; cbn [In]; rewrite IH'.
    + split.
      * intros [<-|[H1 H2]]; [|split; [lia|done]].
        split; [lia|]. by rewrite Nat.sub_diag.
      * intros [H1 H2]. destruct (Nat.eq_dec i k); [by left|right].
        split; [lia|done].
    + split; intros [H1 H2].
      * split; [lia|done].
      * destruct (Nat.eq_dec i k) as [->|]; [|split; [lia|done]].
        by rewrite Nat.sub_diag in H2.
Qed.

Lemma select_mask_index {A} (d : A) mask : forall i (l : list A),
  length l = length mask ->
  select l mask = map (fun k => nth (k - i) l d) (mask_index_from i mask).
Proof.
  induction mask as [|b mask IH]; intros i l Hl; destruct l as [|x l];
    cbn [select mask_index_from map length] in *; try done.
  injection Hl as Hl.
  assert (select l mask =
          map (fun k => nth (k - i) (x :: l) d) (mask_index_from (S i) mask)) as E.
  { rewrite (IH (S i) l Hl). apply map_ext_in. intros k Hk.
    apply mask_index_from_spec in Hk as [Hk _].
    replace (k - i) with (S (k - S i)) by lia. done. }
  destruct b; cbn [map]; rewrite E; [|done].
  by rewrite Nat.sub_diag.
Qed.

Lemma length_mask_index_from mask : forall i,
  length (mask_index_from i mask) = count_true mask.
Proof.
  induction mask as [|b mask IH]; intros i; [done|].
  unfold count_true in *. cbn [mask_index_from map list_sum].
  destruct b; cbn [length Nat.b2n]; rewrite IH; done.
Qed.

Lemma nth_zip_with (u v : vec) j :
  length u = length v ->
  nth j (zip_with Qmult u v) 0%Q = (nth j u 0 * nth j v 0)%Q \/
  (length u <= j /\ nth j (zip_with Qmult u v) 0%Q = 0%Q).
Proof.
  revert v j. induction u as [|x u IH]; intros [|y v] j Hl; try done.
  - right. split; [cbn; lia|]. by destruct j.
  - injection Hl as Hl. destruct j as [|j]; [by left|].
    cbn [zip_with nth length]. destruct (IH v j Hl) as [H|[H1 H2]]; [by left|].
    right. split; [lia|done].
Qed.

(** The scaled coefficient array: column [j] is the [j]-th selected
    eigenvector times the scale of its eigenvalue. *)
Lemma entry_scaled_select c e mask (g : Q -> Q) n i j :
  rect n (length e) c -> length mask = length e ->
  i < n -> j < count_true mask ->
  entry (einsum_ij_j (select_cols c mask) (map g (select e mask))) i j =
  (entry c i (nth j (mask_index mask) 0%nat) *
   g (nth (nth j (mask_index mask) 0%nat) e 0))%Q.
Proof.
  intros Hc Hm Hi Hj. unfold entry, einsum_ij_j, select_cols.
  pose proof (rect_row _ _ _ i Hc Hi) as Hrow.
  destruct Hc as [Hlc _].
  rewrite map_map.
  rewrite (nth_map' _ c _ [] i) by lia.
  rewrite (select_mask_index 0%Q mask 0 (nth i c []))  by lia.
  rewrite (select_mask_index 0%Q mask 0 e) by lia.
  fold (mask_index mask).
  assert (length (mask_index mask) = count_true mask) as Hlen
    by apply length_mask_index_from.
  destruct (nth_zip_with
              (map (fun k => nth (k - 0) (nth i c []) 0%Q) (mask_index mask))
              (map g (map (fun k => nth (k - 0) e 0%Q) (mask_index mask))) j)
    as [E|[Hbad _]].
  - by rewrite !length_map.
  - rewrite E, map_map.
    rewrite (nth_map' _ (mask_index mask) _ 0 j) by lia.
    rewrite (nth_map' _ (mask_index mask) _ 0 j) by lia.
    by rewrite Nat.sub_0_r.
  - rewrite length_map in Hbad. lia.
Qed.

Lemma rect_scaled_select c e mask (g : Q -> Q) n :
  rect n (length e) c -> length mask = length e ->
  rect n (count_true mask)
       (einsum_ij_j (select_cols c mask) (map g (select e mask))).
Proof.
  intros [Hl Hrows] Hm. unfold einsum_ij_j, select_cols. split.
  - by rewrite !length_map.
  - rewrite map_map. apply Forall_map.
    eapply Forall_impl; [exact Hrows|]. cbn. intros row Hrow.
    rewrite length_zip_with, length_map.
    rewrite (select_mask_index 0%Q mask 0 row), (select_mask_index 0%Q mask 0 e) by lia.
    rewrite !length_map, length_mask_index_from. lia.
Qed.

Lemma in_mask_index_pos e k :
  In k (mask_index (pos_mask e)) <-> k < length e /\ (OCCDROP < nth k e 0)%Q.
Proof.
  unfold mask_index. rewrite mask_index_from_spec, Nat.sub_0_r.
  unfold pos_mask at 1. rewrite length_map. split.
  - intros [Hk H]. split; [lia|]. rewrite nth_pos_mask in H by lia.
    by apply Qltb_lt.
  - intros [Hk H]. split; [lia|]. rewrite nth_pos_mask by lia.
    by apply Qltb_lt.
Qed.

Lemma in_mask_index_neg e k :
  In k (mask_index (neg_mask e)) <-> k < length e /\ (nth k e 0 < - OCCDROP)%Q.
Proof.
  unfold mask_index. rewrite mask_index_from_spec, Nat.sub_0_r.
  unfold neg_mask at 1. rewrite length_map. split.
  - intros [Hk H]. split; [lia|]. rewrite nth_neg_mask in H by lia.
    by apply Qltb_lt.
  - intros [Hk H]. split; [lia|]. rewrite nth_neg_mask by lia.
    by apply Qltb_lt.
Qed.

Lemma OCCDROP_pos : (0 < OCCDROP)%Q.
Proof. done. Qed.

(** C3.  For the eigenvalues [e] and eigenvector columns [c] that the
    solver returns, the masks of lines 92-93 are strict comparisons with
    [OCCDROP = 1e-12]: position [k] is positive exactly when
    [e[k] > 1e-12] and negative exactly when [e[k] < -1e-12]; an
    eigenvalue of magnitude exactly [1e-12] is in neither set.  [cpos] has
    one column per positive eigenvalue, in order, equal to that
    eigenvector times [sqrt(e[k])]; [cneg] likewise for the negative
    eigenvalues with [sqrt(-e[k])]. *)
Theorem eigen_split c e n :
  rect n (length e) c ->
  (OCCDROP == 1 / 1000000000000)%Q /\
  (forall k, k < length e ->
     (nth k (pos_mask e) false = true <-> (OCCDROP < nth k e 0)%Q) /\
     (nth k (neg_mask e) false = true <-> (nth k e 0 < - OCCDROP)%Q) /\
     ((Qabs (nth k e 0) == OCCDROP)%Q ->
      nth k (pos_mask e) false = false /\ nth k (neg_mask e) false = false)) /\
  (forall k, In k (mask_index (pos_mask e)) <->
             k < length e /\ (OCCDROP < nth k e 0)%Q) /\
  (forall k, In k (mask_index (neg_mask e)) <->
             k < length e /\ (nth k e 0 < - OCCDROP)%Q) /\
  rect n (count_true (pos_mask e)) (cpos_of c e) /\
  rect n (count_true (neg_mask e)) (cneg_of c e) /\
  (forall i j, i < n -> j < count_true (pos_mask e) ->
     let k := nth j (mask_index (pos_mask e)) 0 in
     entry (cpos_of c e) i j = (entry c i k * np_sqrt (nth k e 0))%Q) /\
  (forall i j, i < n -> j < count_true (neg_mask e) ->
     let k := nth j (mask_index (neg_mask e)) 0 in
     entry (cneg_of c e) i j = (entry c i k * np_sqrt (- nth k e 0))%Q).
Proof.
  intros Hc. split; [done|]. split; [|split; [|split]].
  - intros k Hk. rewrite nth_pos_mask, nth_neg_mask by done.
    rewrite !Qltb_lt. split; [done|]. split; [done|].
    intros Habs.
    assert (Qabs (nth k e 0) <= OCCDROP)%Q as Hle by (rewrite Habs; apply Qle_refl).
    apply Qabs_Qle_condition in Hle as [Hlo Hhi].
    split.
    + destruct (Qltb OCCDROP (nth k e 0%Q)) eqn:E; [|done].
      apply Qltb_lt in E. exfalso. by apply (Qlt_not_le _ _ E).
    + destruct (Qltb (nth k e 0%Q) (- OCCDROP)) eqn:E; [|done].
      apply Qltb_lt in E. exfalso. by apply (Qlt_not_le _ _ E).
  - apply in_mask_index_pos.
  - apply in_mask_index_neg.
  - assert (length (pos_mask e) = length e) as Hp by apply length_map.
    assert (length (neg_mask e) = length e) as Hn by apply length_map.
    split; [by apply rect_scaled_select|].
    split; [by apply (rect_scaled_select c e (neg_mask e) (fun x => np_sqrt (- x)))|].
    split.
    + intros i j Hi Hj k. unfold cpos_of. by apply (entry_scaled_select c e _ np_sqrt n).
    + intros i j Hi Hj k. unfold cneg_of.
      by apply (entry_scaled_select c e _ (fun x => np_sqrt (- x)) n).
Qed.

(* ================================================================= *)
(** ** Where the factor is kept (lines 57-70) *)

Section Budget.

#[local] Open Scope Q_scope.

Lemma Qpower_2_nonneg k : (0 <= k)%Z -> 2 ^ k == inject_Z (2 ^ k).
Proof. intros H. symmetry. exact (Zpower_Qpower 2 k H). Qed.

Lemma Qpower_2_nonpos k : (0 <= k)%Z -> 2 ^ (- k) == / inject_Z (2 ^ k).
Proof. intros H. by rewrite Qpower_opp, Qpower_2_nonneg. Qed.

Lemma round_half_even_comp q q' :
  q == q' -> round_half_even q = round_half_even q'.
Proof.
  intros H. unfold round_half_even. rewrite (Qfloor_comp _ _ H).
  assert (q - inject_Z (Qfloor q') == q' - inject_Z (Qfloor q')) as E
    by (by rewrite H).
  by rewrite (Qcompare_comp _ _ E _ _ (Qeq_refl (1 # 2))).
Qed.

Lemma round_half_even_Z k : round_half_even (inject_Z k) = k.
Proof.
  unfold round_half_even. rewrite Qfloor_Z.
  assert (inject_Z k - inject_Z k == 0) as E by ring.
  by rewrite (Qcompare_comp _ _ E _ _ (Qeq_refl (1 # 2))).
Qed.

Lemma Qlog2_Z z : (0 < z)%Z -> Qlog2 (inject_Z z) = Z.log2 z.
Proof.
  intros Hz. unfold Qlog2. cbn [Qnum Qden inject_Z].
  change (Z.log2 1) with 0%Z. rewrite Z.sub_0_r.
  assert (Qle_bool (2 ^ Z.log2 z) (inject_Z z) = true) as ->; [|done].
  apply Qle_bool_iff. rewrite Qpower_2_nonneg by apply Z.log2_nonneg.
  rewrite <- Zle_Qle.
  by apply Z.log2_spec.
Qed.

Lemma Qred_inject_Z z : Qred (inject_Z z) = inject_Z z.
Proof.
  unfold inject_Z, Qred.
  pose proof (Z.ggcd_gcd z 1) as Hg. rewrite Z.gcd_1_r in Hg.
  pose proof (Z.ggcd_correct_divisors z 1) as Hd.
  destruct (Z.ggcd z 1) as [g [aa bb]]. cbn [fst snd] in *. subst g.
  rewrite !Z.mul_1_l in Hd. by destruct Hd as [<- <-].
Qed.

(** The 53 bits of a float hold an integer below [2^53] as it is. *)
Lemma round_magnitude z :
  (0 < z < 2 ^ 53)%Z ->
  let a := inject_Z z in
  let u := Z.max (Qlog2 a - 52) (-1074) in
  Qred (inject_Z (round_half_even (a / 2 ^ u)) * 2 ^ u) = inject_Z z.
Proof.
  intros [Hz Hlt] a u. subst a u. rewrite Qlog2_Z by done.
  pose proof (Z.log2_nonneg z) as H0.
  assert (Z.log2 z < 53)%Z as H1 by (apply Z.log2_lt_pow2; lia).
  set (e := Z.log2 z) in *. rewrite Z.max_l by lia.
  assert (2 ^ (e - 52) == / inject_Z (2 ^ (52 - e))) as Hp.
  { replace (e - 52)%Z with (- (52 - e))%Z by lia.
    apply Qpower_2_nonpos. lia. }
  assert (~ inject_Z (2 ^ (52 - e)) == 0) as Hnz.
  { change 0 with (inject_Z 0). rewrite inject_Z_injective.
    apply Z.pow_nonzero; lia. }
  assert (inject_Z z / 2 ^ (e - 52) == inject_Z (z * 2 ^ (52 - e))) as Hd.
  { rewrite Hp, inject_Z_mult. by field. }
  rewrite (round_half_even_comp _ _ Hd), round_half_even_Z.
  assert (inject_Z (z * 2 ^ (52 - e)) * 2 ^ (e - 52) == inject_Z z) as Hv.
  { rewrite Hp, inject_Z_mult. by field. }
  by rewrite (Qred_complete _ _ Hv), Qred_inject_Z.
Qed.

Lemma round_double_int z :
  (Z.abs z < 2 ^ 53)%Z -> round_double (inject_Z z) = Finite (inject_Z z).
Proof.
  intros Hz.
  assert (forall w, (0 < w < 2 ^ 53)%Z -> Qle_bool (2 ^ 1024) (inject_Z w) = false)
    as Hbig.
  { intros w [Hw0 Hw]. destruct (Qle_bool _ _) eqn:E; [|done].
    apply Qle_bool_iff in E. rewrite Qpower_2_nonneg in E by lia.
    rewrite <- Zle_Qle in E.
    pose proof (Z.pow_lt_mono_r 2 53 1024 ltac:(lia) ltac:(lia) ltac:(lia)). lia. }
  destruct (Z.lt_trichotomy z 0) as [Hneg|[->|Hpos]].
  - unfold round_double.
    assert (Qeq_bool (inject_Z z) 0 = false) as ->.
    { destruct (Qeq_bool _ _) eqn:E; [|done]. apply Qeq_bool_eq in E.
      unfold Qeq in E. cbn in E. lia. }
    assert (Qabs (inject_Z z) = inject_Z (- z)) as ->.
    { unfold Qabs, inject_Z. f_equal. lia. }
    rewrite (round_magnitude (- z)) by lia. rewrite Hbig by lia.
    assert (Qle_bool 0 (inject_Z z) = false) as ->.
    { destruct (Qle_bool _ _) eqn:E; [|done]. apply Qle_bool_iff in E.
      change 0 with (inject_Z 0) in E. rewrite <- Zle_Qle in E. lia. }
    unfold Qopp, inject_Z. cbn [Qnum Qden]. by rewrite Z.opp_involutive.
  - done.
  - unfold round_double.
    assert (Qeq_bool (inject_Z z) 0 = false) as ->.
    { destruct (Qeq_bool _ _) eqn:E; [|done]. apply Qeq_bool_eq in E.
      unfold Qeq in E. cbn in E. lia. }
    assert (Qabs (inject_Z z) = inject_Z z) as ->.
    { unfold Qabs, inject_Z. f_equal. lia. }
    rewrite (round_magnitude z) by lia. rewrite Hbig by lia.
    assert (Qle_bool 0 (inject_Z z) = true) as ->; [|done].
    apply Qle_bool_iff. change 0 with (inject_Z 0). rewrite <- Zle_Qle. lia.
Qed.

(** A whole number of megabytes gives its exact number of bytes, as long
    as that stays below [2^53]. *)
Lemma times_1e6_int k :
  (Z.abs k * 1000000 < 2 ^ 53)%Z ->
  times_1e6 (inject_Z k) = Finite (inject_Z (k * 1000000)).
Proof.
  intros Hk. unfold times_1e6. rewrite round_double_int by lia.
  change (inject_Z k * 1000000) with (inject_Z (k * 1000000)).
  apply round_double_int. lia.
Qed.

Lemma int_lt_float_below z x : int_lt_float z x = true <-> below z x.
Proof.
  destruct x as [q|[]]; cbn [int_lt_float below negb].
  - apply Qltb_lt.
  - split; intros; discriminate.
  - done.
Qed.

End Budget.

(** The product of line 62 is a product of floats.  [2.4e-05] is the float
    [1770887431076117 / 2^66], a little above 24 millionths, and its product
    with [1e6] rounds to [24.0]: 24 bytes are not below that budget, though
    they are below the exact product. *)
Example budget_is_rounded :
  let m := (1770887431076117 # 73786976294838206464)%Q in
  round_double m = Finite m /\
  (inject_Z 24 < m * 1000000)%Q /\
  times_1e6 m = Finite (inject_Z 24) /\
  in_core 2 1 m = false.
Proof. vm_compute. done. Qed.

(** One tenth is not a float; [0.1] is the float next to it. *)
Example tenth_is_rounded :
  round_double (1 # 10) = Finite (3602879701896397 # 36028797018963968).
Proof. by vm_compute. Qed.

(** C2.  When the factor has not been built yet, [get_jk_] builds it and
    keeps it in memory if and only if [nao*(nao+1)/2 * naoaux * 8] is
    strictly less than the memory budget in bytes, the float
    [max_memory * 1e6] ([max_memory] being a number within the range of
    floats); otherwise the factor is built into the temporary file, whose
    name the SCF object keeps, and [load_buf] reads any range of rows from
    it.  For a whole number of megabytes the budget is the exact number of
    bytes, as long as that is below [2^53]. *)
Theorem factor_storage mf mol dms hermi st :
  _cderi mf = None ->
  (exists a, round_double (max_memory mf) = Finite a) ->
  let nao := nao_nr mol in
  let naoaux := nao_nr (format_aux_basis mol (auxbasis mf)) in
  let bytes := (nao * (nao + 1) / 2 * naoaux * 8)%Z in
  let budget := times_1e6 (max_memory mf) in
  let mf' := fst (get_jk_ mf mol dms hermi st) in
  ((exists t, _cderi mf' = Some (InCore t)) <-> below bytes budget) /\
  (below bytes budget ->
   _cderi mf' = Some (InCore (incore_cholesky_eri mol (auxbasis mf)))) /\
  (~ below bytes budget ->
   let t := outcore_cholesky_eri mol tempname (auxbasis mf) in
   _cderi mf' = Some (OutCore tempname t) /\
   forall b0 count st',
     fst (load_buf (OutCore tempname t) b0 count st') =
     inr (firstn (Z.to_nat count) (skipn (Z.to_nat b0) t))) /\
  _naoaux mf' = Some naoaux /\
  (forall k, max_memory mf = inject_Z k -> (Z.abs k * 1000000 < 2 ^ 53)%Z ->
             budget = Finite (inject_Z (k * 1000000))).
Proof.
  intros Hnone _ nao naoaux bytes budget mf'.
  assert (forall k, max_memory mf = inject_Z k -> (Z.abs k * 1000000 < 2 ^ 53)%Z ->
                    budget = Finite (inject_Z (k * 1000000))) as Hexact.
  { intros k Hk Hlt. subst budget. rewrite Hk. by apply times_1e6_int. }
  subst mf'. unfold get_jk_. cbn [fst]. unfold build_cderi. rewrite Hnone.
  fold nao naoaux. unfold in_core. fold bytes budget.
  destruct (int_lt_float bytes budget) eqn:E; cbn [_cderi _naoaux].
  - apply int_lt_float_below in E. split; [split; [done|eauto]|].
    split; [done|]. split; [done|done].
  - assert (~ below bytes budget) as Hn.
    { intros H. apply int_lt_float_below in H. congruence. }
    split; [split; [intros [t Ht]; discriminate|done]|].
    split; [done|]. split; [|done].
    intros _. split; [done|]. intros b0 count st'. done.
Qed.

(* ================================================================= *)
(** ** The block iterator *)

#[local] Open Scope Z_scope.

Lemma range_len_step start stop step :
  0 < step -> start < stop ->
  range_len start stop step = 1 + range_len (start + step) stop step.
Proof.
  intros Hs Hlt. unfold range_len.
  destruct (Z.ltb_spec 0 step); [|lia].
  destruct (Z.ltb_spec start stop); [|lia].
  destruct (Z.ltb_spec (start + step) stop).
  - replace (stop - start - 1) with ((stop - (start + step) - 1) + 1 * step) by lia.
    rewrite Z.div_add by lia. lia.
  - rewrite Z.div_small by lia. lia.
Qed.

Lemma range_len_nonneg start stop step : 0 < step -> 0 <= range_len start stop step.
Proof.
  intros Hs. unfold range_len.
  destruct (Z.ltb_spec 0 step); [|lia].
  destruct (Z.ltb_spec start stop); [|lia].
  assert (0 <= (stop - start - 1) / step) by (apply Z.div_pos; lia). lia.
Qed.

Lemma range_len_empty start stop step :
  0 < step -> stop <= start -> range_len start stop step = 0.
Proof.
  intros Hs Hle. unfold range_len.
  destruct (Z.ltb_spec 0 step); [|lia].
  destruct (Z.ltb_spec start stop); lia.
Qed.

Lemma blocks_of_S start end_ step k :
  blocks_of start end_ step (S k) =
  (start, Z.min (start + step) end_) :: blocks_of (start + step) end_ step k.
Proof.
  unfold blocks_of. cbn [seq map]. rewrite <- seq_shift, !map_map.
  f_equal; [f_equal; lia|].
  apply map_ext. intros a. f_equal; [|f_equal]; lia.
Qed.

Lemma prange_blocks start end_ step :
  step <> 0 ->
  prange start end_ step =
  inr (blocks_of start end_ step (Z.to_nat (range_len start end_ step))).
Proof.
  intros Hs. unfold prange, py_range.
  destruct (Z.eqb_spec step 0); [lia|]. reflexivity.
Qed.

Lemma blocks_of_tiling step end_ k : 0 < step ->
  forall start, start <= end_ ->
  Z.to_nat (range_len start end_ step) = k ->
  tiling step start end_ (blocks_of start end_ step k).
Proof.
  intros Hs. induction k as [|k IH]; intros start Hle Hk.
  - assert (start = end_) as ->.
    { destruct (Z.eq_dec start end_); [done|].
      rewrite range_len_step in Hk by lia.
      pose proof (range_len_nonneg (start + step) end_ step Hs). lia. }
    constructor.
  - assert (start < end_) as Hlt.
    { destruct (Z.lt_ge_cases start end_); [done|].
      rewrite range_len_empty in Hk by lia. discriminate. }
    rewrite blocks_of_S. rewrite range_len_step in Hk by lia.
    pose proof (range_len_nonneg (start + step) end_ step Hs).
    destruct (Z.le_gt_cases (start + step) end_).
    + rewrite Z.min_l by lia. constructor; try lia.
      apply IH; lia.
    + rewrite Z.min_r by lia.
      assert (k = 0%nat) as ->.
      { rewrite range_len_empty in Hk by lia. lia. }
      constructor; try lia. constructor.
Qed.

Lemma interval_cons a b : a < b -> interval a b = a :: interval (a + 1) b.
Proof.
  intros H. unfold interval.
  replace (Z.to_nat (b - a)) with (S (Z.to_nat (b - (a + 1)))) by lia.
  cbn [seq map]. rewrite <- seq_shift, map_map. f_equal; [lia|].
  apply map_ext. intros; lia.
Qed.

Lemma interval_nil a b : b <= a -> interval a b = [].
Proof. intros H. unfold interval. replace (Z.to_nat (b - a)) with 0%nat by lia. done. Qed.

Lemma interval_app a b c : a <= b -> b <= c -> interval a c = interval a b ++ interval b c.
Proof.
  intros Hab Hbc. remember (Z.to_nat (b - a)) as n eqn:Hn.
  revert a Hab Hn. induction n as [|n IH]; intros a Hab Hn.
  - assert (a = b) as -> by lia. rewrite (interval_nil b b) by lia. done.
  - rewrite (interval_cons a c), (interval_cons a b) by lia.
    cbn [app]. f_equal. apply IH; lia.
Qed.

Lemma tiling_cover step a e bs :
  tiling step a e bs ->
  a <= e /\ concat (map (fun b => interval (fst b) (snd b)) bs) = interval a e.
Proof.
  induction 1 as [a|a b e bs Hab Hlen Hb Ht [Hle IH]].
  - split; [lia|]. rewrite interval_nil by lia. done.
  - split; [lia|]. cbn [map concat fst snd]. rewrite IH.
    symmetry. apply interval_app; lia.
Qed.

Lemma blocks_of_last step end_ k : 0 < step ->
  forall start, start < end_ ->
  Z.to_nat (range_len start end_ step) = k ->
  Forall (fun b => snd b - fst b = step) (removelast (blocks_of start end_ step k)) /\
  exists b0, List.last (blocks_of start end_ step k) (0, 0) = (b0, end_) /\
             end_ - b0 = last_len start end_ step.
Proof.
  intros Hs. induction k as [|k IH]; intros start Hlt Hk.
  - rewrite range_len_step in Hk by lia.
    pose proof (range_len_nonneg (start + step) end_ step Hs). lia.
  - rewrite blocks_of_S. rewrite range_len_step in Hk by lia.
    pose proof (range_len_nonneg (start + step) end_ step Hs).
    destruct (Z.lt_ge_cases (start + step) end_) as [Hin|Hout].
    + destruct (IH (start + step)) as [Hall (b0 & Hlast & Hlen)]; [lia|lia|].
      destruct (blocks_of (start + step) end_ step k) as [|b bs] eqn:Hbs.
      { cbn in Hlast. injection Hlast as Hb He. unfold last_len in Hlen.
        pose proof (Z.mod_pos_bound (end_ - (start + step)) step Hs).
        destruct (Z.eqb_spec ((end_ - (start + step)) mod step) 0); lia. }
      split.
      * cbn [removelast]. constructor; [cbn; lia|exact Hall].
      * exists b0. split; [exact Hlast|]. rewrite Hlen. unfold last_len.
        replace (end_ - start) with ((end_ - (start + step)) + 1 * step) by lia.
        rewrite Z.mod_add by lia. done.
    + assert (k = 0%nat) as ->.
      { rewrite range_len_empty in Hk by lia. lia. }
      cbn. split; [constructor|]. exists start. split.
      * f_equal. lia.
      * unfold last_len. destruct (Z.eq_dec (end_ - start) step) as [->|Hne].
        -- rewrite Z.mod_same by lia. done.
        -- rewrite Z.mod_small by lia.
           destruct (Z.eqb_spec (end_ - start) 0); lia.
Qed.

Lemma tiling_In step a e bs b :
  tiling step a e bs -> In b bs -> a <= fst b /\ fst b < snd b /\ snd b <= e.
Proof.
  induction 1 as [a|a b' e bs Hab Hlen Hb Ht IH]; intros Hin; [done|].
  destruct (tiling_cover _ _ _ _ Ht) as [Hle _].
  destruct Hin as [<-|Hin]; cbn [fst snd]; [lia|].
  specialize (IH Hin). lia.
Qed.

Lemma prange_aux_blocks n : prange 0 n BLOCKDIM = inr (aux_blocks n).
Proof. by apply prange_blocks. Qed.

Lemma aux_blocks_tiling n : 0 <= n -> tiling BLOCKDIM 0 n (aux_blocks n).
Proof. intros Hn. by apply blocks_of_tiling. Qed.

(** C8.  For a positive step and [start <= end], [prange] yields blocks
    [(b0, b1)] that are non-empty, of length at most [step], each starting
    where the previous one ended, the first at [start] and the last ending
    at [end]; every block ends at [min(b0 + step, end)]; laid end to end the
    blocks enumerate the integers of [[start, end)] once each, in order; all
    blocks but the last have length [step]; when [end - start] is not a
    multiple of [step] the last block is the shorter remainder.  When
    [start >= end] nothing is yielded. *)
Theorem prange_partition start end_ step :
  0 < step ->
  (start <= end_ ->
   exists bs,
     prange start end_ step = inr bs /\
     tiling step start end_ bs /\
     concat (map (fun b => interval (fst b) (snd b)) bs) = interval start end_ /\
     Forall (fun b => snd b - fst b = step) (removelast bs) /\
     ((end_ - start) mod step <> 0 ->
      exists b0, List.last bs (0, 0) = (b0, end_) /\
                 end_ = Z.min (b0 + step) end_ /\
                 end_ - b0 = (end_ - start) mod step)) /\
  (end_ <= start -> prange start end_ step = inr []).
Proof.
  intros Hs. split.
  - intros Hle. eexists. split; [apply prange_blocks; lia|].
    pose proof (blocks_of_tiling step end_ _ Hs start Hle eq_refl) as Ht.
    split; [exact Ht|]. split; [apply (tiling_cover _ _ _ _ Ht)|].
    destruct (Z.eq_dec start end_) as [->|Hne].
    + rewrite range_len_empty by lia. cbn. split; [constructor|].
      rewrite Z.sub_diag, Z.mod_0_l by lia. done.
    + destruct (blocks_of_last step end_ _ Hs start ltac:(lia) eq_refl)
        as [Hall (b0 & Hlast & Hlen)].
      split; [exact Hall|]. intros Hmod. exists b0. split; [exact Hlast|].
      unfold last_len in Hlen. destruct (Z.eqb_spec ((end_ - start) mod step) 0); [done|].
      pose proof (Z.mod_pos_bound (end_ - start) step Hs). lia.
  - intros Hge. rewrite prange_blocks by lia.
    rewrite range_len_empty by lia. done.
Qed.

Example prange_0_5_2 : prange 0 5 2 = inr [(0, 2); (2, 4); (4, 5)].
Proof. reflexivity. Qed.

Example aux_blocks_161 : aux_blocks 161 = [(0, 160); (160, 161)].
Proof. reflexivity. Qed.

#[local] Close Scope Z_scope.

(* ================================================================= *)
(** ** One block of the contraction loop *)

Lemma rect_block_rows cderi N c b :
  rect N c (factor_rows cderi) -> In b (aux_blocks (Z.of_nat N)) ->
  (0 < Z.to_nat (snd b - fst b))%nat /\
  rect (Z.to_nat (snd b - fst b)) c (block_rows cderi b).
Proof.
  intros [Hl Hrows] Hin.
  destruct (tiling_In _ _ _ _ _ (aux_blocks_tiling (Z.of_nat N) ltac:(lia)) Hin)
    as (H0 & Hlt & Hle).
  split; [lia|]. unfold block_rows. split.
  - rewrite length_take, length_drop. lia.
  - by apply Forall_take, Forall_drop.
Qed.

#[local] Close Scope Z_scope.

Lemma length_mv m v : length (mv m v) = nrows m.
Proof. apply length_map. Qed.

Lemma length_vm v m : length (vm v m) = ncols m.
Proof. unfold vm. by rewrite length_map, length_seq. Qed.

Lemma rect_mm a b : rect (nrows a) (ncols b) (mm a b).
Proof.
  unfold mm. split; [apply length_map|]. apply Forall_map, Forall_forall.
  intros row _. cbn. apply length_vm.
Qed.

Lemma rect_transpose m : rect (ncols m) (nrows m) (transpose m).
Proof. apply rect_tabulate. Qed.

Lemma dot3_ok nb c eri1 t :
  rect nb c eri1 -> 0 < nb -> length t = c ->
  dot3 eri1 t = inr (vm (mv eri1 t) eri1).
Proof.
  intros He Hnb Ht. unfold dot3, dot_mv, dot_vm.
  rewrite (rect_ncols _ _ _ He Hnb), Ht, Nat.eqb_refl, length_mv, Nat.eqb_refl.
  done.
Qed.

Lemma rect_j_block nb nao eri1 t :
  rect nb (tri nao) eri1 -> 0 < nb -> rect nao nao (j_block eri1 t).
Proof.
  intros He Hnb. unfold j_block, unpack_tril.
  rewrite length_vm, (rect_ncols _ _ _ He Hnb), tril_dim_tri.
  apply rect_tabulate.
Qed.

Lemma rect_concat r c (t : list matrix) :
  Forall (rect r c) t -> rect (length t * r) c (concat t).
Proof.
  induction 1 as [|m t [Hl Hrows] Ht [IHl IHrows]]; [by split|].
  cbn [concat length]. split.
  - rewrite length_app. lia.
  - by apply Forall_app.
Qed.

Lemma rect_drv fmmm r c nb nao eri1 :
  (forall L, rect r c (fmmm L)) -> length eri1 = nb ->
  rect (nb * r) c (reshape_rows (AO2MOnr_e2_drv fmmm nb nao eri1)).
Proof.
  intros Hf Hnb. unfold reshape_rows, AO2MOnr_e2_drv.
  rewrite firstn_all2 by lia.
  replace nb with (length (map (fun row => fmmm (unpack_sym nao row)) eri1))
    by (by rewrite length_map).
  apply rect_concat, Forall_map, Forall_forall. intros row _. apply Hf.
Qed.

Lemma rect_half_buf nao eri1 coef :
  rect (length eri1 * ncols coef) nao (half_buf nao eri1 coef).
Proof. apply rect_drv; [|done]. intros L. apply rect_tabulate. Qed.

Lemma dot_mm_T nao r B B1 :
  rect r nao B -> rect r nao B1 -> 0 < nao -> 0 < r ->
  dot_mm (transpose B) B1 = inr (mm (transpose B) B1) /\
  rect nao nao (mm (transpose B) B1).
Proof.
  intros HB HB1 Hnao Hr. unfold dot_mm.
  pose proof (rect_transpose B) as HT.
  rewrite (rect_ncols _ _ _ HB Hr), (rect_nrows _ _ _ HB) in HT.
  rewrite (rect_ncols _ _ _ HT Hnao), (rect_nrows _ _ _ HB1), Nat.eqb_refl.
  split; [done|].
  pose proof (rect_mm (transpose B) B1) as Hmm.
  by rewrite (rect_nrows _ _ _ HT), (rect_ncols _ _ _ HB1 Hr) in Hmm.
Qed.

Lemma rect_k_step op nao eri1 coef K :
  (forall a x, rect nao nao a -> rect nao nao (op a x)) ->
  rect nao nao K -> rect nao nao (k_step op nao eri1 coef K).
Proof.
  intros Hop HK. unfold k_step. destruct (0 <? ncols coef); [|done]. by apply Hop.
Qed.

Lemma wp_load_buf cderi b0 c Q st :
  Q (block_rows cderi (b0, (b0 + c)%Z))
    (mkState (heap st) (loads st ++ [(b0, c)])) ->
  wp (load_buf cderi b0 c) Q st.
Proof.
  intros HQ. unfold load_buf. apply wp_bind. unfold wp at 1. cbn.
  unfold block_rows in HQ. cbn [fst snd] in HQ.
  by replace (b0 + c - b0)%Z with c in HQ by lia.
Qed.

Lemma wp_iadd l f a x m Q st :
  heap st !! l = Some (Arr2 f a) -> np_iadd a x = inr m ->
  Q tt (mkState (<[l := Arr2 f m]> (heap st)) (loads st)) ->
  wp (iadd l x) Q st.
Proof.
  intros Hl Hm HQ. unfold iadd. apply wp_bind. eapply wp_read2; [exact Hl|].
  apply wp_bind. eapply wp_lift; [exact Hm|]. by apply wp_write.
Qed.

Lemma wp_isub l f a x m Q st :
  heap st !! l = Some (Arr2 f a) -> np_isub a x = inr m ->
  Q tt (mkState (<[l := Arr2 f m]> (heap st)) (loads st)) ->
  wp (isub l x) Q st.
Proof.
  intros Hl Hm HQ. unfold isub. apply wp_bind. eapply wp_read2; [exact Hl|].
  apply wp_bind. eapply wp_lift; [exact Hm|]. by apply wp_write.
Qed.

(** One exchange branch: [acc] is [iadd] or [isub] and [op] the matching
    array operation. *)
Lemma wp_k_branch acc op nao vk f K eri1 b0 b1 coef Q st :
  (forall x Q' st',
     heap st' !! vk = Some (Arr2 f K) -> rect nao nao x ->
     Q' tt (mkState (<[vk := Arr2 f (op K x)]> (heap st')) (loads st')) ->
     wp (acc vk x) Q' st') ->
  heap st !! vk = Some (Arr2 f K) ->
  0 < nao ->
  length eri1 = Z.to_nat (b1 - b0) -> 0 < length eri1 ->
  (forall st',
     heap st' !! vk = Some (Arr2 f (k_step op nao eri1 coef K)) ->
     (forall l, l < length (heap st) -> l <> vk -> heap st' !! l = heap st !! l) ->
     length (heap st) <= length (heap st') ->
     loads st' = loads st ->
     Q tt st') ->
  wp (k_branch nao acc vk eri1 b0 b1 coef) Q st.
Proof.
  intros Hacc Hvk Hnao Hnb Hpos HQ. unfold k_branch.
  specialize (HQ) as HQ'. unfold k_step in HQ'.
  destruct (Nat.ltb_spec 0 (ncols coef)) as [Hc|Hc].
  - assert (vk < length (heap st)) as Hlt by (by eapply lookup_lt_Some).
    apply wp_bind. apply wp_alloc.
    apply wp_bind. apply wp_write. cbn [heap loads].
    rewrite insert_snoc.
    apply wp_bind. eapply wp_read2; [cbn; by apply list_lookup_middle|].
    cbn [snd]. rewrite <- Hnb. fold (half_buf nao eri1 coef).
    pose proof (rect_half_buf nao eri1 coef) as HB.
    destruct (dot_mm_T nao _ _ _ HB HB Hnao ltac:(nia)) as [Hdot Hrect].
    apply wp_bind. eapply wp_lift; [exact Hdot|]. fold (k_half nao eri1 coef).
    eapply Hacc.
    + cbn. rewrite lookup_app_l by done. exact Hvk.
    + exact Hrect.
    + apply HQ'; cbn [heap loads].
      * rewrite list_lookup_insert_eq by (rewrite length_app; lia). done.
      * intros l Hl Hne. rewrite list_lookup_insert_ne by done.
        by rewrite lookup_app_l.
      * rewrite length_insert, length_app. lia.
      * done.
  - apply wp_ret. apply HQ'; try done.
Qed.

Lemma wp_iadd_sq nao l f a x Q st :
  heap st !! l = Some (Arr2 f a) -> rect nao nao a -> rect nao nao x ->
  Q tt (mkState (<[l := Arr2 f (madd a x)]> (heap st)) (loads st)) ->
  wp (iadd l x) Q st.
Proof.
  intros Hl Ha Hx HQ. eapply wp_iadd; [exact Hl|by apply (np_iadd_sq nao)|done].
Qed.

Lemma wp_isub_sq nao l f a x Q st :
  heap st !! l = Some (Arr2 f a) -> rect nao nao a -> rect nao nao x ->
  Q tt (mkState (<[l := Arr2 f (msub a x)]> (heap st)) (loads st)) ->
  wp (isub l x) Q st.
Proof.
  intros Hl Ha Hx HQ. eapply wp_isub; [exact Hl|by apply (np_isub_sq nao)|done].
Qed.

Lemma wp_block_sym cderi nao N dmtril vj vk f t J K cpos cneg b st :
  rect N (tri nao) (factor_rows cderi) -> In b (aux_blocks (Z.of_nat N)) ->
  0 < nao -> length t = tri nao -> rect nao nao J -> rect nao nao K ->
  heap st !! dmtril = Some (Arr1 t) ->
  heap st !! vj = Some (Arr2 f J) ->
  heap st !! vk = Some (Arr2 f K) ->
  vj <> vk ->
  wp (block_sym cderi nao dmtril vj vk cpos cneg b)
     (fun _ => block_post st vj vk f
        (madd J (j_block (block_rows cderi b) t))
        (k_step msub nao (block_rows cderi b) cneg
           (k_step madd nao (block_rows cderi b) cpos K))
        (loads st ++ [(fst b, (snd b - fst b)%Z)])) st.
Proof.
  intros Hcd Hin Hnao Ht HJ HK Hdm Hvj Hvk Hne.
  destruct (rect_block_rows _ _ _ _ Hcd Hin) as [Hnb He].
  destruct b as [b0 b1]. cbn [fst snd] in *. unfold block_sym.
  assert (vj < length (heap st)) as Hvjlt by (by eapply lookup_lt_Some).
  assert (vk < length (heap st)) as Hvklt by (by eapply lookup_lt_Some).
  apply wp_bind. apply wp_load_buf.
  replace (b0 + (b1 - b0))%Z with b1 by lia.
  set (eri1 := block_rows cderi (b0, b1)) in *.
  apply wp_bind. eapply wp_read1; [exact Hdm|].
  apply wp_bind. eapply wp_lift; [by apply (dot3_ok _ _ _ _ He Hnb)|].
  fold (j_block eri1 t).
  apply wp_bind. eapply (wp_iadd_sq nao); [exact Hvj|exact HJ| |].
  { by apply (rect_j_block _ _ _ _ He Hnb). }
  cbn [heap loads].
  assert (length eri1 = Z.to_nat (b1 - b0)) as Hlen by apply He.
  apply wp_bind.
  eapply (wp_k_branch iadd madd nao vk f K); cbn [heap loads].
  { intros x Q' st' Hl Hx HQ'. by eapply (wp_iadd_sq nao). }
  { by rewrite list_lookup_insert_ne. }
  { done. } { done. } { lia. }
  intros st1 Hvk1 Hoth1 Hlen1 Hld1. rewrite length_insert in Hoth1, Hlen1.
  eapply (wp_k_branch isub msub nao vk f).
  { intros x Q' st' Hl Hx HQ'. eapply (wp_isub_sq nao); [exact Hl| |done|done].
    apply rect_k_step; [|done]. intros; by apply rect_madd. }
  { exact Hvk1. }
  { done. } { done. } { lia. }
  intros st2 Hvk2 Hoth2 Hlen2 Hld2.
  split; [|split; [done|split; [|split; [lia|congruence]]]].
  - rewrite Hoth2, Hoth1 by (done || lia).
    by apply list_lookup_insert_eq.
  - intros l Hl Hl1 Hl2. rewrite Hoth2, Hoth1 by (done || lia).
    by apply list_lookup_insert_ne.
Qed.

Lemma wp_block_gen cderi nao N dmtril vj vk dmF f fd t a J K b st :
  rect N (tri nao) (factor_rows cderi) -> In b (aux_blocks (Z.of_nat N)) ->
  0 < nao -> length t = tri nao -> rect nao nao J -> rect nao nao K ->
  heap st !! dmtril = Some (Arr1 t) ->
  heap st !! vj = Some (Arr2 f J) ->
  heap st !! vk = Some (Arr2 f K) ->
  heap st !! dmF = Some (Arr2 fd a) ->
  vj <> vk -> dmF <> vj -> dmF <> vk ->
  wp (block_gen cderi nao dmtril vj vk dmF b)
     (fun _ => block_post st vj vk f
        (madd J (j_block (block_rows cderi b) t))
        (madd K (k_gen_block nao (block_rows cderi b) a))
        (loads st ++ [(fst b, (snd b - fst b)%Z)])) st.
Proof.
  intros Hcd Hin Hnao Ht HJ HK Hdm Hvj Hvk HdmF Hne Hne1 Hne2.
  destruct (rect_block_rows _ _ _ _ Hcd Hin) as [Hnb He].
  destruct b as [b0 b1]. cbn [fst snd] in *. unfold block_gen.
  assert (vj < length (heap st)) as Hvjlt by (by eapply lookup_lt_Some).
  assert (vk < length (heap st)) as Hvklt by (by eapply lookup_lt_Some).
  assert (dmF < length (heap st)) as Hdlt by (by eapply lookup_lt_Some).
  apply wp_bind. apply wp_load_buf.
  replace (b0 + (b1 - b0))%Z with b1 by lia.
  set (eri1 := block_rows cderi (b0, b1)) in *.
  assert (length eri1 = Z.to_nat (b1 - b0)) as Hlen by apply He.
  rewrite <- Hlen.
  apply wp_bind. eapply wp_read1; [exact Hdm|].
  apply wp_bind. eapply wp_lift; [by apply (dot3_ok _ _ _ _ He Hnb)|].
  fold (j_block eri1 t).
  apply wp_bind. eapply (wp_iadd_sq nao); [exact Hvj|exact HJ| |].
  { by apply (rect_j_block _ _ _ _ He Hnb). }
  cbn [heap loads].
  set (h1 := <[vj := Arr2 f (madd J (j_block eri1 t))]> (heap st)).
  assert (length h1 = length (heap st)) as Hh1 by apply length_insert.
  apply wp_bind. apply wp_alloc. cbn [heap loads].
  apply wp_bind. eapply wp_read2.
  { cbn. rewrite lookup_app_l by lia. subst h1.
    rewrite list_lookup_insert_ne by done. exact HdmF. }
  cbn [snd heap loads].
  apply wp_bind. apply wp_write. cbn [heap loads]. rewrite insert_snoc.
  apply wp_bind. apply wp_alloc. cbn [heap loads].
  apply wp_bind. apply wp_write. cbn [heap loads]. rewrite insert_snoc.
  apply wp_bind. eapply wp_read3.
  { cbn. rewrite lookup_app_l by (rewrite length_app; cbn; lia).
    by apply list_lookup_middle. }
  apply wp_bind. eapply wp_read3; [cbn; by apply list_lookup_middle|].
  set (B := reshape_rows (AO2MOnr_e2_drv
               (fun L => RIhalfmmm_nr_s2_bra nao nao L a) (length eri1) nao eri1)).
  set (B1 := reshape_rows (AO2MOnr_e2_drv (RImmm_nr_s2_copy nao)
                (length eri1) nao eri1)).
  assert (rect (length eri1 * nao) nao B) as HB
    by (apply rect_drv; [intros; apply rect_tabulate|done]).
  assert (rect (length eri1 * nao) nao B1) as HB1
    by (apply rect_drv; [intros; apply rect_tabulate|done]).
  destruct (dot_mm_T nao _ _ _ HB HB1 Hnao ltac:(nia)) as [Hdot Hrect].
  apply wp_bind. eapply wp_lift; [exact Hdot|].
  fold (k_gen_block nao eri1 a) in *.
  eapply (wp_iadd_sq nao); [|exact HK|exact Hrect|].
  { cbn. rewrite !lookup_app_l by (rewrite ?length_app; cbn; lia).
    subst h1. rewrite list_lookup_insert_ne by done. exact Hvk. }
  cbn [heap loads].
  split; [|split; [|split; [|split; [|done]]]]; cbn [heap loads].
  - rewrite list_lookup_insert_ne by lia.
    rewrite !lookup_app_l by (rewrite ?length_app; cbn; lia).
    subst h1. by apply list_lookup_insert_eq.
  - apply list_lookup_insert_eq. rewrite !length_app. lia.
  - intros l Hl Hl1 Hl2. rewrite list_lookup_insert_ne by lia.
    rewrite !lookup_app_l by (rewrite ?length_app; cbn; lia).
    subst h1. apply list_lookup_insert_ne. lia.
  - rewrite length_insert, !length_app. lia.
Qed.

(* ================================================================= *)
(** ** The block loops and [fjk] on well-shaped input *)

Lemma block_post_trans st st1 st2 vj vk f J K L J' K' L' :
  block_post st vj vk f J K L st1 ->
  block_post st1 vj vk f J' K' L' st2 ->
  block_post st vj vk f J' K' L' st2.
Proof.
  intros (_ & _ & Ho1 & Hl1 & _) (Hj & Hk & Ho2 & Hl2 & Hld).
  split; [done|]. split; [done|]. split; [|split; [lia|done]].
  intros l Hl Hlj Hlk. rewrite Ho2 by (lia || done). by apply Ho1.
Qed.

(** A loop over blocks whose body advances [J] and [K] by [stepJ] and
    [stepK] and leaves the objects listed in [keep] alone. *)
Lemma wp_block_loop (body : Z * Z -> M unit) stepJ stepK nao vj vk f
      (keep : list (loc * ndarray)) blocks J0 K0 st :
  (forall J b, rect nao nao J -> rect nao nao (stepJ J b)) ->
  (forall K b, rect nao nao K -> rect nao nao (stepK K b)) ->
  (forall b J K st',
     In b blocks -> rect nao nao J -> rect nao nao K ->
     Forall (fun p => heap st' !! fst p = Some (snd p)) keep ->
     heap st' !! vj = Some (Arr2 f J) -> heap st' !! vk = Some (Arr2 f K) ->
     wp (body b)
        (fun _ => block_post st' vj vk f (stepJ J b) (stepK K b)
                    (loads st' ++ [(fst b, (snd b - fst b)%Z)])) st') ->
  rect nao nao J0 -> rect nao nao K0 ->
  Forall (fun p => heap st !! fst p = Some (snd p) /\ fst p <> vj /\ fst p <> vk) keep ->
  heap st !! vj = Some (Arr2 f J0) -> heap st !! vk = Some (Arr2 f K0) ->
  wp (for_each blocks body)
     (fun _ => block_post st vj vk f
                 (fold_left stepJ blocks J0) (fold_left stepK blocks K0)
                 (loads st ++ map (fun b => (fst b, (snd b - fst b)%Z)) blocks)) st.
Proof.
  intros HsJ HsK Hbody HJ0 HK0 Hkeep Hvj Hvk.
  pose (I := fun (d : list (Z * Z)) st' =>
    block_post st vj vk f (fold_left stepJ d J0) (fold_left stepK d K0)
      (loads st ++ map (fun b => (fst b, (snd b - fst b)%Z)) d) st' /\
    rect nao nao (fold_left stepJ d J0) /\ rect nao nao (fold_left stepK d K0)).
  eapply wp_mono.
  - apply (wp_for_each body I blocks []).
    + subst I. cbn. rewrite app_nil_r.
      split; [|by split]. split; [done|]. split; [done|].
      split; [intros; reflexivity|].
      split; [lia|done].
    + intros d x st' Hx (Hpost & HJ & HK).
      destruct Hpost as (Hj & Hk & Ho & Hl & Hld).
      eapply wp_mono.
      * apply (Hbody x _ _ st' Hx HJ HK); [|done|done].
        apply Forall_forall. intros [l v] Hin. cbn.
        rewrite Forall_forall in Hkeep.
        destruct (Hkeep _ Hin) as (Hlv & Hn1 & Hn2). cbn in *.
        rewrite Ho; [done| |done|done]. by eapply lookup_lt_Some.
      * intros [] st'' Hpost'. subst I. cbn beta.
        rewrite !fold_left_app, map_app. cbn [fold_left map].
        split; [|split; [by apply HsJ|by apply HsK]].
        eapply block_post_trans;
          [exact (conj Hj (conj Hk (conj Ho (conj Hl Hld))))|].
        rewrite Hld, <- app_assoc in Hpost'. exact Hpost'.
  - intros [] st' (Hpost & _). exact Hpost.
Qed.

Lemma eigh_call_ok nao a s ec :
  rect nao nao a -> rect nao nao s -> eigh a s = Some ec ->
  eigh_call a s = inr ec.
Proof.
  intros Ha Hs He. unfold eigh_call.
  rewrite (rect_nrows _ _ _ Ha), (rect_ncols_sq _ _ Ha), Nat.eqb_refl,
    (shape_eqb_sq nao) by done.
  cbn. by rewrite He.
Qed.

Lemma rect_stepJ cderi N nao t J b :
  rect N (tri nao) (factor_rows cderi) ->
  rect nao nao J -> rect nao nao (madd J (j_block (block_rows cderi b) t)).
Proof. intros _ HJ. by apply rect_madd. Qed.

(** [fjk] on the symmetric path. *)
Lemma fjk_sym_ok cderi s nao N dm f a e c st :
  well_shaped cderi s nao N ->
  heap st !! dm = Some (Arr2 f a) -> rect nao nao a ->
  eigh a s = Some (e, c) ->
  wp (fjk cderi s nao (Some (Z.of_nat N)) 1 dm)
     (fun r st' =>
        r = (S (length (heap st)), S (S (length (heap st)))) /\
        heap st' !! fst r = Some (Arr2 f (J_sym cderi (Z.of_nat N) nao a e)) /\
        heap st' !! snd r = Some (Arr2 f (K_sym_val cderi (Z.of_nat N) nao c e)) /\
        loads st' =
          loads st ++ (if retained e then block_loads (Z.of_nat N) else [])) st.
Proof.
  intros (Hnao & Hs & Hcd) Hdm Ha He.
  unfold fjk. apply wp_bind.
  eapply wp_pack_density; [exact Hdm|exact Ha|].
  set (t := dmtril_val nao a).
  assert (dm < length (heap st)) as Hdmlt by (by eapply lookup_lt_Some).
  unfold fjk_from.
  apply wp_bind. eapply wp_read2; [cbn; rewrite lookup_app_l by done; exact Hdm|].
  cbn [fst snd]. rewrite (zeros_like_rect nao nao) by (done || lia).
  apply wp_bind. apply wp_alloc. cbn [heap loads].
  apply wp_bind. apply wp_alloc. cbn [heap loads].
  rewrite !length_app. cbn [length].
  replace (length (heap st) + 1) with (S (length (heap st))) by lia.
  replace (S (length (heap st)) + 1) with (S (S (length (heap st)))) by lia.
  set (h := (heap st ++ [Arr1 t]) ++ [Arr2 f (zeros nao nao)]).
  set (h' := h ++ [Arr2 f (zeros nao nao)]).
  assert (length h = S (S (length (heap st)))) as Hlh
    by (subst h; rewrite !length_app; cbn; lia).
  assert (h' !! length (heap st) = Some (Arr1 t)) as Hdt.
  { subst h' h. rewrite !lookup_app_l by (rewrite ?length_app; cbn; lia).
    by apply list_lookup_middle. }
  assert (h' !! S (length (heap st)) = Some (Arr2 f (zeros nao nao))) as Hvj.
  { subst h' h. rewrite lookup_app_l by (rewrite ?length_app; cbn; lia).
    apply list_lookup_middle. rewrite length_app. cbn. lia. }
  assert (h' !! S (S (length (heap st))) = Some (Arr2 f (zeros nao nao))) as Hvk.
  { subst h'. by apply list_lookup_middle. }
  apply wp_bind. cbn [Z.eqb Pos.eqb].
  apply wp_bind. eapply wp_lift; [by apply (eigh_call_ok nao)|]. cbn [fst snd].
  unfold J_sym, K_sym_val. fold (retained e).
  destruct (retained e).
  - apply wp_bind. eapply wp_getattr; [done|].
    apply wp_bind. eapply wp_lift; [apply prange_aux_blocks|].
    eapply wp_mono.
    + apply (wp_block_loop _
               (fun J b => madd J (j_block (block_rows cderi b) t))
               (fun K b => k_step msub nao (block_rows cderi b) (cneg_of c e)
                             (k_step madd nao (block_rows cderi b) (cpos_of c e) K))
               nao (S (length (heap st))) (S (S (length (heap st)))) f
               [(length (heap st), Arr1 t)]).
      * intros J b HJ. by apply rect_madd.
      * intros K b HK. apply rect_k_step; [intros; by apply rect_msub|].
        apply rect_k_step; [intros; by apply rect_madd|done].
      * intros b J K st' Hb HJ HK Hkeep Hj Hk.
        apply Forall_cons_1 in Hkeep as [Hd _]. cbn in Hd.
        eapply (wp_block_sym cderi nao N); try eassumption.
        -- apply length_dmtril_val.
        -- lia.
      * apply rect_zeros.
      * apply rect_zeros.
      * constructor; [|constructor]. cbn. split; [exact Hdt|lia].
      * exact Hvj.
      * exact Hvk.
    + intros [] st' (Hj & Hk & _ & _ & Hld). cbn [heap loads] in *.
      apply wp_ret. cbn [fst snd]. split; [done|]. split; [exact Hj|].
      split; [exact Hk|exact Hld].
  - apply wp_ret. apply wp_ret. cbn [fst snd heap loads].
    split; [done|]. split; [exact Hvj|]. split; [exact Hvk|].
    by rewrite app_nil_r.
Qed.

(** [fjk] on the general path. *)
Lemma fjk_gen_ok cderi s nao N hermi dm f a st :
  well_shaped cderi s nao N ->
  heap st !! dm = Some (Arr2 f a) -> rect nao nao a ->
  hermi <> 1%Z ->
  wp (fjk cderi s nao (Some (Z.of_nat N)) hermi dm)
     (fun r st' =>
        r = (S (length (heap st)), S (S (length (heap st)))) /\
        heap st' !! fst r =
          Some (Arr2 f (J_val cderi (Z.of_nat N) (dmtril_val nao a) (zeros nao nao))) /\
        heap st' !! snd r =
          Some (Arr2 f (K_gen cderi (Z.of_nat N) nao a (zeros nao nao))) /\
        loads st' = loads st ++ block_loads (Z.of_nat N)) st.
Proof.
  intros (Hnao & Hs & Hcd) Hdm Ha Hh.
  unfold fjk. apply wp_bind.
  eapply wp_pack_density; [exact Hdm|exact Ha|].
  set (t := dmtril_val nao a).
  assert (dm < length (heap st)) as Hdmlt by (by eapply lookup_lt_Some).
  unfold fjk_from.
  apply wp_bind. eapply wp_read2; [cbn; rewrite lookup_app_l by done; exact Hdm|].
  cbn [fst snd]. rewrite (zeros_like_rect nao nao) by (done || lia).
  apply wp_bind. apply wp_alloc. cbn [heap loads].
  apply wp_bind. apply wp_alloc. cbn [heap loads].
  rewrite !length_app. cbn [length].
  replace (length (heap st) + 1) with (S (length (heap st))) by lia.
  replace (S (length (heap st)) + 1) with (S (S (length (heap st)))) by lia.
  set (h := (heap st ++ [Arr1 t]) ++ [Arr2 f (zeros nao nao)]).
  set (h' := h ++ [Arr2 f (zeros nao nao)]).
  assert (length h' = S (S (S (length (heap st))))) as Hlh
    by (subst h' h; rewrite !length_app; cbn; lia).
  assert (h' !! length (heap st) = Some (Arr1 t)) as Hdt.
  { subst h' h. rewrite !lookup_app_l by (rewrite ?length_app; cbn; lia).
    by apply list_lookup_middle. }
  assert (h' !! S (length (heap st)) = Some (Arr2 f (zeros nao nao))) as Hvj.
  { subst h' h. rewrite lookup_app_l by (rewrite ?length_app; cbn; lia).
    apply list_lookup_middle. rewrite length_app. cbn. lia. }
  assert (h' !! S (S (length (heap st))) = Some (Arr2 f (zeros nao nao))) as Hvk.
  { subst h'. apply list_lookup_middle. subst h. rewrite !length_app. cbn. lia. }
  assert (h' !! dm = Some (Arr2 f a)) as Hdm'.
  { subst h' h. by rewrite !lookup_app_l by (rewrite ?length_app; cbn; lia). }
  apply wp_bind. destruct (Z.eqb_spec hermi 1) as [|_]; [done|].
  (* the loop, from any store that holds the Fortran-ordered density *)
  assert (forall dmF fd st2,
            heap st2 !! dmF = Some (Arr2 fd a) ->
            heap st2 !! length (heap st) = Some (Arr1 t) ->
            heap st2 !! S (length (heap st)) = Some (Arr2 f (zeros nao nao)) ->
            heap st2 !! S (S (length (heap st))) = Some (Arr2 f (zeros nao nao)) ->
            dmF <> S (length (heap st)) -> dmF <> S (S (length (heap st))) ->
            loads st2 = loads st ->
            wp (n <- getattr (Some (Z.of_nat N)) ;;
                blocks <- lift (prange 0 n BLOCKDIM) ;;
                for_each blocks
                  (block_gen cderi nao (length (heap st)) (S (length (heap st)))
                             (S (S (length (heap st)))) dmF))
               (fun _ st' =>
                  heap st' !! S (length (heap st)) =
                    Some (Arr2 f (J_val cderi (Z.of_nat N) t (zeros nao nao))) /\
                  heap st' !! S (S (length (heap st))) =
                    Some (Arr2 f (K_gen cderi (Z.of_nat N) nao a (zeros nao nao))) /\
                  loads st' = loads st ++ block_loads (Z.of_nat N)) st2) as Hloop.
  { intros dmF fd st2 HdF H1 H2 H3 Hn1 Hn2 Hld.
    apply wp_bind. eapply wp_getattr; [done|].
    apply wp_bind. eapply wp_lift; [apply prange_aux_blocks|].
    eapply wp_mono.
    + apply (wp_block_loop _
               (fun J b => madd J (j_block (block_rows cderi b) t))
               (fun K b => madd K (k_gen_block nao (block_rows cderi b) a))
               nao (S (length (heap st))) (S (S (length (heap st)))) f
               [(length (heap st), Arr1 t); (dmF, Arr2 fd a)]).
      * intros J b HJ. by apply rect_madd.
      * intros K b HK. by apply rect_madd.
      * intros b J K st' Hb HJ HK Hkeep Hj Hk.
        apply Forall_cons_1 in Hkeep as [Hd Hkeep]. cbn in Hd.
        apply Forall_cons_1 in Hkeep as [HdF' _]. cbn in HdF'.
        eapply (wp_block_gen cderi nao N); try eassumption.
        -- apply length_dmtril_val.
        -- lia.
      * apply rect_zeros.
      * apply rect_zeros.
      * constructor; [|constructor; [|constructor]]; cbn.
        -- split; [exact H1|lia].
        -- split; [exact HdF|split; done].
      * exact H2.
      * exact H3.
    + intros [] st' (Hj & Hk & _ & _ & Hld'). cbn beta.
      split; [exact Hj|]. split; [exact Hk|]. rewrite Hld', Hld. done. }
  apply wp_bind. unfold asfortranarray.
  apply wp_bind. eapply wp_read2; [exact Hdm'|]. cbn [fst snd].
  destruct f.
  - apply wp_ret. eapply wp_mono.
    + apply (Hloop dm true); cbn [heap loads]; try done; lia.
    + intros [] st' (Hj & Hk & Hld). apply wp_ret. cbn [fst snd]. done.
  - apply wp_alloc. cbn [heap loads]. eapply wp_mono.
    + apply (Hloop (length h') true); cbn [heap loads].
      * by apply list_lookup_middle.
      * rewrite lookup_app_l by lia. exact Hdt.
      * rewrite lookup_app_l by lia. exact Hvj.
      * rewrite lookup_app_l by lia. exact Hvk.
      * lia.
      * lia.
      * done.
    + intros [] st' (Hj & Hk & Hld). apply wp_ret. cbn [fst snd]. done.
Qed.

(** On well-shaped input [fjk] returns two new arrays that hold
    [fjk_val], and the objects that were in the store are as before. *)
Lemma fjk_ok cderi s nao N hermi dm f a J K st :
  well_shaped cderi s nao N ->
  heap st !! dm = Some (Arr2 f a) -> rect nao nao a ->
  fjk_val cderi s nao (Z.of_nat N) hermi a = Some (J, K) ->
  wp (fjk cderi s nao (Some (Z.of_nat N)) hermi dm)
     (fun r st' =>
        r = (S (length (heap st)), S (S (length (heap st)))) /\
        heap st' !! fst r = Some (Arr2 f J) /\
        heap st' !! snd r = Some (Arr2 f K) /\
        agree (length (heap st)) st st' /\
        loads st' = loads st ++ fjk_trace s (Z.of_nat N) hermi a) st.
Proof.
  intros Hws Hdm Ha Hval.
  destruct (local_fjk (length (heap st)) cderi s nao (Some (Z.of_nat N))
              hermi dm st) as [Hag _]; [lia|].
  unfold fjk_val in Hval. unfold fjk_trace.
  destruct (Z.eqb_spec hermi 1) as [->|Hh].
  - destruct (eigh a s) as [[e c]|] eqn:He; [|done]. injection Hval as <- <-.
    pose proof (fjk_sym_ok cderi s nao N dm f a e c st Hws Hdm Ha He) as H.
    unfold wp in *. destruct (fjk _ _ _ _ _ _ st) as [[x|r] st']; [done|].
    destruct H as (-> & Hj & Hk & Hld). done.
  - injection Hval as <- <-.
    pose proof (fjk_gen_ok cderi s nao N hermi dm f a st Hws Hdm Ha Hh) as H.
    unfold wp in *. destruct (fjk _ _ _ _ _ _ st) as [[x|r] st']; [done|].
    destruct H as (-> & Hj & Hk & Hld). done.
Qed.

(* ================================================================= *)
(** ** The Coulomb accumulation on the symmetric path *)

Lemma length_select_le {A} (l : list A) mask : length (select l mask) <= count_true mask.
Proof.
  revert mask. induction l as [|x l IH]; intros [|b mask]; cbn [select length];
    try (unfold count_true; cbn; lia).
  specialize (IH mask). unfold count_true in *. cbn [map list_sum].
  destruct b; cbn [length Nat.b2n]; unfold list_sum in *; cbn [fold_right]; lia.
Qed.

Lemma ncols_scaled_le c mask (w : vec) :
  length w <= count_true mask ->
  ncols (einsum_ij_j (select_cols c mask) w) <= count_true mask.
Proof.
  intros Hw. unfold einsum_ij_j, select_cols, ncols.
  destruct c as [|row c]; cbn [map]; [lia|].
  rewrite length_zip_with. lia.
Qed.

Lemma k_step_skip op nao eri1 c mask (w : vec) K :
  length w <= count_true mask -> count_true mask = 0 ->
  k_step op nao eri1 (einsum_ij_j (select_cols c mask) w) K = K.
Proof.
  intros Hw H0. unfold k_step.
  pose proof (ncols_scaled_le c mask w Hw) as Hle.
  destruct (Nat.ltb_spec 0 (ncols (einsum_ij_j (select_cols c mask) w))); [lia|done].
Qed.

Lemma retained_true e :
  retained e = true <-> 0 < count_true (pos_mask e) + count_true (neg_mask e).
Proof. unfold retained. apply Nat.ltb_lt. Qed.

(** C1, as the code has it.  On the symmetric path, when at least one
    eigenvalue is retained (positive or negative), every block of the
    auxiliary range is loaded once and its Coulomb contribution
    [unpack_tril(eri1 . dmtril . eri1)] is added to [J]; a coefficient set
    without columns only turns its own exchange branch into a no-op.  When
    no eigenvalue is retained the block loop is not entered: no block is
    loaded and [J] and [K] stay zero. *)
Theorem coulomb_accumulated cderi s nao N dm f a e c st :
  well_shaped cderi s nao N ->
  heap st !! dm = Some (Arr2 f a) -> rect nao nao a ->
  eigh a s = Some (e, c) ->
  let n := Z.of_nat N in
  let t := dmtril_val nao a in
  exists vj vk st',
    fjk cderi s nao (Some n) 1 dm st = (inr (vj, vk), st') /\
    (0 < count_true (pos_mask e) + count_true (neg_mask e) ->
     heap st' !! vj =
       Some (Arr2 f (fold_left
                       (fun J b =>
                          madd J (unpack_tril (vm (mv (block_rows cderi b) t)
                                                  (block_rows cderi b))))
                       (aux_blocks n) (zeros nao nao))) /\
     heap st' !! vk =
       Some (Arr2 f (K_sym cderi n nao (cpos_of c e) (cneg_of c e) (zeros nao nao))) /\
     loads st' = loads st ++ block_loads n) /\
    (count_true (pos_mask e) + count_true (neg_mask e) = 0 ->
     heap st' !! vj = Some (Arr2 f (zeros nao nao)) /\
     heap st' !! vk = Some (Arr2 f (zeros nao nao)) /\
     loads st' = loads st) /\
    (count_true (pos_mask e) = 0 ->
     forall eri1 K, k_step madd nao eri1 (cpos_of c e) K = K) /\
    (count_true (neg_mask e) = 0 ->
     forall eri1 K, k_step msub nao eri1 (cneg_of c e) K = K).
Proof.
  intros Hws Hdm Ha He n t.
  destruct (wp_run _ _ _ (fjk_sym_ok cderi s nao N dm f a e c st Hws Hdm Ha He))
    as ([vj vk] & st' & Hrun & _ & Hj & Hk & Hld).
  exists vj, vk, st'. cbn [fst snd] in *. split; [exact Hrun|].
  unfold J_sym, K_sym_val in *. split; [|split; [|split]].
  - intros Hret. apply retained_true in Hret. rewrite Hret in *. done.
  - intros H0. assert (retained e = false) as Hret.
    { destruct (retained e) eqn:E; [|done]. apply retained_true in E. lia. }
    rewrite Hret in *. rewrite app_nil_r in Hld. done.
  - intros H0 eri1 K. apply k_step_skip; [|done].
    rewrite length_map. apply length_select_le.
  - intros H0 eri1 K. apply k_step_skip; [|done].
    rewrite length_map. apply length_select_le.
Qed.

(* ================================================================= *)
(** ** A zero density *)

Lemma Qsum_zero l : vzero l -> (Qsum l == 0)%Q.
Proof.
  induction 1 as [|x l Hx Hl IH]; [done|]. cbn. rewrite Hx, IH. done.
Qed.

Lemma vdot_zero_l u v : vzero u -> (vdot u v == 0)%Q.
Proof.
  intros Hu. apply Qsum_zero. revert v.
  induction Hu as [|x u Hx Hu IH]; intros [|y v]; cbn; try constructor.
  - rewrite Hx. ring.
  - apply IH.
Qed.

Lemma vdot_zero_r u v : vzero v -> (vdot u v == 0)%Q.
Proof.
  intros Hv. apply Qsum_zero. revert u.
  induction Hv as [|y v Hy Hv IH]; intros [|x u]; cbn; try constructor.
  - rewrite Hy. ring.
  - apply IH.
Qed.

Lemma vzero_nth v k : vzero v -> (nth k v 0 == 0)%Q.
Proof.
  intros Hv. revert k. induction Hv as [|x v Hx Hv IH]; intros [|k]; cbn; try done.
Qed.

Lemma mzero_entry m i j : mzero m -> (entry m i j == 0)%Q.
Proof.
  intros Hm. unfold entry. apply vzero_nth.
  revert i. induction Hm as [|r m Hr Hm IH]; intros [|i]; cbn; try done; constructor.
Qed.

Lemma mzero_tabulate r c f :
  (forall i j, i < r -> j < c -> (f i j == 0)%Q) -> mzero (tabulate r c f).
Proof.
  intros Hf. unfold tabulate. apply Forall_map, Forall_forall. intros i Hi. cbn.
  apply Forall_map, Forall_forall. intros j Hj. cbn.
  apply elem_of_seq in Hi, Hj. apply Hf; lia.
Qed.

Lemma mzero_zeros r c : mzero (zeros r c).
Proof. apply mzero_tabulate. intros. reflexivity. Qed.

Lemma mzero_meq_zeros r c m : rect r c m -> mzero m -> meq m (zeros r c).
Proof.
  intros Hm Hz. rewrite (rect_tabulate_entry r c m Hm). unfold zeros, tabulate.
  apply Forall2_fmap, Forall_Forall2_diag, Forall_forall. intros i _.
  apply Forall2_fmap, Forall_Forall2_diag, Forall_forall. intros j _. cbn.
  by apply mzero_entry.
Qed.

Lemma mzero_madd a x : mzero a -> mzero x -> mzero (madd a x).
Proof.
  intros Ha Hx. apply mzero_tabulate. intros i j _ _.
  rewrite (mzero_entry a), (mzero_entry x) by done. ring.
Qed.

Lemma vzero_mv m t : vzero t -> vzero (mv m t).
Proof.
  intros Ht. unfold mv. apply Forall_map, Forall_forall. intros row _. cbn.
  by apply vdot_zero_r.
Qed.

Lemma vzero_vm w m : vzero w -> vzero (vm w m).
Proof.
  intros Hw. unfold vm. apply Forall_map, Forall_forall. intros j _. cbn.
  by apply vdot_zero_l.
Qed.

Lemma mzero_j_block eri1 t : vzero t -> mzero (j_block eri1 t).
Proof.
  intros Ht. unfold j_block, unpack_tril, unpack_sym.
  apply mzero_tabulate. intros i j _ _. apply vzero_nth.
  by apply vzero_vm, vzero_mv.
Qed.

Lemma vzero_pack_rows m : forall i, mzero m -> vzero (pack_rows i m).
Proof.
  induction m as [|row m IH]; intros i Hm; cbn [pack_rows]; [constructor|].
  apply Forall_cons_1 in Hm as [Hr Hm].
  apply Forall_app. split; [by apply Forall_take|by apply IH].
Qed.

Lemma vzero_halve_diag k t : vzero t -> vzero (halve_diag k t).
Proof.
  intros Ht. induction k as [|k IH]; [done|]. rewrite halve_diag_S.
  apply Forall_insert; [done|]. cbn. rewrite (vzero_nth _ _ IH). ring.
Qed.

Lemma vzero_dmtril_val n a : mzero a -> vzero (dmtril_val n a).
Proof.
  intros Ha. unfold dmtril_val. apply vzero_halve_diag, vzero_pack_rows.
  apply mzero_tabulate. intros i j _ _.
  rewrite !(mzero_entry a) by done. ring.
Qed.

Lemma mzero_J_val cderi n t J0 : vzero t -> mzero J0 -> mzero (J_val cderi n t J0).
Proof.
  intros Ht. unfold J_val. generalize (aux_blocks n). intros bs. revert J0.
  induction bs as [|b bs IH]; intros J0 HJ; cbn [fold_left]; [done|].
  apply IH. apply mzero_madd; [done|by apply mzero_j_block].
Qed.

Lemma mzero_mm a b : mzero a -> mzero (mm a b).
Proof.
  intros Ha. unfold mm. apply Forall_map.
  eapply Forall_impl; [exact Ha|]. cbn. intros row Hrow. by apply vzero_vm.
Qed.

Lemma mzero_transpose m : mzero m -> mzero (transpose m).
Proof.
  intros Hm. apply mzero_tabulate. intros i j _ _. by apply mzero_entry.
Qed.

Lemma mzero_concat (t : list matrix) : Forall mzero t -> mzero (concat t).
Proof.
  induction 1 as [|m t Hm Ht IH]; cbn [concat]; [constructor|].
  by apply Forall_app.
Qed.

Lemma mzero_k_gen_block nao eri1 a : mzero a -> mzero (k_gen_block nao eri1 a).
Proof.
  intros Ha. unfold k_gen_block. apply mzero_mm, mzero_transpose.
  apply mzero_concat. unfold AO2MOnr_e2_drv.
  apply Forall_map, Forall_forall. intros row _. cbn.
  apply mzero_tabulate. intros k i _ _. unfold sumn. apply Qsum_zero.
  apply Forall_map, Forall_forall. intros j _. cbn.
  rewrite (mzero_entry a) by done. ring.
Qed.

Lemma mzero_K_gen cderi n nao a K0 : mzero a -> mzero K0 -> mzero (K_gen cderi n nao a K0).
Proof.
  intros Ha. unfold K_gen. generalize (aux_blocks n). intros bs. revert K0.
  induction bs as [|b bs IH]; intros K0 HK; cbn [fold_left]; [done|].
  apply IH. apply mzero_madd; [done|by apply mzero_k_gen_block].
Qed.

Lemma rect_J_val cderi n nao t J0 :
  rect nao nao J0 -> rect nao nao (J_val cderi n t J0).
Proof.
  unfold J_val. generalize (aux_blocks n). intros bs. revert J0.
  induction bs as [|b bs IH]; intros J0 HJ; cbn [fold_left]; [done|].
  apply IH. by apply rect_madd.
Qed.

Lemma rect_K_gen cderi n nao a K0 :
  rect nao nao K0 -> rect nao nao (K_gen cderi n nao a K0).
Proof.
  unfold K_gen. generalize (aux_blocks n). intros bs. revert K0.
  induction bs as [|b bs IH]; intros K0 HK; cbn [fold_left]; [done|].
  apply IH. by apply rect_madd.
Qed.

Lemma count_true_cons b mask : count_true (b :: mask) = Nat.b2n b + count_true mask.
Proof. done. Qed.

Lemma count_true_zero_iff mask :
  count_true mask = 0 <-> Forall (fun b => b = false) mask.
Proof.
  induction mask as [|b mask IH]; [split; [constructor|done]|].
  rewrite count_true_cons, Forall_cons, <- IH.
  destruct b; cbn [Nat.b2n]; split.
  - lia.
  - intros [? _]. done.
  - intros H. split; [done|lia].
  - intros [_ H]. lia.
Qed.

Lemma retained_small e :
  Forall (fun x => Qabs x <= OCCDROP)%Q e -> retained e = false.
Proof.
  intros He.
  assert (count_true (pos_mask e) = 0 /\ count_true (neg_mask e) = 0) as [Hp Hn].
  { rewrite !count_true_zero_iff. unfold pos_mask, neg_mask.
    split; apply Forall_map; (eapply Forall_impl; [exact He|]); cbn; intros x Hx;
      apply Qabs_Qle_condition in Hx as [Hlo Hhi].
    - destruct (Qltb OCCDROP x) eqn:E; [|done]. apply Qltb_lt in E.
      exfalso. by apply (Qlt_not_le _ _ E).
    - destruct (Qltb x (- OCCDROP)) eqn:E; [|done]. apply Qltb_lt in E.
      exfalso. by apply (Qlt_not_le _ _ E). }
  unfold retained. rewrite Hp, Hn. done.
Qed.

(** C9.  For the zero density matrix, [J] and [K] are zero on both paths:
    on the symmetric path (the eigenvalues of the zero matrix are within the
    drop threshold) nothing is accumulated, and on the general path every
    block contributes zero. *)
Theorem zero_density cderi s nao N dm f st :
  well_shaped cderi s nao N ->
  heap st !! dm = Some (Arr2 f (zeros nao nao)) ->
  (forall e c,
     eigh (zeros nao nao) s = Some (e, c) ->
     Forall (fun x => Qabs x <= OCCDROP)%Q e ->
     exists vj vk st',
       fjk cderi s nao (Some (Z.of_nat N)) 1 dm st = (inr (vj, vk), st') /\
       heap st' !! vj = Some (Arr2 f (zeros nao nao)) /\
       heap st' !! vk = Some (Arr2 f (zeros nao nao))) /\
  (forall hermi, hermi <> 1%Z ->
     exists vj vk st' J K,
       fjk cderi s nao (Some (Z.of_nat N)) hermi dm st = (inr (vj, vk), st') /\
       heap st' !! vj = Some (Arr2 f J) /\
       heap st' !! vk = Some (Arr2 f K) /\
       meq J (zeros nao nao) /\ meq K (zeros nao nao)).
Proof.
  intros Hws Hdm. split.
  - intros e c He Hsmall.
    destruct (wp_run _ _ _ (fjk_sym_ok cderi s nao N dm f _ e c st Hws Hdm
                              (rect_zeros nao nao) He))
      as ([vj vk] & st' & Hrun & _ & Hj & Hk & _).
    exists vj, vk, st'. cbn [fst snd] in *.
    unfold J_sym, K_sym_val in *. rewrite (retained_small e Hsmall) in *. done.
  - intros hermi Hh.
    destruct (wp_run _ _ _ (fjk_gen_ok cderi s nao N hermi dm f _ st Hws Hdm
                              (rect_zeros nao nao) Hh))
      as ([vj vk] & st' & Hrun & _ & Hj & Hk & _).
    exists vj, vk, st'. eexists _, _. cbn [fst snd] in *.
    split; [exact Hrun|]. split; [exact Hj|]. split; [exact Hk|]. split.
    + apply mzero_meq_zeros; [apply rect_J_val, rect_zeros|].
      apply mzero_J_val; [apply vzero_dmtril_val|]; apply mzero_zeros.
    + apply mzero_meq_zeros; [apply rect_K_gen, rect_zeros|].
      apply mzero_K_gen; apply mzero_zeros.
Qed.

(* ================================================================= *)
(** ** A sequence of densities *)

Lemma agree_weaken n m st st' : n <= m -> agree m st st' -> agree n st st'.
Proof. intros Hnm [Hl Hag]. split; [done|]. intros l Hl'. apply Hag. lia. Qed.

Lemma wp_map_fjk cderi s nao N hermi st0 :
  well_shaped cderi s nao N ->
  forall ls rs, Forall2 (dm_ok st0 cderi s nao N hermi) ls rs ->
  forall st, agree (length (heap st0)) st0 st ->
  wp (map_M (fjk cderi s nao (Some (Z.of_nat N)) hermi) ls)
     (fun out st' =>
        Forall2 (holds st') out rs /\
        agree (length (heap st)) st st' /\
        loads st' =
          loads st ++ concat (map (dm_trace st0 s (Z.of_nat N) hermi) ls)) st.
Proof.
  intros Hws ls rs HF. induction HF as [|dm r ls rs (a & Hdm & Ha & Hval) HF IH];
    intros st Hag; cbn [map_M].
  - apply wp_ret. split; [constructor|]. split; [apply agree_refl|].
    cbn. by rewrite app_nil_r.
  - apply wp_bind.
    assert (heap st !! dm = Some (Arr2 (fst (fst r)) a)) as Hdm'.
    { destruct Hag as [_ Hag]. rewrite Hag; [done|]. by eapply lookup_lt_Some. }
    eapply wp_mono; [by apply (fjk_ok cderi s nao N hermi dm _ a _ _ st Hws Hdm' Ha Hval)|].
    intros [vj vk] st1 (_ & Hj & Hk & Hag1 & Hld1). cbn [fst snd] in *.
    apply wp_bind. eapply wp_mono.
    + apply (IH st1). eapply agree_trans; [exact Hag|].
      eapply agree_weaken; [|exact Hag1]. apply Hag.
    + intros out st' (Hout & Hag' & Hld'). apply wp_ret.
      split; [|split].
      * constructor; [|done]. destruct Hag' as [_ Hag']. split; cbn [fst snd].
        -- rewrite Hag'; [done|]. by eapply lookup_lt_Some.
        -- rewrite Hag'; [done|]. by eapply lookup_lt_Some.
      * eapply agree_trans; [exact Hag1|].
        eapply agree_weaken; [|exact Hag']. apply Hag1.
      * rewrite Hld', Hld1. cbn [map concat]. unfold dm_trace at 2.
        rewrite Hdm. by rewrite app_assoc.
Qed.

Lemma wp_map_read (g : jk -> loc) (h : bool * matrix * matrix -> matrix) out rs st :
  Forall2 (fun o r => exists f, heap st !! g o = Some (Arr2 f (h r))) out rs ->
  wp (map_M (fun x => a <- read2 (g x) ;; ret (snd a)) out)
     (fun js st' => js = map h rs /\ st' = st) st.
Proof.
  induction 1 as [|o r out rs [f Ho] HF IH]; cbn [map_M map].
  - by apply wp_ret.
  - apply wp_bind. apply wp_bind. eapply wp_read2; [exact Ho|]. apply wp_ret.
    apply wp_bind. eapply wp_mono; [exact IH|].
    intros js st' [-> ->]. by apply wp_ret.
Qed.

Lemma Forall_exists_Forall2 {A B} (R : A -> B -> Prop) l :
  Forall (fun x => exists y, R x y) l -> exists l', Forall2 R l l'.
Proof.
  induction 1 as [|x l [y Hy] _ [l' IH]]; [by exists []|].
  exists (y :: l'). by constructor.
Qed.

Lemma jk_of_many_ok mf hermi cderi N ls rs st :
  _cderi mf = Some cderi -> _naoaux mf = Some (Z.of_nat N) ->
  well_shaped cderi (ovlp mf) (nrows (ovlp mf)) N ->
  Forall2 (dm_ok st cderi (ovlp mf) (nrows (ovlp mf)) N hermi) ls rs ->
  wp (jk_of mf hermi (Many ls))
     (fun r st' =>
        heap st' !! fst r = Some (Arr3 (map (fun r => snd (fst r)) rs)) /\
        heap st' !! snd r = Some (Arr3 (map (fun r => snd r) rs))) st.
Proof.
  intros Hcd Hn Hws HF. unfold jk_of. rewrite Hcd, Hn.
  apply wp_bind. eapply wp_getattr; [done|].
  apply wp_bind. eapply wp_mono.
  { apply (wp_map_fjk _ _ _ _ _ st Hws ls rs HF st). apply agree_refl. }
  intros out st1 (Hout & _ & _).
  apply wp_bind. eapply wp_mono.
  { apply (wp_map_read fst (fun r => snd (fst r)) out rs).
    eapply Forall2_impl; [exact Hout|]. intros o r [Hj _]. eauto. }
  intros js st' [-> ->].
  apply wp_bind. apply wp_alloc.
  apply wp_bind. eapply wp_mono.
  { apply (wp_map_read snd (fun r => snd r) out rs).
    eapply Forall2_impl; [exact Hout|]. intros o r [_ Hk]. cbn [heap].
    exists (fst (fst r)). rewrite lookup_app_l; [done|]. by eapply lookup_lt_Some. }
  intros ks st' [-> ->].
  apply wp_bind. apply wp_alloc. apply wp_ret. cbn [fst snd heap loads].
  split.
  - rewrite lookup_app_l by (rewrite length_app; cbn; lia).
    by apply list_lookup_middle.
  - apply list_lookup_middle. rewrite length_app. cbn. lia.
Qed.

Lemma jk_of_one_ok mf hermi cderi N dm r st :
  _cderi mf = Some cderi -> _naoaux mf = Some (Z.of_nat N) ->
  well_shaped cderi (ovlp mf) (nrows (ovlp mf)) N ->
  dm_ok st cderi (ovlp mf) (nrows (ovlp mf)) N hermi dm r ->
  wp (jk_of mf hermi (One dm)) (fun o st' => holds st' o r) st.
Proof.
  intros Hcd Hn Hws (a & Hdm & Ha & Hval). unfold jk_of. rewrite Hcd, Hn.
  apply wp_bind. eapply wp_getattr; [done|].
  eapply wp_mono; [by apply (fjk_ok _ _ _ N hermi dm _ a _ _ st Hws Hdm Ha Hval)|].
  intros [vj vk] st' (_ & Hj & Hk & _ & _). by split.
Qed.

Lemma ovlp_build_cderi mf mol : ovlp (build_cderi mf mol) = ovlp mf.
Proof.
  unfold build_cderi. destruct (_cderi mf); [done|]. by destruct (in_core _ _ _).
Qed.

Lemma fjk_val_is_Some cderi s nao n hermi a :
  (hermi = 1%Z -> is_Some (eigh a s)) ->
  is_Some (fjk_val cderi s nao n hermi a).
Proof.
  intros H. unfold fjk_val. destruct (Z.eqb_spec hermi 1) as [E|_]; [|done].
  destruct (H E) as [[e c] ->]. done.
Qed.

(** C5.  For a sequence of well-shaped densities (on which the eigensolver
    succeeds when [hermi == 1]) [get_jk_] returns two stacked arrays with
    one slice per density, in the order of the sequence, and slice [i] of
    each is the very array that the call on the [i]-th density alone returns
    (a 2-D array, not a stack) from the same SCF object and store. *)
Theorem batch_pointwise mf mol hermi ls st cderi N nao :
  _cderi (build_cderi mf mol) = Some cderi ->
  _naoaux (build_cderi mf mol) = Some (Z.of_nat N) ->
  nao = nrows (ovlp mf) ->
  well_shaped cderi (ovlp mf) nao N ->
  Forall (fun dm => exists f a,
            heap st !! dm = Some (Arr2 f a) /\ rect nao nao a /\
            (hermi = 1%Z -> is_Some (eigh a (ovlp mf)))) ls ->
  exists vj vk st' Js Ks,
    snd (get_jk_ mf mol (Many ls) hermi st) = (inr (vj, vk), st') /\
    heap st' !! vj = Some (Arr3 Js) /\
    heap st' !! vk = Some (Arr3 Ks) /\
    length Js = length ls /\ length Ks = length ls /\
    forall i dm, ls !! i = Some dm ->
      exists vj1 vk1 st1 f J K,
        snd (get_jk_ mf mol (One dm) hermi st) = (inr (vj1, vk1), st1) /\
        heap st1 !! vj1 = Some (Arr2 f J) /\
        heap st1 !! vk1 = Some (Arr2 f K) /\
        Js !! i = Some J /\ Ks !! i = Some K.
Proof.
  intros Hcd Hn -> Hws Hls. unfold get_jk_. cbn [snd].
  set (mf' := build_cderi mf mol) in *.
  assert (ovlp mf' = ovlp mf) as Ho by apply ovlp_build_cderi.
  assert (exists rs, Forall2 (dm_ok st cderi (ovlp mf') (nrows (ovlp mf')) N hermi) ls rs)
    as [rs HF].
  { apply Forall_exists_Forall2. eapply Forall_impl; [exact Hls|]. cbn.
    intros dm (f & a & Hdm & Ha & He). rewrite Ho.
    destruct (fjk_val_is_Some cderi (ovlp mf) (nrows (ovlp mf)) (Z.of_nat N)
                hermi a He) as [[J K] HJK].
    exists (f, J, K), a. done. }
  rewrite <- Ho in Hws.
  destruct (wp_run _ _ _ (jk_of_many_ok mf' hermi cderi N ls rs st Hcd Hn Hws HF))
    as ([vj vk] & st' & Hrun & Hj & Hk).
  exists vj, vk, st'. eexists _, _. cbn [fst snd] in *.
  split; [exact Hrun|]. split; [exact Hj|]. split; [exact Hk|].
  pose proof (Forall2_length _ _ _ HF) as Hlen.
  split; [by rewrite length_map|]. split; [by rewrite length_map|].
  intros i dm Hi.
  destruct (Forall2_lookup_l _ _ _ _ _ HF Hi) as ([[f J] K] & Hr & Hok).
  destruct (wp_run _ _ _ (jk_of_one_ok mf' hermi cderi N dm _ st Hcd Hn Hws Hok))
    as ([vj1 vk1] & st1 & Hrun1 & Hj1 & Hk1).
  exists vj1, vk1, st1, f, J, K. cbn [fst snd] in *.
  split; [exact Hrun1|]. split; [exact Hj1|]. split; [exact Hk1|].
  rewrite !list_lookup_fmap, Hr. done.
Qed.

(* ================================================================= *)
(** ** Densities of the wrong size *)


Lemma wpx_map_M_app {A B} (f : A -> M B) pre x rest Q st :
  wp (map_M f pre) (fun _ st' => wpx (f x) Q st') st ->
  wpx (map_M f (pre ++ x :: rest)) Q st.
Proof.
  revert st. induction pre as [|y pre IH]; intros st H; cbn [map_M app] in *.
  - by apply wpx_bind_l.
  - unfold wp, bind in H. unfold wpx, bind.
    destruct (f y st) as [[e|b] st']; [done|].
    assert (wp (map_M f pre) (fun _ st' => wpx (f x) Q st') st') as H'.
    { unfold wp. destruct (map_M f pre st') as [[e|bs] st'']; done. }
    specialize (IH st' H'). unfold wpx in IH.
    destruct (map_M f (pre ++ x :: rest) st') as [[e|bs] st'']; done.
Qed.




(** The packed density of a square array of side [m >= nao]. *)
Lemma wp_pack_density_le nao m dm f a Q st :
  heap st !! dm = Some (Arr2 f a) -> rect m m a -> nao <= m ->
  Q (length (heap st))
    (mkState (heap st ++
       [Arr1 (halve_diag nao (pack_tril (tabulate m m
                (fun i j => (entry a i j + entry a j i)%Q))))]) (loads st)) ->
  wp (pack_density nao dm) Q st.
Proof.
  intros Hdm Ha Hle HQ. unfold pack_density.
  apply wp_bind. eapply wp_read2; [exact Hdm|]. cbn [snd].
  apply wp_bind. eapply wp_lift; [by apply np_add_T_sq|].
  apply wp_bind. apply wp_alloc.
  apply wp_bind. eapply wp_mono.
  { apply wp_halve_loop with (t := pack_tril (tabulate m m
            (fun i j => (entry a i j + entry a j i)%Q))).
    - cbn. apply list_lookup_middle. done.
    - rewrite (length_pack_tril m) by apply rect_tabulate. by apply tri_mono. }
  intros [] [h' ld'] [Hh Hld]. cbn in Hh, Hld. subst h' ld'.
  apply wp_ret. by rewrite insert_snoc.
Qed.







(* ================================================================= *)
(** ** Finite sums of rationals *)

#[local] Open Scope Q_scope.

Lemma Qsum_cons x l : Qsum (x :: l) = x + Qsum l.
Proof. done. Qed.

Lemma Qsum_nil : Qsum [] = 0.
Proof. done. Qed.

Lemma Qsum_app l1 l2 : Qsum (l1 ++ l2) == Qsum l1 + Qsum l2.
Proof.
  induction l1 as [|x l1 IH]; cbn [app].
  - rewrite Qsum_nil. ring.
  - rewrite !Qsum_cons, IH. ring.
Qed.

Lemma Qsum_map_ext {A} (f g : A -> Q) l :
  (forall x, In x l -> f x == g x) -> Qsum (map f l) == Qsum (map g l).
Proof.
  induction l as [|x l IH]; intros H; cbn [map]; [reflexivity|].
  rewrite !Qsum_cons, IH, (H x) by (by left || (intros; apply H; by right)).
  reflexivity.
Qed.

Lemma Qsum_map_add {A} (f g : A -> Q) l :
  Qsum (map (fun x => f x + g x) l) == Qsum (map f l) + Qsum (map g l).
Proof.
  induction l as [|x l IH]; cbn [map]; [reflexivity|].
  rewrite !Qsum_cons, IH. ring.
Qed.

Lemma Qsum_map_sub {A} (f g : A -> Q) l :
  Qsum (map (fun x => f x - g x) l) == Qsum (map f l) - Qsum (map g l).
Proof.
  induction l as [|x l IH]; cbn [map]; [reflexivity|].
  rewrite !Qsum_cons, IH. ring.
Qed.

Lemma Qsum_map_scal {A} (q : Q) (f : A -> Q) l :
  Qsum (map (fun x => q * f x) l) == q * Qsum (map f l).
Proof.
  induction l as [|x l IH]; cbn [map]; [rewrite Qsum_nil; ring|].
  rewrite !Qsum_cons, IH. ring.
Qed.

Lemma Qsum_map_scal_r {A} (q : Q) (f : A -> Q) l :
  Qsum (map (fun x => f x * q) l) == Qsum (map f l) * q.
Proof.
  induction l as [|x l IH]; cbn [map]; [rewrite Qsum_nil; ring|].
  rewrite !Qsum_cons, IH. ring.
Qed.

Lemma Qsum_map_zero {A} (f : A -> Q) l :
  (forall x, In x l -> f x == 0) -> Qsum (map f l) == 0.
Proof.
  intros H. rewrite (Qsum_map_ext f (fun _ => 0) l H).
  induction l as [|x l IH]; cbn [map]; [reflexivity|].
  rewrite Qsum_cons, IH by (intros; apply H; by right). ring.
Qed.

(** Sums may be exchanged. *)
Lemma Qsum_map_exchange {A B} (f : A -> B -> Q) la lb :
  Qsum (map (fun x => Qsum (map (fun y => f x y) lb)) la) ==
  Qsum (map (fun y => Qsum (map (fun x => f x y) la)) lb).
Proof.
  induction la as [|x la IH]; cbn [map].
  - rewrite Qsum_nil. symmetry. apply Qsum_map_zero. intros; reflexivity.
  - rewrite Qsum_cons, IH.
    rewrite <- Qsum_map_add. apply Qsum_map_ext. intros y _.
    by rewrite Qsum_cons.
Qed.

Lemma sumn_ext n f g :
  (forall k, (k < n)%nat -> f k == g k) -> sumn n f == sumn n g.
Proof.
  intros H. apply Qsum_map_ext. intros k Hk. apply in_seq in Hk. apply H. lia.
Qed.

Lemma sumn_add n f g : sumn n (fun k => f k + g k) == sumn n f + sumn n g.
Proof. apply Qsum_map_add. Qed.

Lemma sumn_scal n q f : sumn n (fun k => q * f k) == q * sumn n f.
Proof. apply Qsum_map_scal. Qed.

Lemma sumn_scal_r n q f : sumn n (fun k => f k * q) == sumn n f * q.
Proof. apply Qsum_map_scal_r. Qed.

Lemma sumn_exchange n m (f : nat -> nat -> Q) :
  sumn n (fun i => sumn m (fun j => f i j)) ==
  sumn m (fun j => sumn n (fun i => f i j)).
Proof. apply Qsum_map_exchange. Qed.

(** A sum over the positions a mask selects is the sum over all positions
    with the others set to zero. *)
Lemma Qsum_mask_index_from (g : nat -> Q) mask : forall i,
  Qsum (map g (mask_index_from i mask)) ==
  Qsum (map (fun k => if nth k mask false then g (i + k)%nat else 0)
            (seq 0 (length mask))).
Proof.
  induction mask as [|b mask IH]; intros i; [reflexivity|].
  cbn [mask_index_from length seq map]. rewrite Qsum_cons, <- seq_shift, map_map.
  cbn [nth]. rewrite Nat.add_0_r.
  assert (Qsum (map g (mask_index_from (S i) mask)) ==
          Qsum (map (fun k => if nth k mask false then g (i + S k)%nat else 0)
                    (seq 0 (length mask)))) as E.
  { rewrite IH. apply Qsum_map_ext. intros k _.
    by replace (S i + k)%nat with (i + S k)%nat by lia. }
  destruct b; cbn [map]; rewrite ?Qsum_cons, E; ring.
Qed.

Lemma Qsum_mask_index (g : nat -> Q) mask :
  Qsum (map g (mask_index mask)) ==
  sumn (length mask) (fun k => if nth k mask false then g k else 0).
Proof. apply (Qsum_mask_index_from g mask 0). Qed.

Lemma vdot_map_seq n (f g : nat -> Q) :
  vdot (map f (seq 0 n)) (map g (seq 0 n)) = sumn n (fun k => f k * g k).
Proof.
  unfold vdot, sumn. f_equal. generalize 0%nat.
  induction n as [|n IH]; intros s; cbn [seq map zip_with]; [done|].
  by rewrite IH.
Qed.

Lemma vdot_app u1 u2 v1 v2 :
  length u1 = length v1 ->
  vdot (u1 ++ u2) (v1 ++ v2) == vdot u1 v1 + vdot u2 v2.
Proof.
  intros Hl. unfold vdot. rewrite zip_with_app by done. apply Qsum_app.
Qed.

(* ================================================================= *)
(** ** Entries of the exchange contributions *)

Lemma map_seq_nth {A} (l : list A) d :
  map (fun k => nth k l d) (seq 0 (length l)) = l.
Proof.
  apply nth_ext with (d := d) (d' := d).
  - by rewrite length_map, length_seq.
  - intros k Hk. rewrite length_map, length_seq in Hk.
    rewrite (nth_map' _ _ _ 0%nat) by (by rewrite length_seq).
    by rewrite seq_nth.
Qed.

Lemma col_as_seq j m : col j m = map (fun r => entry m r j) (seq 0 (length m)).
Proof.
  unfold col, entry. rewrite <- (map_seq_nth m []) at 1. by rewrite map_map.
Qed.

Lemma nth_transpose i m :
  (i < ncols m)%nat -> nth i (transpose m) [] = col i m.
Proof.
  intros Hi. unfold transpose. rewrite nth_tabulate by done.
  by rewrite col_as_seq.
Qed.

Lemma nth_vm v m j : (j < ncols m)%nat -> nth j (vm v m) 0 = vdot v (col j m).
Proof.
  intros Hj. unfold vm. rewrite (nth_map' _ _ _ 0%nat) by (by rewrite length_seq).
  by rewrite seq_nth.
Qed.

Lemma entry_mm a b i j :
  (i < nrows a)%nat -> (j < ncols b)%nat ->
  entry (mm a b) i j = vdot (nth i a []) (col j b).
Proof.
  intros Hi Hj. unfold entry, mm. rewrite (nth_map' _ _ _ []) by done.
  by apply nth_vm.
Qed.

Lemma entry_mm_T B B1 i j :
  (i < ncols B)%nat -> (j < ncols B1)%nat ->
  entry (mm (transpose B) B1) i j = vdot (col i B) (col j B1).
Proof.
  intros Hi Hj.
  rewrite entry_mm; [|unfold transpose; by rewrite nrows_tabulate|done].
  by rewrite nth_transpose.
Qed.

Lemma col_concat j (t : list matrix) : col j (concat t) = concat (map (col j) t).
Proof. unfold col. apply concat_map. Qed.

Lemma col_tabulate r c f j :
  (j < c)%nat -> col j (tabulate r c f) = map (fun k => f k j) (seq 0 r).
Proof.
  intros Hj. unfold col, tabulate. rewrite map_map. apply map_ext. intros k.
  rewrite (nth_map' _ _ _ 0%nat) by (by rewrite length_seq).
  by rewrite seq_nth.
Qed.

Lemma vdot_concat_map {A} (F G : A -> vec) l :
  (forall x, length (F x) = length (G x)) ->
  vdot (concat (map F l)) (concat (map G l)) ==
  Qsum (map (fun x => vdot (F x) (G x)) l).
Proof.
  intros Hl. induction l as [|x l IH]; cbn [map concat]; [reflexivity|].
  rewrite vdot_app, IH, Qsum_cons by apply Hl. reflexivity.
Qed.

Lemma ncols_concat_tab r c (F : vec -> nat -> nat -> Q) (l : matrix) :
  (0 < r)%nat -> l <> [] ->
  ncols (concat (map (fun row => tabulate r c (F row)) l)) = c.
Proof.
  intros Hr Hl. destruct l as [|row l]; [done|]. cbn [map concat].
  destruct r as [|r]; [lia|]. unfold tabulate at 1. cbn [seq map app ncols].
  by rewrite length_map, length_seq.
Qed.

(** Entry [(i, j)] of [buf.T . buf1] for two transformed blocks. *)
Lemma entry_drv_product nao r (F G : vec -> nat -> nat -> Q) eri1 i j :
  (0 < r)%nat -> eri1 <> [] -> (i < nao)%nat -> (j < nao)%nat ->
  entry (mm (transpose (concat (map (fun row => tabulate r nao (F row)) eri1)))
            (concat (map (fun row => tabulate r nao (G row)) eri1))) i j ==
  Qsum (map (fun row => sumn r (fun k => F row k i * G row k j)) eri1).
Proof.
  intros Hr Hne Hi Hj.
  rewrite entry_mm_T by (by rewrite ncols_concat_tab).
  rewrite !col_concat, !map_map.
  rewrite (vdot_concat_map (fun row => col i (tabulate r nao (F row)))
                           (fun row => col j (tabulate r nao (G row)))).
  - apply Qsum_map_ext. intros row _.
    rewrite (col_tabulate r nao (F row) i Hi), (col_tabulate r nao (G row) j Hj).
    rewrite vdot_map_seq. reflexivity.
  - intros row. unfold col. by rewrite !length_map, !length_tabulate.
Qed.

Lemma drv_as_map fmmm nao eri1 :
  AO2MOnr_e2_drv fmmm (length eri1) nao eri1 =
  map (fun row => fmmm (unpack_sym nao row)) eri1.
Proof. unfold AO2MOnr_e2_drv. by rewrite firstn_all. Qed.

Lemma concat_nil_map {A B} (l : list A) : concat (map (fun _ => @nil B) l) = [].
Proof. induction l as [|x l IH]; [done|]. exact IH. Qed.

Lemma entry_nil i j : entry [] i j = 0.
Proof. unfold entry. by destruct i, j. Qed.

(** Entry [(i, j)] of the exchange contribution of one half-transformed
    block. *)
Lemma entry_k_half nao eri1 coef i j :
  eri1 <> [] -> (i < nao)%nat -> (j < nao)%nat ->
  entry (k_half nao eri1 coef) i j ==
  Qsum (map (fun row => sumn (ncols coef)
                          (fun k => half nao coef row k i * half nao coef row k j))
            eri1).
Proof.
  intros Hne Hi Hj. unfold k_half, half_buf, reshape_rows.
  rewrite drv_as_map. unfold RIhalfmmm_nr_s2_bra.
  destruct (Nat.eq_dec (ncols coef) 0%nat) as [E|E].
  - rewrite E. unfold tabulate at 1 2. cbn [seq map].
    rewrite concat_nil_map. unfold transpose. cbn [ncols nrows length].
    unfold tabulate at 1. cbn [seq map mm]. rewrite entry_nil.
    symmetry. apply Qsum_map_zero. intros; reflexivity.
  - apply (entry_drv_product nao (ncols coef)
             (fun row k i => half nao coef row k i)
             (fun row k i => half nao coef row k i)); (done || lia).
Qed.

(** Entry [(i, j)] of the exchange contribution of one block on the general
    path. *)
Lemma entry_k_gen_block nao eri1 a i j :
  eri1 <> [] -> (i < nao)%nat -> (j < nao)%nat ->
  entry (k_gen_block nao eri1 a) i j ==
  Qsum (map (fun row => sumn nao
                          (fun k => half nao a row k i *
                                    entry (unpack_sym nao row) k j))
            eri1).
Proof.
  intros Hne Hi Hj. unfold k_gen_block, reshape_rows.
  rewrite !drv_as_map. unfold RIhalfmmm_nr_s2_bra, RImmm_nr_s2_copy.
  apply (entry_drv_product nao nao
           (fun row k i => half nao a row k i)
           (fun row k i => entry (unpack_sym nao row) k i)); (done || lia).
Qed.

(* ================================================================= *)
(** ** The exchange matrix in terms of the eigenpairs *)

Lemma half_scaled nao c e mask (g : Q -> Q) row k i :
  rect nao (length e) c -> length mask = length e ->
  (k < count_true mask)%nat ->
  half nao (einsum_ij_j (select_cols c mask) (map g (select e mask))) row k i ==
  g (nth (nth k (mask_index mask) 0%nat) e 0) *
  half nao c row (nth k (mask_index mask) 0%nat) i.
Proof.
  intros Hc Hm Hk. unfold half.
  rewrite <- sumn_scal. apply sumn_ext. intros j Hj.
  rewrite (entry_scaled_select c e mask g nao j k Hc Hm Hj Hk). ring.
Qed.

Lemma ncols_scaled nao c e mask (g : Q -> Q) :
  (0 < nao)%nat -> rect nao (length e) c -> length mask = length e ->
  ncols (einsum_ij_j (select_cols c mask) (map g (select e mask))) = count_true mask.
Proof.
  intros Hnao Hc Hm. apply (rect_ncols nao); [|done]. by apply rect_scaled_select.
Qed.

(** Entries of a running sum of square arrays. *)
Lemma entry_fold_step {A} (step : matrix -> A -> matrix) (d : A -> nat -> nat -> Q)
      nao (bs : list A) K0 i j :
  (forall K b, In b bs -> rect nao nao K ->
     rect nao nao (step K b) /\
     entry (step K b) i j == entry K i j + d b i j) ->
  rect nao nao K0 ->
  entry (fold_left step bs K0) i j ==
  entry K0 i j + Qsum (map (fun b => d b i j) bs).
Proof.
  revert K0. induction bs as [|b bs IH]; intros K0 Hstep HK0; cbn [fold_left map].
  - rewrite Qsum_nil. ring.
  - destruct (Hstep K0 b ltac:(by left) HK0) as [Hr He].
    rewrite IH; [|intros; apply Hstep; [by right|done]|done].
    rewrite He, Qsum_cons. ring.
Qed.

Lemma entry_madd nao a x i j :
  rect nao nao a -> (i < nao)%nat -> (j < nao)%nat ->
  entry (madd a x) i j = entry a i j + entry x i j.
Proof. intros Ha Hi Hj. rewrite (madd_sq nao) by done. by rewrite entry_tabulate. Qed.

Lemma entry_msub nao a x i j :
  rect nao nao a -> (i < nao)%nat -> (j < nao)%nat ->
  entry (msub a x) i j = entry a i j - entry x i j.
Proof. intros Ha Hi Hj. rewrite (msub_sq nao) by done. by rewrite entry_tabulate. Qed.

Lemma entry_zeros r c i j : entry (zeros r c) i j == 0.
Proof. apply mzero_entry, mzero_zeros. Qed.

Lemma entry_k_step_madd nao eri1 coef K i j :
  rect nao nao K -> eri1 <> [] -> (i < nao)%nat -> (j < nao)%nat ->
  entry (k_step madd nao eri1 coef K) i j ==
  entry K i j + entry (k_half nao eri1 coef) i j.
Proof.
  intros HK Hne Hi Hj. unfold k_step.
  destruct (Nat.ltb_spec 0 (ncols coef)) as [Hc|Hc].
  - rewrite (entry_madd nao) by done. reflexivity.
  - rewrite (entry_k_half nao eri1 coef i j) by done.
    replace (ncols coef) with 0%nat by lia.
    rewrite Qsum_map_zero; [ring|]. intros; reflexivity.
Qed.

Lemma entry_k_step_msub nao eri1 coef K i j :
  rect nao nao K -> eri1 <> [] -> (i < nao)%nat -> (j < nao)%nat ->
  entry (k_step msub nao eri1 coef K) i j ==
  entry K i j - entry (k_half nao eri1 coef) i j.
Proof.
  intros HK Hne Hi Hj. unfold k_step.
  destruct (Nat.ltb_spec 0 (ncols coef)) as [Hc|Hc].
  - rewrite (entry_msub nao) by done. reflexivity.
  - rewrite (entry_k_half nao eri1 coef i j) by done.
    replace (ncols coef) with 0%nat by lia.
    rewrite Qsum_map_zero; [ring|]. intros; reflexivity.
Qed.

Lemma block_rows_nonempty cderi N c b :
  rect N c (factor_rows cderi) -> In b (aux_blocks (Z.of_nat N)) ->
  block_rows cderi b <> [].
Proof.
  intros Hcd Hin. destruct (rect_block_rows _ _ _ _ Hcd Hin) as [Hnb [Hl _]].
  intros E. rewrite E in Hl. cbn in Hl. lia.
Qed.

Lemma pair_sum_add cderi n nao c w1 w2 w i j :
  length w1 = length w -> length w2 = length w ->
  (forall m, (m < length w)%nat -> nth m w 0 == nth m w1 0 + nth m w2 0) ->
  pair_sum cderi n nao c w i j ==
  pair_sum cderi n nao c w1 i j + pair_sum cderi n nao c w2 i j.
Proof.
  intros H1 H2 Hw. unfold pair_sum.
  rewrite <- Qsum_map_add. apply Qsum_map_ext. intros b _.
  rewrite <- Qsum_map_add. apply Qsum_map_ext. intros row _.
  rewrite H1, H2, <- sumn_add. apply sumn_ext. intros m Hm.
  rewrite (Hw m Hm). ring.
Qed.

Lemma pair_sum_zero cderi n nao c w i j :
  (forall m, (m < length w)%nat -> nth m w 0 == 0) ->
  pair_sum cderi n nao c w i j == 0.
Proof.
  intros Hw. unfold pair_sum. apply Qsum_map_zero. intros b _.
  apply Qsum_map_zero. intros row _.
  rewrite (sumn_ext _ _ (fun _ => 0)).
  - apply Qsum_map_zero. intros; reflexivity.
  - intros m Hm. rewrite (Hw m Hm). ring.
Qed.

Lemma masks_exclusive x : Qltb OCCDROP x = true -> Qltb x (- OCCDROP) = true -> False.
Proof.
  intros Hp Hn. apply Qltb_lt in Hp, Hn.
  assert (OCCDROP < - OCCDROP) as H by (eapply Qlt_trans; eassumption).
  revert H. done.
Qed.

Lemma nth_dropped_weights e m :
  (m < length e)%nat ->
  nth m (dropped_weights e) 0 =
  if Qltb OCCDROP (nth m e 0) || Qltb (nth m e 0) (- OCCDROP) then 0 else nth m e 0.
Proof. intros Hm. unfold dropped_weights. by rewrite (nth_map' _ _ _ 0). Qed.

(** [K] of the general path, entry by entry, for a density that is the sum
    of [e[m] * c_m c_m^T] over its eigenpairs. *)
Lemma K_gen_entry cderi s nao N a c e i j :
  well_shaped cderi s nao N ->
  (forall p q, (p < nao)%nat -> (q < nao)%nat ->
     entry a p q == sumn (length e) (fun m => nth m e 0 * entry c p m * entry c q m)) ->
  (i < nao)%nat -> (j < nao)%nat ->
  entry (K_gen cderi (Z.of_nat N) nao a (zeros nao nao)) i j
  == pair_sum cderi (Z.of_nat N) nao c e i j.
Proof.
  intros (Hnao & Hs & Hcd) Ha Hi Hj. unfold K_gen.
  rewrite (entry_fold_step _
    (fun b i j => Qsum (map (fun row =>
       sumn (length e) (fun m =>
         nth m e 0 * half nao c row m i * half nao c row m j))
       (block_rows cderi b))) nao).
  - rewrite entry_zeros. unfold pair_sum. ring.
  - intros K b Hb HK.
    pose proof (block_rows_nonempty _ _ _ _ Hcd Hb) as Hne.
    split; [by apply rect_madd|].
    rewrite (entry_madd nao) by done. apply Qplus_comp; [reflexivity|].
    rewrite entry_k_gen_block by done.
    apply Qsum_map_ext. intros row _.
    set (L := unpack_sym nao row).
    (* half-transformed density in terms of the eigenpairs *)
    assert (forall k, (k < nao)%nat ->
              half nao a row k i ==
              sumn (length e) (fun m => nth m e 0 * entry c k m * half nao c row m i))
      as Hhalf.
    { intros k Hk. unfold half. fold L.
      transitivity (sumn nao (fun j' =>
        sumn (length e) (fun m => nth m e 0 * entry c j' m * entry c k m * entry L j' i))).
      { apply sumn_ext. intros j' Hj'. rewrite (Ha j' k Hj' Hk).
        rewrite <- sumn_scal_r. reflexivity. }
      rewrite sumn_exchange. apply sumn_ext. intros m _.
      rewrite <- sumn_scal. apply sumn_ext. intros j' _. ring. }
    transitivity (sumn nao (fun k =>
      sumn (length e) (fun m =>
        nth m e 0 * entry c k m * half nao c row m i * entry L k j))).
    { apply sumn_ext. intros k Hk. rewrite (Hhalf k Hk).
      rewrite <- sumn_scal_r. reflexivity. }
    rewrite sumn_exchange. apply sumn_ext. intros m _.
    change (half nao c row m j)
      with (sumn nao (fun k => entry c k m * entry L k j)).
    transitivity ((nth m e 0 * half nao c row m i) *
                  sumn nao (fun k => entry c k m * entry L k j)); [|ring].
    rewrite <- sumn_scal. apply sumn_ext. intros k _. ring.
  - apply rect_zeros.
Qed.

Lemma Qltb_false a b : Qltb a b = false -> b <= a.
Proof.
  intros H. apply Qnot_lt_le. intros Hlt. apply Qltb_lt in Hlt. congruence.
Qed.

Lemma dropped_weights_small e :
  Forall (fun w => Qabs w <= OCCDROP) (dropped_weights e).
Proof.
  unfold dropped_weights. apply Forall_map, Forall_forall. intros x _. cbn.
  destruct (Qltb OCCDROP x) eqn:Ep; cbn [orb]; [done|].
  destruct (Qltb x (- OCCDROP)) eqn:En; [done|].
  apply Qabs_Qle_condition. split; by apply Qltb_false.
Qed.

Lemma rect_K_sym cderi n nao cpos cneg K0 :
  rect nao nao K0 -> rect nao nao (K_sym cderi n nao cpos cneg K0).
Proof.
  unfold K_sym. generalize (aux_blocks n). intros bs. revert K0.
  induction bs as [|b bs IH]; intros K0 HK; cbn [fold_left]; [done|].
  apply IH. apply rect_k_step; [intros; by apply rect_msub|].
  apply rect_k_step; [intros; by apply rect_madd|done].
Qed.

Lemma meq_of_entries nao A B :
  rect nao nao A -> rect nao nao B ->
  (forall i j, (i < nao)%nat -> (j < nao)%nat -> entry A i j == entry B i j) ->
  meq A B.
Proof.
  intros HA HB H.
  rewrite (rect_tabulate_entry nao nao A HA), (rect_tabulate_entry nao nao B HB).
  unfold tabulate.
  apply Forall2_fmap, Forall_Forall2_diag, Forall_forall. intros i Hi.
  apply Forall2_fmap, Forall_Forall2_diag, Forall_forall. intros j Hj. cbn.
  apply elem_of_seq in Hi, Hj. apply H; lia.
Qed.

#[local] Close Scope Q_scope.

(* ================================================================= *)
(** ** Sums over packed triangles and over the rows of the factor *)

#[local] Open Scope Q_scope.

Lemma sumn_S n f : sumn (S n) f == sumn n f + f n.
Proof.
  unfold sumn. rewrite seq_S, map_app, Qsum_app. cbn [map plus].
  rewrite Qsum_cons, Qsum_nil. ring.
Qed.

Lemma sumn_0 f : sumn 0 f = 0.
Proof. done. Qed.

Lemma sumn_plus a b f :
  sumn (a + b) f == sumn a f + sumn b (fun l => f (a + l)%nat).
Proof.
  induction b as [|b IH].
  - rewrite Nat.add_0_r, sumn_0. ring.
  - rewrite Nat.add_succ_r, !sumn_S, IH. ring.
Qed.

Lemma sumn_zero n f : (forall k, (k < n)%nat -> f k == 0) -> sumn n f == 0.
Proof.
  intros H. unfold sumn. apply Qsum_map_zero. intros k Hk.
  apply in_seq in Hk. apply H. lia.
Qed.

(** A sum over the packed offsets, row by row. *)
Lemma sumn_tri n f :
  sumn (tri n) f == sumn n (fun k => sumn (S k) (fun l => f (tri k + l)%nat)).
Proof.
  induction n as [|n IH].
  - rewrite tri_0. reflexivity.
  - rewrite tri_S, sumn_plus, IH.
    rewrite (sumn_S n (fun k => sumn (S k) (fun l => f (tri k + l)%nat))).
    reflexivity.
Qed.

(** A sum over a square, as a sum over its lower triangle. *)
Lemma sumn_square n (f : nat -> nat -> Q) :
  sumn n (fun k => sumn n (fun l => f k l)) ==
  sumn n (fun k => sumn k (fun l => f k l + f l k) + f k k).
Proof.
  induction n as [|n IH].
  - reflexivity.
  - rewrite (sumn_S n (fun k => sumn (S n) (fun l => f k l))).
    rewrite (sumn_ext n (fun k => sumn (S n) (fun l => f k l))
                      (fun k => sumn n (fun l => f k l) + f k n))
      by (intros k _; apply sumn_S).
    rewrite sumn_add, IH, (sumn_S n (fun l => f n l)).
    rewrite (sumn_S n (fun k => sumn k (fun l => f k l + f l k) + f k k)).
    rewrite (sumn_add n (fun l => f n l) (fun l => f l n)). ring.
Qed.

Lemma vdot_nth u v :
  length u = length v ->
  vdot u v = sumn (length u) (fun x => nth x u 0 * nth x v 0).
Proof.
  intros H.
  replace (vdot u v) with
    (vdot (map (fun k => nth k u 0) (seq 0 (length u)))
          (map (fun k => nth k v 0) (seq 0 (length u)))).
  - apply vdot_map_seq.
  - rewrite (map_seq_nth u 0), H, (map_seq_nth v 0). done.
Qed.

Lemma vdot_map_map {A} (f g : A -> Q) l :
  vdot (map f l) (map g l) = Qsum (map (fun x => f x * g x) l).
Proof.
  unfold vdot. induction l as [|x l IH]; [done|].
  cbn [map zip_with]. by rewrite !Qsum_cons, IH.
Qed.

Lemma Qsum_map_concat {A} (F : A -> Q) (ls : list (list A)) :
  Qsum (map F (concat ls)) == Qsum (map (fun l => Qsum (map F l)) ls).
Proof.
  induction ls as [|l ls IH]; [reflexivity|].
  cbn [concat map]. rewrite map_app, Qsum_app, Qsum_cons, IH. reflexivity.
Qed.

Lemma Qsum_map_nth {A} (F : A -> Q) (l : list A) d :
  Qsum (map F l) = sumn (length l) (fun p => F (nth p l d)).
Proof.
  unfold sumn. rewrite <- (map_seq_nth l d) at 1. by rewrite map_map.
Qed.

Lemma entry_unpack_sym n v i j :
  (i < n)%nat -> (j < n)%nat ->
  entry (unpack_sym n v) i j = nth (tri (Nat.max i j) + Nat.min i j) v 0.
Proof. intros Hi Hj. unfold unpack_sym. by rewrite entry_tabulate. Qed.

Lemma unpack_sym_comm n v i j :
  (i < n)%nat -> (j < n)%nat ->
  entry (unpack_sym n v) i j = entry (unpack_sym n v) j i.
Proof.
  intros Hi Hj. rewrite !entry_unpack_sym by done.
  by rewrite Nat.max_comm, Nat.min_comm.
Qed.

(** The packed product of lines 79-81 against a packed row is the product
    over the full square: halving the diagonal of [dm + dm.T] undoes the
    double count. *)
Lemma vdot_dmtril nao row a :
  length row = tri nao ->
  vdot row (dmtril_val nao a) == flat_dot nao (unpack_sym nao row) a.
Proof.
  intros Hlen. rewrite vdot_nth by (by rewrite length_dmtril_val).
  rewrite Hlen, sumn_tri. unfold flat_dot.
  rewrite (sumn_square nao (fun k l => entry (unpack_sym nao row) k l * entry a k l)).
  apply sumn_ext. intros k Hk. rewrite sumn_S.
  rewrite nth_dmtril_val, Nat.eqb_refl by lia.
  rewrite (entry_unpack_sym nao row k k), Nat.max_id, Nat.min_id by done.
  assert (sumn k (fun l => nth (tri k + l) row 0 *
                           nth (tri k + l) (dmtril_val nao a) 0) ==
          sumn k (fun l => entry (unpack_sym nao row) k l * entry a k l +
                           entry (unpack_sym nao row) l k * entry a l k)) as ->.
  { apply sumn_ext. intros l Hl.
    rewrite nth_dmtril_val by lia.
    destruct (Nat.eqb_spec k l) as [->|_]; [lia|].
    rewrite !entry_unpack_sym by lia.
    replace (Nat.max k l) with k by lia. replace (Nat.min k l) with l by lia.
    replace (Nat.max l k) with k by lia. replace (Nat.min l k) with l by lia.
    ring. }
  field.
Qed.

Lemma firstn_plus {A} (l : list A) : forall p q,
  firstn (p + q) l = firstn p l ++ firstn q (skipn p l).
Proof.
  induction l as [|x l IH]; intros [|p] q; cbn [plus firstn skipn app]; try done.
  - by rewrite firstn_nil.
  - by rewrite IH.
Qed.

(** The blocks of [prange] cut the rows of the factor without loss. *)
Lemma tiling_concat_rows {A} (rows : list A) step a e bs :
  tiling step a e bs -> (0 <= a)%Z ->
  concat (map (fun b => firstn (Z.to_nat (snd b - fst b))
                               (skipn (Z.to_nat (fst b)) rows)) bs) =
  firstn (Z.to_nat (e - a)) (skipn (Z.to_nat a) rows).
Proof.
  induction 1 as [a|a b e bs Hlt Hle Hb Ht IH]; intros Ha.
  - by rewrite Z.sub_diag.
  - cbn [map concat fst snd]. rewrite IH by lia.
    destruct (tiling_cover _ _ _ _ Ht) as [Hbe _].
    replace (Z.to_nat (e - a)) with (Z.to_nat (b - a) + Z.to_nat (e - b))%nat by lia.
    rewrite firstn_plus. f_equal. f_equal.
    rewrite skipn_skipn. f_equal. lia.
Qed.

Lemma concat_block_rows cderi N c :
  rect N c (factor_rows cderi) ->
  concat (map (block_rows cderi) (aux_blocks (Z.of_nat N))) = factor_rows cderi.
Proof.
  intros [Hlen _].
  pose proof (aux_blocks_tiling (Z.of_nat N) ltac:(lia)) as Ht.
  unfold block_rows.
  rewrite (tiling_concat_rows (factor_rows cderi) _ _ _ _ Ht) by lia.
  cbn [Z.to_nat skipn]. rewrite Z.sub_0_r, Nat2Z.id.
  apply firstn_all2. lia.
Qed.

(** One block's Coulomb contribution, entry by entry. *)
Lemma entry_j_block nao nb eri1 t i j :
  rect nb (tri nao) eri1 -> (0 < nb)%nat -> (i < nao)%nat -> (j < nao)%nat ->
  entry (j_block eri1 t) i j ==
  Qsum (map (fun row => vdot row t * entry (unpack_sym nao row) i j) eri1).
Proof.
  intros He Hnb Hi Hj. unfold j_block, unpack_tril.
  rewrite length_vm, (rect_ncols _ _ _ He Hnb), tril_dim_tri.
  rewrite entry_unpack_sym by done.
  assert (tri (Nat.max i j) + Nat.min i j < tri nao)%nat as Hlt.
  { pose proof (tri_diag_lt (Nat.max i j) nao ltac:(lia)). lia. }
  rewrite nth_vm by (by rewrite (rect_ncols _ _ _ He Hnb)).
  unfold mv, col. rewrite vdot_map_map.
  apply Qsum_map_ext. intros row Hrow.
  assert (In row eri1 /\ True) as [Hin _] by done.
  destruct He as [_ He]. rewrite Forall_forall in He.
  rewrite entry_unpack_sym by done. reflexivity.
Qed.

(** [J] after the block loop, entry by entry: a sum over all rows of the
    factor, whatever the blocks were. *)
Lemma J_val_entry cderi s nao N t i j :
  well_shaped cderi s nao N -> (i < nao)%nat -> (j < nao)%nat ->
  entry (J_val cderi (Z.of_nat N) t (zeros nao nao)) i j ==
  Qsum (map (fun row => vdot row t * entry (unpack_sym nao row) i j)
            (factor_rows cderi)).
Proof.
  intros (Hnao & Hs & Hcd) Hi Hj. unfold J_val.
  rewrite (entry_fold_step _
    (fun b i j => Qsum (map (fun row => vdot row t * entry (unpack_sym nao row) i j)
                            (block_rows cderi b))) nao).
  - rewrite entry_zeros, <- (concat_block_rows cderi N _ Hcd) at 1.
    rewrite Qsum_map_concat, map_map. ring.
  - intros K b Hb HK. split; [by apply rect_madd|].
    rewrite (entry_madd nao) by done.
    destruct (rect_block_rows cderi N _ b Hcd Hb) as [Hnb Hr].
    rewrite (entry_j_block nao _ _ t i j Hr Hnb Hi Hj). reflexivity.
  - apply rect_zeros.
Qed.

(** The blocked, packed Coulomb loop computes the contraction of lines
    77-78. *)
Lemma J_val_ref cderi s nao N a i j :
  well_shaped cderi s nao N -> (i < nao)%nat -> (j < nao)%nat ->
  entry (J_val cderi (Z.of_nat N) (dmtril_val nao a) (zeros nao nao)) i j ==
  vj_ref cderi N nao a i j.
Proof.
  intros Hws Hi Hj. rewrite (J_val_entry cderi s nao N _ i j Hws Hi Hj).
  destruct Hws as (Hnao & Hs & Hcd).
  rewrite (Qsum_map_nth _ _ []). rewrite (proj1 Hcd). unfold vj_ref.
  apply sumn_ext. intros p Hp. unfold L_of.
  rewrite vdot_dmtril; [reflexivity|].
  apply (rect_row _ _ _ _ Hcd Hp).
Qed.

#[local] Close Scope Q_scope.

(* ================================================================= *)
(** ** The Coulomb matrix as a function of the density *)

#[local] Open Scope Q_scope.

(** On either path, once the block loop is entered, [vj] ends up holding
    [J_val] of the packed density. *)
Lemma fjk_coulomb cderi s nao N hermi dm f a st :
  well_shaped cderi s nao N ->
  heap st !! dm = Some (Arr2 f a) -> rect nao nao a ->
  (hermi = 1%Z -> exists e c, eigh a s = Some (e, c) /\ retained e = true) ->
  exists vj vk st',
    fjk cderi s nao (Some (Z.of_nat N)) hermi dm st = (inr (vj, vk), st') /\
    heap st' !! vj =
      Some (Arr2 f (J_val cderi (Z.of_nat N) (dmtril_val nao a) (zeros nao nao))) /\
    loads st' = loads st ++ block_loads (Z.of_nat N).
Proof.
  intros Hws Hdm Ha Hh.
  destruct (Z.eq_dec hermi 1%Z) as [->|Hne].
  - destruct (Hh eq_refl) as (e & c & He & Hret).
    destruct (wp_run _ _ _ (fjk_sym_ok cderi s nao N dm f a e c st Hws Hdm Ha He))
      as ([vj vk] & st' & Hrun & _ & Hj & _ & Hld).
    exists vj, vk, st'. split; [exact Hrun|].
    unfold J_sym in Hj. rewrite Hret in Hj, Hld. done.
  - destruct (wp_run _ _ _ (fjk_gen_ok cderi s nao N hermi dm f a st Hws Hdm Ha Hne))
      as ([vj vk] & st' & Hrun & _ & Hj & _ & Hld).
    by exists vj, vk, st'.
Qed.

Lemma J_val_sym cderi s nao N t i j :
  well_shaped cderi s nao N -> (i < nao)%nat -> (j < nao)%nat ->
  entry (J_val cderi (Z.of_nat N) t (zeros nao nao)) i j ==
  entry (J_val cderi (Z.of_nat N) t (zeros nao nao)) j i.
Proof.
  intros Hws Hi Hj.
  rewrite (J_val_entry cderi s nao N t i j Hws Hi Hj).
  rewrite (J_val_entry cderi s nao N t j i Hws Hj Hi).
  apply Qsum_map_ext. intros row _.
  by rewrite (unpack_sym_comm nao row i j).
Qed.

Lemma flat_dot_ext nao L a b :
  (forall k l, (k < nao)%nat -> (l < nao)%nat -> entry a k l == entry b k l) ->
  flat_dot nao L a == flat_dot nao L b.
Proof.
  intros H. unfold flat_dot. apply sumn_ext. intros k Hk.
  apply sumn_ext. intros l Hl. by rewrite (H k l Hk Hl).
Qed.

Lemma flat_dot_comb nao L a b c x y :
  (forall k l, (k < nao)%nat -> (l < nao)%nat ->
     entry c k l == x * entry a k l + y * entry b k l) ->
  flat_dot nao L c == x * flat_dot nao L a + y * flat_dot nao L b.
Proof.
  intros H. unfold flat_dot.
  rewrite <- !sumn_scal, <- sumn_add. apply sumn_ext. intros k Hk.
  rewrite <- !sumn_scal, <- sumn_add. apply sumn_ext. intros l Hl.
  rewrite (H k l Hk Hl). ring.
Qed.

(** The Coulomb contraction sees the symmetric part of the density only. *)
Lemma flat_dot_sym_part nao row a b :
  (forall k l, (k < nao)%nat -> (l < nao)%nat ->
     entry a k l + entry a l k == entry b k l + entry b l k) ->
  flat_dot nao (unpack_sym nao row) a == flat_dot nao (unpack_sym nao row) b.
Proof.
  intros H. unfold flat_dot.
  rewrite (sumn_square nao (fun k l => entry (unpack_sym nao row) k l * entry a k l)).
  rewrite (sumn_square nao (fun k l => entry (unpack_sym nao row) k l * entry b k l)).
  apply sumn_ext. intros k Hk.
  assert (entry a k k == entry b k k) as Hd.
  { pose proof (H k k Hk Hk) as Hkk.
    assert (entry a k k == (entry a k k + entry a k k) * (1 # 2)) as E1 by field.
    assert (entry b k k == (entry b k k + entry b k k) * (1 # 2)) as E2 by field.
    rewrite E1, E2, Hkk. reflexivity. }
  rewrite Hd.
  apply Qplus_inj_r. apply sumn_ext. intros l Hl.
  rewrite (unpack_sym_comm nao row l k) by lia.
  assert (entry (unpack_sym nao row) k l * entry a k l +
          entry (unpack_sym nao row) k l * entry a l k ==
          entry (unpack_sym nao row) k l * (entry a k l + entry a l k)) as ->
    by ring.
  rewrite (H k l) by lia. ring.
Qed.

Lemma vj_ref_sym_part cderi N nao a b i j :
  (forall k l, (k < nao)%nat -> (l < nao)%nat ->
     entry a k l + entry a l k == entry b k l + entry b l k) ->
  vj_ref cderi N nao a i j == vj_ref cderi N nao b i j.
Proof.
  intros H. unfold vj_ref. apply sumn_ext. intros p _. unfold L_of.
  by rewrite (flat_dot_sym_part nao _ a b H).
Qed.

Lemma vj_ref_comb cderi N nao a b c x y i j :
  (forall k l, (k < nao)%nat -> (l < nao)%nat ->
     entry c k l == x * entry a k l + y * entry b k l) ->
  vj_ref cderi N nao c i j ==
  x * vj_ref cderi N nao a i j + y * vj_ref cderi N nao b i j.
Proof.
  intros H. unfold vj_ref.
  rewrite <- !sumn_scal, <- sumn_add. apply sumn_ext. intros p _.
  rewrite (flat_dot_comb nao _ a b c x y H). ring.
Qed.

(** X1.  Once the block loop is entered (always on the general path; on
    the symmetric path when an eigenvalue is retained) the array [vj] that
    [fjk] returns holds, at every [(i, j)], the contraction that the
    comment of lines 77-78 gives for the unpacked factor:
    [sum_p (sum_kl L_p[k][l] * dm[k][l]) * L_p[i][j]] over all [N] rows of
    the factor.  The packing of [dm + dm.T] with a halved diagonal and the
    cutting of the factor into blocks of [BLOCKDIM] rows do not change the
    result. *)
Theorem coulomb_reference cderi s nao N hermi dm f a st :
  well_shaped cderi s nao N ->
  heap st !! dm = Some (Arr2 f a) -> rect nao nao a ->
  (hermi = 1%Z ->
   exists e c, eigh a s = Some (e, c) /\
               (0 < count_true (pos_mask e) + count_true (neg_mask e))%nat) ->
  exists vj vk st' J,
    fjk cderi s nao (Some (Z.of_nat N)) hermi dm st = (inr (vj, vk), st') /\
    heap st' !! vj = Some (Arr2 f J) /\
    rect nao nao J /\
    forall i j, (i < nao)%nat -> (j < nao)%nat ->
      entry J i j == vj_ref cderi N nao a i j.
Proof.
  intros Hws Hdm Ha Hh.
  destruct (fjk_coulomb cderi s nao N hermi dm f a st Hws Hdm Ha)
    as (vj & vk & st' & Hrun & Hj & _).
  { intros H1. destruct (Hh H1) as (e & c & He & Hc). exists e, c.
    split; [exact He|]. unfold retained. by apply Nat.ltb_lt. }
  exists vj, vk, st', (J_val cderi (Z.of_nat N) (dmtril_val nao a) (zeros nao nao)).
  split; [exact Hrun|]. split; [exact Hj|]. split.
  - apply rect_J_val, rect_zeros.
  - intros i j Hi Hj'. by apply (J_val_ref cderi s).
Qed.

(** X2.  On well-shaped input the Coulomb matrix [fjk] returns is a
    symmetric array, [J[i][j] = J[j][i]], on either path and also for a
    density that is not symmetric: every block adds
    [unpack_tril(buf, 1)]. *)
Theorem coulomb_symmetric cderi s nao N hermi dm f a st :
  well_shaped cderi s nao N ->
  heap st !! dm = Some (Arr2 f a) -> rect nao nao a ->
  (hermi = 1%Z -> is_Some (eigh a s)) ->
  exists vj vk st' J,
    fjk cderi s nao (Some (Z.of_nat N)) hermi dm st = (inr (vj, vk), st') /\
    heap st' !! vj = Some (Arr2 f J) /\
    forall i j, (i < nao)%nat -> (j < nao)%nat -> entry J i j == entry J j i.
Proof.
  intros Hws Hdm Ha Hh.
  destruct (Z.eq_dec hermi 1%Z) as [->|Hne].
  - destruct (Hh eq_refl) as [[e c] He].
    destruct (wp_run _ _ _ (fjk_sym_ok cderi s nao N dm f a e c st Hws Hdm Ha He))
      as ([vj vk] & st' & Hrun & _ & Hj & _ & _).
    exists vj, vk, st', (J_sym cderi (Z.of_nat N) nao a e).
    split; [exact Hrun|]. split; [exact Hj|].
    intros i j Hi Hj'. unfold J_sym. destruct (retained e).
    + by apply (J_val_sym cderi s).
    + by rewrite !entry_zeros.
  - destruct (wp_run _ _ _ (fjk_gen_ok cderi s nao N hermi dm f a st Hws Hdm Ha Hne))
      as ([vj vk] & st' & Hrun & _ & Hj & _ & _).
    exists vj, vk, st', (J_val cderi (Z.of_nat N) (dmtril_val nao a) (zeros nao nao)).
    split; [exact Hrun|]. split; [exact Hj|].
    intros i j Hi Hj'. by apply (J_val_sym cderi s).
Qed.

(** X3.  On the general path the Coulomb matrix depends on the density
    through [dm + dm.T] only: two densities with the same symmetric part,
    in particular a density and its transpose, give the same [J]. *)
Theorem coulomb_sees_symmetric_part cderi s nao N hermi dm1 dm2 f1 f2 a b st :
  well_shaped cderi s nao N ->
  heap st !! dm1 = Some (Arr2 f1 a) -> rect nao nao a ->
  heap st !! dm2 = Some (Arr2 f2 b) -> rect nao nao b ->
  hermi <> 1%Z ->
  (forall k l, (k < nao)%nat -> (l < nao)%nat ->
     entry a k l + entry a l k == entry b k l + entry b l k) ->
  exists vj1 vk1 st1 J1 vj2 vk2 st2 J2,
    fjk cderi s nao (Some (Z.of_nat N)) hermi dm1 st = (inr (vj1, vk1), st1) /\
    heap st1 !! vj1 = Some (Arr2 f1 J1) /\
    fjk cderi s nao (Some (Z.of_nat N)) hermi dm2 st = (inr (vj2, vk2), st2) /\
    heap st2 !! vj2 = Some (Arr2 f2 J2) /\
    forall i j, (i < nao)%nat -> (j < nao)%nat -> entry J1 i j == entry J2 i j.
Proof.
  intros Hws Hdm1 Ha Hdm2 Hb Hne Hab.
  destruct (fjk_coulomb cderi s nao N hermi dm1 f1 a st Hws Hdm1 Ha)
    as (vj1 & vk1 & st1 & Hrun1 & Hj1 & _); [done|].
  destruct (fjk_coulomb cderi s nao N hermi dm2 f2 b st Hws Hdm2 Hb)
    as (vj2 & vk2 & st2 & Hrun2 & Hj2 & _); [done|].
  eexists vj1, vk1, st1, _, vj2, vk2, st2, _.
  split; [exact Hrun1|]. split; [exact Hj1|].
  split; [exact Hrun2|]. split; [exact Hj2|].
  intros i j Hi Hj.
  rewrite !(J_val_ref cderi s) by done.
  by apply vj_ref_sym_part.
Qed.

(** X4.  On the general path the Coulomb matrix is linear in the density:
    for [dm3 = x * dm1 + y * dm2] the three calls give
    [J3 = x * J1 + y * J2].  With [x = 1], [y = -1] this is the case of a
    density-matrix difference that the comment of lines 89-90 mentions. *)
Theorem coulomb_linear cderi s nao N hermi dm1 dm2 dm3 f1 f2 f3 a b c x y st :
  well_shaped cderi s nao N ->
  heap st !! dm1 = Some (Arr2 f1 a) -> rect nao nao a ->
  heap st !! dm2 = Some (Arr2 f2 b) -> rect nao nao b ->
  heap st !! dm3 = Some (Arr2 f3 c) -> rect nao nao c ->
  hermi <> 1%Z ->
  (forall k l, (k < nao)%nat -> (l < nao)%nat ->
     entry c k l == x * entry a k l + y * entry b k l) ->
  exists vj1 vk1 st1 J1 vj2 vk2 st2 J2 vj3 vk3 st3 J3,
    fjk cderi s nao (Some (Z.of_nat N)) hermi dm1 st = (inr (vj1, vk1), st1) /\
    heap st1 !! vj1 = Some (Arr2 f1 J1) /\
    fjk cderi s nao (Some (Z.of_nat N)) hermi dm2 st = (inr (vj2, vk2), st2) /\
    heap st2 !! vj2 = Some (Arr2 f2 J2) /\
    fjk cderi s nao (Some (Z.of_nat N)) hermi dm3 st = (inr (vj3, vk3), st3) /\
    heap st3 !! vj3 = Some (Arr2 f3 J3) /\
    forall i j, (i < nao)%nat -> (j < nao)%nat ->
      entry J3 i j == x * entry J1 i j + y * entry J2 i j.
Proof.
  intros Hws Hdm1 Ha Hdm2 Hb Hdm3 Hc Hne Hlin.
  destruct (fjk_coulomb cderi s nao N hermi dm1 f1 a st Hws Hdm1 Ha)
    as (vj1 & vk1 & st1 & Hrun1 & Hj1 & _); [done|].
  destruct (fjk_coulomb cderi s nao N hermi dm2 f2 b st Hws Hdm2 Hb)
    as (vj2 & vk2 & st2 & Hrun2 & Hj2 & _); [done|].
  destruct (fjk_coulomb cderi s nao N hermi dm3 f3 c st Hws Hdm3 Hc)
    as (vj3 & vk3 & st3 & Hrun3 & Hj3 & _); [done|].
  eexists vj1, vk1, st1, _, vj2, vk2, st2, _, vj3, vk3, st3, _.
  split; [exact Hrun1|]. split; [exact Hj1|].
  split; [exact Hrun2|]. split; [exact Hj2|].
  split; [exact Hrun3|]. split; [exact Hj3|].
  intros i j Hi Hj.
  rewrite !(J_val_ref cderi s) by done.
  by apply vj_ref_comb.
Qed.

(** X5.  For a density of which at least one eigenvalue is retained, the
    symmetric path and the general path leave the very same Coulomb
    matrix in [vj] and read the same blocks of the factor. *)
Theorem coulomb_same_on_both_paths cderi s nao N hermi dm f a e c st :
  well_shaped cderi s nao N ->
  heap st !! dm = Some (Arr2 f a) -> rect nao nao a ->
  eigh a s = Some (e, c) ->
  (0 < count_true (pos_mask e) + count_true (neg_mask e))%nat ->
  hermi <> 1%Z ->
  exists vj1 vk1 st1 vj2 vk2 st2 J,
    fjk cderi s nao (Some (Z.of_nat N)) 1 dm st = (inr (vj1, vk1), st1) /\
    fjk cderi s nao (Some (Z.of_nat N)) hermi dm st = (inr (vj2, vk2), st2) /\
    heap st1 !! vj1 = Some (Arr2 f J) /\
    heap st2 !! vj2 = Some (Arr2 f J) /\
    loads st1 = loads st2.
Proof.
  intros Hws Hdm Ha He Hret Hne.
  destruct (wp_run _ _ _ (fjk_sym_ok cderi s nao N dm f a e c st Hws Hdm Ha He))
    as ([vj1 vk1] & st1 & Hrun1 & Hr1 & Hj1 & _ & Hld1).
  destruct (wp_run _ _ _ (fjk_gen_ok cderi s nao N hermi dm f a st Hws Hdm Ha Hne))
    as ([vj2 vk2] & st2 & Hrun2 & Hr2 & Hj2 & _ & Hld2).
  assert (retained e = true) as Hr by (unfold retained; by apply Nat.ltb_lt).
  unfold J_sym in Hj1. rewrite Hr in Hj1, Hld1.
  eexists vj1, vk1, st1, vj2, vk2, st2, _.
  split; [exact Hrun1|]. split; [exact Hrun2|].
  split; [exact Hj1|]. split; [exact Hj2|].
  by rewrite Hld1, Hld2.
Qed.

#[local] Close Scope Q_scope.

(* ================================================================= *)
(** ** The exchange matrix: symmetry, sign and linearity *)

#[local] Open Scope Q_scope.

Lemma qform_ext n F G x :
  (forall i j, (i < n)%nat -> (j < n)%nat -> F i j == G i j) ->
  qform n F x == qform n G x.
Proof.
  intros H. unfold qform. apply sumn_ext. intros i Hi.
  apply sumn_ext. intros j Hj. by rewrite (H i j Hi Hj).
Qed.

Lemma qform_zero n x : qform n (fun _ _ => 0) x == 0.
Proof.
  unfold qform. apply sumn_zero. intros i _. apply sumn_zero. intros j _. ring.
Qed.

Lemma qform_add n F G x :
  qform n (fun i j => F i j + G i j) x == qform n F x + qform n G x.
Proof.
  unfold qform. rewrite <- sumn_add. apply sumn_ext. intros i _.
  rewrite <- sumn_add. apply sumn_ext. intros j _. ring.
Qed.

Lemma qform_sub n F G x :
  qform n (fun i j => F i j - G i j) x == qform n F x - qform n G x.
Proof.
  unfold qform, sumn. rewrite <- Qsum_map_sub. apply Qsum_map_ext. intros i _.
  rewrite <- Qsum_map_sub. apply Qsum_map_ext. intros j _. ring.
Qed.

Lemma qform_Qsum {A} n (G : A -> nat -> nat -> Q) (l : list A) x :
  qform n (fun i j => Qsum (map (fun z => G z i j) l)) x ==
  Qsum (map (fun z => qform n (G z) x) l).
Proof.
  induction l as [|z l IH].
  - cbn [map]. rewrite Qsum_nil. apply qform_zero.
  - cbn [map]. rewrite Qsum_cons, <- IH, <- qform_add.
    apply qform_ext. intros i j _ _. by rewrite Qsum_cons.
Qed.

Lemma qform_sumn n m (G : nat -> nat -> nat -> Q) x :
  qform n (fun i j => sumn m (fun k => G k i j)) x ==
  sumn m (fun k => qform n (G k) x).
Proof. exact (qform_Qsum n G (seq 0 m) x). Qed.

Lemma qform_rank1 n (h : nat -> Q) x :
  qform n (fun i j => h i * h j) x ==
  sumn n (fun i => x i * h i) * sumn n (fun i => x i * h i).
Proof.
  unfold qform. rewrite <- sumn_scal_r. apply sumn_ext. intros i _.
  rewrite <- sumn_scal. apply sumn_ext. intros j _. ring.
Qed.

Lemma Qsquare_nonneg (q : Q) : 0 <= q * q.
Proof.
  destruct q as [a d]. unfold Qle, Qmult. cbn [Qnum Qden].
  rewrite Z.mul_0_l, Z.mul_1_r. apply Z.square_nonneg.
Qed.

Lemma Qsum_map_nonneg {A} (f : A -> Q) l :
  (forall z, In z l -> 0 <= f z) -> 0 <= Qsum (map f l).
Proof.
  induction l as [|z l IH]; intros H; cbn [map].
  - rewrite Qsum_nil. apply Qle_refl.
  - rewrite Qsum_cons.
    rewrite <- (Qplus_0_r 0). apply Qplus_le_compat.
    + apply H. by left.
    + apply IH. intros z' Hz'. apply H. by right.
Qed.

Lemma sumn_nonneg n f : (forall k, (k < n)%nat -> 0 <= f k) -> 0 <= sumn n f.
Proof.
  intros H. unfold sumn. apply Qsum_map_nonneg. intros k Hk.
  apply in_seq in Hk. apply H. lia.
Qed.

(** The quadratic form of one exchange contribution [buf.T . buf] is a sum
    of squares. *)
Lemma qform_k_half nao eri1 coef x :
  eri1 <> [] ->
  qform nao (entry (k_half nao eri1 coef)) x ==
  Qsum (map (fun row =>
    sumn (ncols coef) (fun k =>
      sumn nao (fun i => x i * half nao coef row k i) *
      sumn nao (fun i => x i * half nao coef row k i))) eri1).
Proof.
  intros Hne.
  rewrite (qform_ext nao _
    (fun i j => Qsum (map (fun row => sumn (ncols coef)
       (fun k => half nao coef row k i * half nao coef row k j)) eri1)))
    by (intros i j Hi Hj; by apply entry_k_half).
  rewrite qform_Qsum. apply Qsum_map_ext. intros row _.
  rewrite qform_sumn. apply sumn_ext. intros k _.
  apply qform_rank1.
Qed.

Lemma qform_k_half_nonneg nao eri1 coef x :
  eri1 <> [] -> 0 <= qform nao (entry (k_half nao eri1 coef)) x.
Proof.
  intros Hne. rewrite (qform_k_half nao eri1 coef x Hne).
  apply Qsum_map_nonneg. intros row _. apply sumn_nonneg. intros k _.
  apply Qsquare_nonneg.
Qed.

Lemma qform_k_half_empty nao eri1 coef x :
  eri1 <> [] -> ncols coef = 0%nat ->
  qform nao (entry (k_half nao eri1 coef)) x == 0.
Proof.
  intros Hne H0. rewrite (qform_k_half nao eri1 coef x Hne), H0.
  apply Qsum_map_zero. intros row _. reflexivity.
Qed.

(** [K] of the symmetric path, entry by entry, for any two coefficient
    arrays. *)
Lemma K_sym_entry_blocks cderi s nao N cpos cneg i j :
  well_shaped cderi s nao N -> (i < nao)%nat -> (j < nao)%nat ->
  entry (K_sym cderi (Z.of_nat N) nao cpos cneg (zeros nao nao)) i j ==
  Qsum (map (fun b => entry (k_half nao (block_rows cderi b) cpos) i j -
                      entry (k_half nao (block_rows cderi b) cneg) i j)
            (aux_blocks (Z.of_nat N))).
Proof.
  intros (Hnao & Hs & Hcd) Hi Hj. unfold K_sym.
  rewrite (entry_fold_step _
    (fun b i j => entry (k_half nao (block_rows cderi b) cpos) i j -
                  entry (k_half nao (block_rows cderi b) cneg) i j) nao).
  - rewrite entry_zeros. ring.
  - intros K b Hb HK.
    pose proof (block_rows_nonempty _ _ _ _ Hcd Hb) as Hne.
    assert (rect nao nao (k_step madd nao (block_rows cderi b) cpos K)) as HK1.
    { apply rect_k_step; [intros; by apply rect_madd|done]. }
    split; [apply rect_k_step; [intros; by apply rect_msub|done]|].
    rewrite entry_k_step_msub, entry_k_step_madd by done. ring.
  - apply rect_zeros.
Qed.

Lemma qform_K_sym cderi s nao N cpos cneg x :
  well_shaped cderi s nao N ->
  qform nao (entry (K_sym cderi (Z.of_nat N) nao cpos cneg (zeros nao nao))) x ==
  Qsum (map (fun b => qform nao (entry (k_half nao (block_rows cderi b) cpos)) x)
            (aux_blocks (Z.of_nat N))) -
  Qsum (map (fun b => qform nao (entry (k_half nao (block_rows cderi b) cneg)) x)
            (aux_blocks (Z.of_nat N))).
Proof.
  intros Hws.
  rewrite (qform_ext nao _ _ x
    (fun i j Hi Hj => K_sym_entry_blocks cderi s nao N cpos cneg i j Hws Hi Hj)).
  rewrite qform_Qsum, <- Qsum_map_sub. apply Qsum_map_ext. intros b _.
  apply qform_sub.
Qed.

Lemma ncols_cneg_none c e :
  Forall (fun x => - OCCDROP <= x) e -> ncols (cneg_of c e) = 0%nat.
Proof.
  intros H. unfold cneg_of.
  assert (count_true (neg_mask e) = 0%nat) as H0.
  { apply count_true_zero_iff. unfold neg_mask. apply Forall_map.
    eapply Forall_impl; [exact H|]. intros x Hx. cbn.
    destruct (Qltb x (- OCCDROP)) eqn:E; [|done].
    apply Qltb_lt in E. exfalso. by apply (Qlt_not_le _ _ E). }
  pose proof (ncols_scaled_le c (neg_mask e)
                (map (fun x => np_sqrt (- x)) (select e (neg_mask e)))) as Hle.
  rewrite length_map in Hle.
  pose proof (length_select_le e (neg_mask e)). lia.
Qed.

Lemma ncols_cpos_none c e :
  Forall (fun x => x <= OCCDROP) e -> ncols (cpos_of c e) = 0%nat.
Proof.
  intros H. unfold cpos_of.
  assert (count_true (pos_mask e) = 0%nat) as H0.
  { apply count_true_zero_iff. unfold pos_mask. apply Forall_map.
    eapply Forall_impl; [exact H|]. intros x Hx. cbn.
    destruct (Qltb OCCDROP x) eqn:E; [|done].
    apply Qltb_lt in E. exfalso. by apply (Qlt_not_le _ _ E). }
  pose proof (ncols_scaled_le c (pos_mask e)
                (map np_sqrt (select e (pos_mask e)))) as Hle.
  rewrite length_map in Hle.
  pose proof (length_select_le e (pos_mask e)). lia.
Qed.

(** X6.  On the symmetric path the exchange matrix [fjk] returns is a
    symmetric array, [K[i][j] = K[j][i]], whatever eigenpairs the solver
    returned: every contribution is [numpy.dot(buf.T, buf)]. *)
Theorem exchange_symmetric cderi s nao N dm f a e c st :
  well_shaped cderi s nao N ->
  heap st !! dm = Some (Arr2 f a) -> rect nao nao a ->
  eigh a s = Some (e, c) ->
  exists vj vk st' K,
    fjk cderi s nao (Some (Z.of_nat N)) 1 dm st = (inr (vj, vk), st') /\
    heap st' !! vk = Some (Arr2 f K) /\
    forall i j, (i < nao)%nat -> (j < nao)%nat -> entry K i j == entry K j i.
Proof.
  intros Hws Hdm Ha He.
  destruct (wp_run _ _ _ (fjk_sym_ok cderi s nao N dm f a e c st Hws Hdm Ha He))
    as ([vj vk] & st' & Hrun & _ & _ & Hk & _).
  exists vj, vk, st', (K_sym_val cderi (Z.of_nat N) nao c e).
  split; [exact Hrun|]. split; [exact Hk|].
  intros i j Hi Hj. unfold K_sym_val. destruct (retained e).
  - rewrite (K_sym_entry_blocks cderi s nao N _ _ i j Hws Hi Hj).
    rewrite (K_sym_entry_blocks cderi s nao N _ _ j i Hws Hj Hi).
    apply Qsum_map_ext. intros b Hb.
    destruct Hws as (_ & _ & Hcd).
    pose proof (block_rows_nonempty _ _ _ _ Hcd Hb) as Hne.
    rewrite !entry_k_half by done.
    apply Qplus_comp; [|apply Qopp_comp];
      (apply Qsum_map_ext; intros row _; apply sumn_ext; intros k _; ring).
  - by rewrite !entry_zeros.
Qed.

(** X7.  On the symmetric path the sign of the exchange matrix follows the
    sign of the eigenvalues that are kept: when no eigenvalue is below
    [-OCCDROP] the quadratic form [x^T K x] is non-negative for every
    vector [x] ([K] is positive semidefinite), and when none is above
    [OCCDROP] it is non-positive.  No property of the eigenvectors or of
    [sqrt] is needed: the contributions are [+buf.T.buf] and
    [-buf.T.buf]. *)
Theorem exchange_semidefinite cderi s nao N dm f a e c st :
  well_shaped cderi s nao N ->
  heap st !! dm = Some (Arr2 f a) -> rect nao nao a ->
  eigh a s = Some (e, c) ->
  exists vj vk st' K,
    fjk cderi s nao (Some (Z.of_nat N)) 1 dm st = (inr (vj, vk), st') /\
    heap st' !! vk = Some (Arr2 f K) /\
    (Forall (fun x => - OCCDROP <= x) e -> forall x, 0 <= quad_form nao K x) /\
    (Forall (fun x => x <= OCCDROP) e -> forall x, quad_form nao K x <= 0).
Proof.
  intros Hws Hdm Ha He.
  destruct (wp_run _ _ _ (fjk_sym_ok cderi s nao N dm f a e c st Hws Hdm Ha He))
    as ([vj vk] & st' & Hrun & _ & _ & Hk & _).
  exists vj, vk, st', (K_sym_val cderi (Z.of_nat N) nao c e).
  split; [exact Hrun|]. split; [exact Hk|].
  assert (forall coef x,
            0 <= Qsum (map (fun b =>
                   qform nao (entry (k_half nao (block_rows cderi b) coef)) x)
                   (aux_blocks (Z.of_nat N)))) as Hpos.
  { intros coef x. apply Qsum_map_nonneg. intros b Hb.
    apply qform_k_half_nonneg.
    destruct Hws as (_ & _ & Hcd). by eapply block_rows_nonempty. }
  assert (forall coef x, ncols coef = 0%nat ->
            Qsum (map (fun b =>
              qform nao (entry (k_half nao (block_rows cderi b) coef)) x)
              (aux_blocks (Z.of_nat N))) == 0) as Hnone.
  { intros coef x H0. apply Qsum_map_zero. intros b Hb.
    apply qform_k_half_empty; [|done].
    destruct Hws as (_ & _ & Hcd). by eapply block_rows_nonempty. }
  assert (forall x, qform nao (entry (zeros nao nao)) x == 0) as Hz.
  { intros x. rewrite (qform_ext nao _ (fun _ _ => 0)).
    - apply qform_zero.
    - intros i j _ _. apply entry_zeros. }
  unfold K_sym_val, quad_form. split.
  - intros Hall x. destruct (retained e).
    + rewrite (qform_K_sym cderi s nao N _ _ _ Hws).
      rewrite (Hnone (cneg_of c e) _ (ncols_cneg_none c e Hall)).
      unfold Qminus. rewrite Qplus_0_r. apply Hpos.
    + rewrite Hz. apply Qle_refl.
  - intros Hall x. destruct (retained e).
    + rewrite (qform_K_sym cderi s nao N _ _ _ Hws).
      rewrite (Hnone (cpos_of c e) _ (ncols_cpos_none c e Hall)).
      unfold Qminus. rewrite Qplus_0_l.
      apply (Qopp_le_compat 0), Hpos.
    + rewrite Hz. apply Qle_refl.
Qed.

(** [K] of the general path, entry by entry. *)
Lemma K_gen_entry_blocks cderi s nao N a i j :
  well_shaped cderi s nao N -> (i < nao)%nat -> (j < nao)%nat ->
  entry (K_gen cderi (Z.of_nat N) nao a (zeros nao nao)) i j ==
  Qsum (map (fun b => Qsum (map (fun row =>
         sumn nao (fun k => half nao a row k i * entry (unpack_sym nao row) k j))
         (block_rows cderi b)))
       (aux_blocks (Z.of_nat N))).
Proof.
  intros (Hnao & Hs & Hcd) Hi Hj. unfold K_gen.
  rewrite (entry_fold_step _
    (fun b i j => Qsum (map (fun row =>
       sumn nao (fun k => half nao a row k i * entry (unpack_sym nao row) k j))
       (block_rows cderi b))) nao).
  - rewrite entry_zeros. ring.
  - intros K b Hb HK.
    pose proof (block_rows_nonempty _ _ _ _ Hcd Hb) as Hne.
    split; [by apply rect_madd|].
    rewrite (entry_madd nao) by done. apply Qplus_comp; [reflexivity|].
    by rewrite entry_k_gen_block.
  - apply rect_zeros.
Qed.

Lemma half_comb nao a b c x y row k i :
  (k < nao)%nat ->
  (forall p q, (p < nao)%nat -> (q < nao)%nat ->
     entry c p q == x * entry a p q + y * entry b p q) ->
  half nao c row k i == x * half nao a row k i + y * half nao b row k i.
Proof.
  intros Hk H. unfold half.
  rewrite <- !sumn_scal, <- sumn_add. apply sumn_ext. intros j Hj.
  rewrite (H j k Hj Hk). ring.
Qed.

(** X8.  On the general path the exchange matrix is linear in the density:
    for [dm3 = x * dm1 + y * dm2] the three calls give
    [K3 = x * K1 + y * K2]. *)
Theorem exchange_linear cderi s nao N hermi dm1 dm2 dm3 f1 f2 f3 a b c x y st :
  well_shaped cderi s nao N ->
  heap st !! dm1 = Some (Arr2 f1 a) -> rect nao nao a ->
  heap st !! dm2 = Some (Arr2 f2 b) -> rect nao nao b ->
  heap st !! dm3 = Some (Arr2 f3 c) -> rect nao nao c ->
  hermi <> 1%Z ->
  (forall k l, (k < nao)%nat -> (l < nao)%nat ->
     entry c k l == x * entry a k l + y * entry b k l) ->
  exists vj1 vk1 st1 K1 vj2 vk2 st2 K2 vj3 vk3 st3 K3,
    fjk cderi s nao (Some (Z.of_nat N)) hermi dm1 st = (inr (vj1, vk1), st1) /\
    heap st1 !! vk1 = Some (Arr2 f1 K1) /\
    fjk cderi s nao (Some (Z.of_nat N)) hermi dm2 st = (inr (vj2, vk2), st2) /\
    heap st2 !! vk2 = Some (Arr2 f2 K2) /\
    fjk cderi s nao (Some (Z.of_nat N)) hermi dm3 st = (inr (vj3, vk3), st3) /\
    heap st3 !! vk3 = Some (Arr2 f3 K3) /\
    forall i j, (i < nao)%nat -> (j < nao)%nat ->
      entry K3 i j == x * entry K1 i j + y * entry K2 i j.
Proof.
  intros Hws Hdm1 Ha Hdm2 Hb Hdm3 Hc Hne Hlin.
  destruct (wp_run _ _ _ (fjk_gen_ok cderi s nao N hermi dm1 f1 a st Hws Hdm1 Ha Hne))
    as ([vj1 vk1] & st1 & Hrun1 & _ & _ & Hk1 & _).
  destruct (wp_run _ _ _ (fjk_gen_ok cderi s nao N hermi dm2 f2 b st Hws Hdm2 Hb Hne))
    as ([vj2 vk2] & st2 & Hrun2 & _ & _ & Hk2 & _).
  destruct (wp_run _ _ _ (fjk_gen_ok cderi s nao N hermi dm3 f3 c st Hws Hdm3 Hc Hne))
    as ([vj3 vk3] & st3 & Hrun3 & _ & _ & Hk3 & _).
  eexists vj1, vk1, st1, _, vj2, vk2, st2, _, vj3, vk3, st3, _.
  split; [exact Hrun1|]. split; [exact Hk1|].
  split; [exact Hrun2|]. split; [exact Hk2|].
  split; [exact Hrun3|]. split; [exact Hk3|].
  intros i j Hi Hj.
  rewrite !(K_gen_entry_blocks cderi s nao N _ i j Hws Hi Hj).
  rewrite <- !Qsum_map_scal, <- Qsum_map_add. apply Qsum_map_ext. intros blk _.
  rewrite <- !Qsum_map_scal, <- Qsum_map_add. apply Qsum_map_ext. intros row _.
  rewrite <- !sumn_scal, <- sumn_add. apply sumn_ext. intros k Hk.
  rewrite (half_comb nao a b c x y row k i Hk Hlin). ring.
Qed.

#[local] Close Scope Q_scope.

(* ================================================================= *)
(** ** The two exchange paths on one density *)

#[local] Open Scope Q_scope.

Lemma nth_used_weights e m :
  (m < length e)%nat -> nth m (used_weights e) 0 = used_weight (nth m e 0).
Proof. intros Hm. unfold used_weights. by rewrite (nth_map' _ _ _ 0). Qed.

Lemma nth_weight_gap e m :
  (m < length e)%nat ->
  nth m (weight_gap e) 0 = nth m e 0 - used_weight (nth m e 0).
Proof. intros Hm. unfold weight_gap. by rewrite (nth_map' _ _ _ 0). Qed.

(** The contribution of one sign class, whatever the square root returns:
    eigenpair [m] enters with the square of the factor [g] that scaled its
    column. *)
Lemma entry_k_half_sq nao c e mask (g : Q -> Q) eri1 i j :
  (0 < nao)%nat -> rect nao (length e) c -> length mask = length e ->
  eri1 <> [] -> (i < nao)%nat -> (j < nao)%nat ->
  entry (k_half nao eri1 (einsum_ij_j (select_cols c mask) (map g (select e mask))))
        i j ==
  Qsum (map (fun row =>
    sumn (length e) (fun m =>
      (if nth m mask false then g (nth m e 0) * g (nth m e 0) else 0) *
      half nao c row m i * half nao c row m j)) eri1).
Proof.
  intros Hnao Hc Hm Hne Hi Hj.
  rewrite entry_k_half by done. rewrite (ncols_scaled nao) by done.
  apply Qsum_map_ext. intros row _.
  pose (G := fun m => g (nth m e 0) * g (nth m e 0) *
                      half nao c row m i * half nao c row m j).
  assert (length (mask_index mask) = count_true mask) as Hlen
    by apply length_mask_index_from.
  transitivity (sumn (count_true mask) (fun k => G (nth k (mask_index mask) 0%nat))).
  { apply sumn_ext. intros k Hk.
    rewrite !(half_scaled nao c e mask g row k) by done.
    subst G. cbn beta. ring. }
  transitivity (Qsum (map G (mask_index mask))).
  { unfold sumn. rewrite <- Hlen.
    replace (map (fun k => G (nth k (mask_index mask) 0%nat))
                 (seq 0 (length (mask_index mask))))
      with (map G (map (fun k => nth k (mask_index mask) 0%nat)
                       (seq 0 (length (mask_index mask)))))
      by (by rewrite map_map).
    rewrite map_seq_nth. reflexivity. }
  rewrite Qsum_mask_index, Hm. apply sumn_ext. intros m _. subst G. cbn beta.
  destruct (nth m mask false); ring.
Qed.

(** [K] of the symmetric path, entry by entry, with the weights the path
    really uses. *)
Lemma K_sym_entry_used cderi s nao N c e i j :
  well_shaped cderi s nao N -> rect nao (length e) c ->
  (i < nao)%nat -> (j < nao)%nat ->
  entry (K_sym cderi (Z.of_nat N) nao (cpos_of c e) (cneg_of c e) (zeros nao nao)) i j
  == pair_sum cderi (Z.of_nat N) nao c (used_weights e) i j.
Proof.
  intros (Hnao & Hs & Hcd) Hc Hi Hj. unfold K_sym.
  assert (length (pos_mask e) = length e) as Hlp by apply length_map.
  assert (length (neg_mask e) = length e) as Hln by apply length_map.
  rewrite (entry_fold_step _
    (fun b i j => Qsum (map (fun row =>
       sumn (length e) (fun m =>
         nth m (used_weights e) 0 * half nao c row m i * half nao c row m j))
       (block_rows cderi b))) nao).
  - rewrite entry_zeros. unfold pair_sum, used_weights. rewrite length_map. ring.
  - intros K b Hb HK.
    pose proof (block_rows_nonempty _ _ _ _ Hcd Hb) as Hne.
    assert (rect nao nao (k_step madd nao (block_rows cderi b) (cpos_of c e) K)) as HK1.
    { apply rect_k_step; [intros; by apply rect_madd|done]. }
    split; [apply rect_k_step; [intros; by apply rect_msub|done]|].
    rewrite entry_k_step_msub, entry_k_step_madd by done.
    unfold cpos_of, cneg_of.
    rewrite (entry_k_half_sq nao c e (pos_mask e) np_sqrt) by done.
    rewrite (entry_k_half_sq nao c e (neg_mask e) (fun x => np_sqrt (- x))) by done.
    match goal with
    | |- ?k + ?P - ?Nn == ?k + ?T =>
        assert (T == P - Nn) as ET; [|rewrite ET; ring]
    end.
    rewrite <- Qsum_map_sub. apply Qsum_map_ext. intros row _.
    unfold sumn. rewrite <- Qsum_map_sub.
    apply Qsum_map_ext. intros m Hm. apply in_seq in Hm.
    rewrite nth_used_weights, nth_pos_mask, nth_neg_mask by lia.
    unfold used_weight.
    destruct (Qltb OCCDROP (nth m e 0)) eqn:Ep, (Qltb (nth m e 0) (- OCCDROP)) eqn:En;
      try ring.
    exfalso. by eapply masks_exclusive.
  - apply rect_zeros.
Qed.

Lemma used_weights_none e m :
  retained e = false -> (m < length e)%nat -> nth m (used_weights e) 0 == 0.
Proof.
  intros Hr Hm. unfold retained in Hr. apply Nat.ltb_ge in Hr.
  assert (count_true (pos_mask e) = 0%nat) as Hp by lia.
  assert (count_true (neg_mask e) = 0%nat) as Hn by lia.
  apply count_true_zero_iff in Hp, Hn. rewrite Forall_forall in Hp, Hn.
  assert (nth m (pos_mask e) false = false) as Hp'.
  { apply Hp, list_elem_of_In, nth_In. unfold pos_mask. by rewrite length_map. }
  assert (nth m (neg_mask e) false = false) as Hn'.
  { apply Hn, list_elem_of_In, nth_In. unfold neg_mask. by rewrite length_map. }
  rewrite nth_pos_mask in Hp' by done. rewrite nth_neg_mask in Hn' by done.
  rewrite nth_used_weights by done. unfold used_weight. rewrite Hp', Hn'.
  reflexivity.
Qed.

(** [K] of the general path is linear in the density, entry by entry. *)
Lemma K_gen_comb cderi s nao N a b c x y i j :
  well_shaped cderi s nao N -> (i < nao)%nat -> (j < nao)%nat ->
  (forall p q, (p < nao)%nat -> (q < nao)%nat ->
     entry c p q == x * entry a p q + y * entry b p q) ->
  entry (K_gen cderi (Z.of_nat N) nao c (zeros nao nao)) i j ==
  x * entry (K_gen cderi (Z.of_nat N) nao a (zeros nao nao)) i j +
  y * entry (K_gen cderi (Z.of_nat N) nao b (zeros nao nao)) i j.
Proof.
  intros Hws Hi Hj Hlin.
  rewrite !(K_gen_entry_blocks cderi s nao N _ i j Hws Hi Hj).
  rewrite <- !Qsum_map_scal, <- Qsum_map_add. apply Qsum_map_ext. intros blk _.
  rewrite <- !Qsum_map_scal, <- Qsum_map_add. apply Qsum_map_ext. intros row _.
  rewrite <- !sumn_scal, <- sumn_add. apply sumn_ext. intros k Hk.
  rewrite (half_comb nao a b c x y row k i Hk Hlin). ring.
Qed.

Lemma Qsum_map_abs_le {A} (f : A -> Q) l :
  Qabs (Qsum (map f l)) <= Qsum (map (fun x => Qabs (f x)) l).
Proof.
  induction l as [|x l IH]; cbn [map].
  - rewrite !Qsum_nil. done.
  - rewrite !Qsum_cons. eapply Qle_trans; [apply Qabs_triangle|].
    apply Qplus_le_compat; [apply Qle_refl|exact IH].
Qed.

Lemma Qsum_map_le {A} (f g : A -> Q) l :
  (forall x, In x l -> f x <= g x) -> Qsum (map f l) <= Qsum (map g l).
Proof.
  induction l as [|x l IH]; intros H; cbn [map].
  - rewrite !Qsum_nil. apply Qle_refl.
  - rewrite !Qsum_cons. apply Qplus_le_compat; [apply H; by left|].
    apply IH. intros; apply H; by right.
Qed.

(** A sum of pair products is bounded through the size of its weights. *)
Lemma pair_sum_bound cderi n nao c w tol i j :
  Forall (fun x => Qabs x <= tol) w ->
  Qabs (pair_sum cderi n nao c w i j) <=
  tol * pair_abs cderi n nao c (length w) i j.
Proof.
  intros Hw. unfold pair_sum, pair_abs.
  eapply Qle_trans; [apply Qsum_map_abs_le|].
  rewrite <- Qsum_map_scal. apply Qsum_map_le. intros b _.
  eapply Qle_trans; [apply Qsum_map_abs_le|].
  rewrite <- Qsum_map_scal. apply Qsum_map_le. intros row _.
  unfold sumn. eapply Qle_trans; [apply Qsum_map_abs_le|].
  rewrite <- Qsum_map_scal. apply Qsum_map_le. intros m Hm. apply in_seq in Hm.
  assert (Qabs (nth m w 0) <= tol) as Hx.
  { rewrite List.Forall_forall in Hw. apply Hw, nth_In. lia. }
  set (h := half nao c row m i * half nao c row m j).
  assert (nth m w 0 * half nao c row m i * half nao c row m j == nth m w 0 * h) as ->
    by (subst h; ring).
  rewrite Qabs_Qmult. apply Qmult_le_compat_r; [exact Hx|apply Qabs_nonneg].
Qed.

(** C4, as the code has it.  For a density [dm] with the eigenpairs
    [(e, c)] the solver returns, both paths return an exchange matrix, and
    the one of the general path is the one of the symmetric path plus two
    terms: the pair products weighted by what the symmetric path loses of
    each eigenvalue ([weight_gap]: the round-off of [sqrt] for an
    eigenvalue it keeps, the whole eigenvalue for one it drops), and the
    general exchange matrix of what the eigenpairs miss of [dm]
    ([eig_residual], which vanishes when the solver is exact on a symmetric
    [dm]).  So the difference is bounded by the largest weight gap times
    the sum of the absolute pair products, plus the residual term; the two
    matrices are equal when no weight is lost and the eigenpairs
    reconstruct [dm]; and when [sqrt] is exact on the kept eigenvalues the
    weights lost are the dropped eigenvalues, at most [1e-12] each in
    magnitude.  The bound grows with the factor: it is no fixed
    tolerance. *)
Theorem exchange_paths cderi s nao N dm f a e c hermi st :
  well_shaped cderi s nao N ->
  heap st !! dm = Some (Arr2 f a) -> rect nao nao a ->
  hermi <> 1%Z ->
  eigh a s = Some (e, c) -> rect nao (length e) c ->
  let n := Z.of_nat N in
  let R := K_gen cderi n nao (eig_residual nao a e c) (zeros nao nao) in
  exists vj1 vk1 st1 vj2 vk2 st2 Ksym Kgen,
    fjk cderi s nao (Some n) 1 dm st = (inr (vj1, vk1), st1) /\
    heap st1 !! vk1 = Some (Arr2 f Ksym) /\
    fjk cderi s nao (Some n) hermi dm st = (inr (vj2, vk2), st2) /\
    heap st2 !! vk2 = Some (Arr2 f Kgen) /\
    (forall i j, (i < nao)%nat -> (j < nao)%nat ->
       entry Kgen i j ==
       entry Ksym i j + pair_sum cderi n nao c (weight_gap e) i j + entry R i j) /\
    (forall tol i j,
       Forall (fun w => Qabs w <= tol) (weight_gap e) ->
       (i < nao)%nat -> (j < nao)%nat ->
       Qabs (entry Kgen i j - entry Ksym i j) <=
       tol * pair_abs cderi n nao c (length e) i j + Qabs (entry R i j)) /\
    (Forall (fun w => w == 0) (weight_gap e) ->
     (forall p q, (p < nao)%nat -> (q < nao)%nat ->
        entry a p q == entry (eig_density nao e c) p q) ->
     meq Ksym Kgen) /\
    ((forall m, OCCDROP < nth m e 0 ->
                np_sqrt (nth m e 0) * np_sqrt (nth m e 0) == nth m e 0) ->
     (forall m, nth m e 0 < - OCCDROP ->
                np_sqrt (- nth m e 0) * np_sqrt (- nth m e 0) == - nth m e 0) ->
     forall m, (m < length e)%nat ->
       nth m (weight_gap e) 0 == nth m (dropped_weights e) 0) /\
    Forall (fun w => Qabs w <= OCCDROP) (dropped_weights e).
Proof.
  intros Hws Hdm Ha Hh He Hc n R. subst n R.
  destruct (wp_run _ _ _ (fjk_sym_ok cderi s nao N dm f a e c st Hws Hdm Ha He))
    as ([vj1 vk1] & st1 & Hrun1 & _ & _ & Hk1 & _).
  destruct (wp_run _ _ _ (fjk_gen_ok cderi s nao N hermi dm f a st Hws Hdm Ha Hh))
    as ([vj2 vk2] & st2 & Hrun2 & _ & _ & Hk2 & _).
  cbn [fst snd] in *.
  exists vj1, vk1, st1, vj2, vk2, st2. eexists _, _.
  split; [exact Hrun1|]. split; [exact Hk1|].
  split; [exact Hrun2|]. split; [exact Hk2|].
  set (R := K_gen cderi (Z.of_nat N) nao (eig_residual nao a e c) (zeros nao nao)).
  assert (forall i j, (i < nao)%nat -> (j < nao)%nat ->
            entry (K_sym_val cderi (Z.of_nat N) nao c e) i j ==
            pair_sum cderi (Z.of_nat N) nao c (used_weights e) i j) as Hsym_entry.
  { intros i j Hi Hj. unfold K_sym_val. destruct (retained e) eqn:Hr.
    - by apply (K_sym_entry_used cderi s nao N).
    - rewrite entry_zeros. symmetry. apply pair_sum_zero.
      intros m Hm. apply used_weights_none; [done|].
      unfold used_weights in Hm. by rewrite length_map in Hm. }
  assert (forall i j, (i < nao)%nat -> (j < nao)%nat ->
            entry (K_gen cderi (Z.of_nat N) nao a (zeros nao nao)) i j ==
            entry (K_sym_val cderi (Z.of_nat N) nao c e) i j +
            pair_sum cderi (Z.of_nat N) nao c (weight_gap e) i j +
            entry R i j) as Hdiff.
  { intros i j Hi Hj.
    rewrite (K_gen_comb cderi s nao N (eig_density nao e c)
               (eig_residual nao a e c) a 1 1 i j Hws Hi Hj).
    2:{ intros p q Hp Hq. unfold eig_residual at 1.
        rewrite (entry_tabulate nao nao) by done. ring. }
    rewrite (K_gen_entry cderi s nao N (eig_density nao e c) c e i j Hws).
    2:{ intros p q Hp Hq. unfold eig_density.
        rewrite (entry_tabulate nao nao) by done. reflexivity. }
    2, 3: done.
    rewrite (Hsym_entry i j Hi Hj). fold R.
    rewrite (pair_sum_add cderi (Z.of_nat N) nao c (used_weights e) (weight_gap e) e).
    - ring.
    - unfold used_weights. by rewrite length_map.
    - unfold weight_gap. by rewrite length_map.
    - intros m Hm. rewrite nth_used_weights, nth_weight_gap by done. ring. }
  split; [exact Hdiff|]. split; [|split; [|split]].
  - intros tol i j Htol Hi Hj. rewrite (Hdiff i j Hi Hj).
    set (P := pair_sum _ _ _ _ _ _ _).
    assert (entry (K_sym_val cderi (Z.of_nat N) nao c e) i j + P + entry R i j -
            entry (K_sym_val cderi (Z.of_nat N) nao c e) i j == P + entry R i j)
      as -> by ring.
    eapply Qle_trans; [apply Qabs_triangle|].
    apply Qplus_le_compat; [|apply Qle_refl].
    subst P. replace (length e) with (length (weight_gap e))
      by (unfold weight_gap; by rewrite length_map).
    by apply pair_sum_bound.
  - intros Hgap Hrec. apply (meq_of_entries nao).
    + unfold K_sym_val. destruct (retained e); [apply rect_K_sym|]; apply rect_zeros.
    + apply rect_K_gen, rect_zeros.
    + intros i j Hi Hj. rewrite (Hdiff i j Hi Hj).
      rewrite pair_sum_zero.
      2:{ intros m Hm. rewrite List.Forall_forall in Hgap.
          apply Hgap, nth_In, Hm. }
      assert (entry R i j == 0) as ->; [|ring].
      subst R.
      rewrite (K_gen_comb cderi s nao N a a (eig_residual nao a e c) 0 0 i j
                 Hws Hi Hj); [ring|].
      intros p q Hp Hq. unfold eig_residual.
      rewrite (entry_tabulate nao nao) by done. rewrite (Hrec p q Hp Hq). ring.
  - intros Hpos Hneg m Hm.
    rewrite nth_weight_gap, nth_dropped_weights by done. unfold used_weight.
    destruct (Qltb OCCDROP (nth m e 0)) eqn:Ep; cbn [orb].
    + apply Qltb_lt in Ep. rewrite (Hpos m Ep). ring.
    + destruct (Qltb (nth m e 0) (- OCCDROP)) eqn:En.
      * apply Qltb_lt in En. rewrite (Hneg m En). ring.
      * ring.
  - apply dropped_weights_small.
Qed.

#[local] Close Scope Q_scope.

(* ================================================================= *)
(** ** How the factor is read *)

Lemma consecutive_tiling step a e bs :
  tiling step a e bs ->
  consecutive a e (map (fun b => (fst b, (snd b - fst b)%Z)) bs) /\
  Forall (fun x => (0 < snd x <= step)%Z)
         (map (fun b => (fst b, (snd b - fst b)%Z)) bs).
Proof.
  induction 1 as [a|a b e bs Hlt Hle Hb Ht [IH1 IH2]]; cbn [map consecutive fst snd].
  - split; [done|constructor].
  - split.
    + split; [done|]. by replace (a + (b - a))%Z with b by lia.
    + constructor; [cbn; lia|done].
Qed.

Lemma length_blocks_of start end_ step k :
  length (blocks_of start end_ step k) = k.
Proof. unfold blocks_of. by rewrite !length_map, length_seq. Qed.

Lemma length_block_loads N :
  length (block_loads (Z.of_nat N)) =
  Z.to_nat ((Z.of_nat N + BLOCKDIM - 1) / BLOCKDIM).
Proof.
  unfold block_loads, aux_blocks. rewrite length_map, length_blocks_of.
  f_equal. unfold range_len, BLOCKDIM. cbn [Z.ltb Z.compare].
  destruct (Z.ltb_spec 0 (Z.of_nat N)) as [H|H].
  - replace (Z.of_nat N + 160 - 1)%Z with (Z.of_nat N - 0 - 1 + 1 * 160)%Z by lia.
    by rewrite Z.div_add.
  - replace (Z.of_nat N) with 0%Z by lia. done.
Qed.

(** X9.  Whenever the block loop is entered, [fjk] reads the factor with
    one [load_buf] call per block: the ranges are consecutive, start at row
    0 and end at row [naoaux], so every row is read exactly once and in
    order; no call asks for more than [BLOCKDIM = 160] rows or for none;
    and there are [ceil(naoaux / 160)] calls. *)
Theorem factor_read_in_blocks cderi s nao N hermi dm f a st :
  well_shaped cderi s nao N ->
  heap st !! dm = Some (Arr2 f a) -> rect nao nao a ->
  (hermi = 1%Z ->
   exists e c, eigh a s = Some (e, c) /\
               0 < count_true (pos_mask e) + count_true (neg_mask e)) ->
  exists vj vk st' L,
    fjk cderi s nao (Some (Z.of_nat N)) hermi dm st = (inr (vj, vk), st') /\
    loads st' = loads st ++ L /\
    consecutive 0 (Z.of_nat N) L /\
    Forall (fun x => (0 < snd x <= BLOCKDIM)%Z) L /\
    length L = Z.to_nat ((Z.of_nat N + BLOCKDIM - 1) / BLOCKDIM).
Proof.
  intros Hws Hdm Ha Hh.
  destruct (fjk_coulomb cderi s nao N hermi dm f a st Hws Hdm Ha)
    as (vj & vk & st' & Hrun & _ & Hld).
  { intros H1. destruct (Hh H1) as (e & c & He & Hc). exists e, c.
    split; [exact He|]. by apply retained_true. }
  exists vj, vk, st', (block_loads (Z.of_nat N)).
  split; [exact Hrun|]. split; [exact Hld|].
  pose proof (aux_blocks_tiling (Z.of_nat N) ltac:(lia)) as Ht.
  destruct (consecutive_tiling _ _ _ _ Ht) as [Hc Hf].
  split; [exact Hc|]. split; [exact Hf|]. apply length_block_loads.
Qed.

(** The stacked result of a sequence of densities, with the calls to
    [load_buf] and the place of the two new arrays. *)
Lemma jk_of_many_trace mf hermi cderi N ls rs st :
  _cderi mf = Some cderi -> _naoaux mf = Some (Z.of_nat N) ->
  well_shaped cderi (ovlp mf) (nrows (ovlp mf)) N ->
  Forall2 (dm_ok st cderi (ovlp mf) (nrows (ovlp mf)) N hermi) ls rs ->
  wp (jk_of mf hermi (Many ls))
     (fun r st' =>
        loads st' =
          loads st ++ concat (map (dm_trace st (ovlp mf) (Z.of_nat N) hermi) ls)) st.
Proof.
  intros Hcd Hn Hws HF. unfold jk_of. rewrite Hcd, Hn.
  apply wp_bind. eapply wp_getattr; [done|].
  apply wp_bind. eapply wp_mono.
  { apply (wp_map_fjk _ _ _ _ _ st Hws ls rs HF st). apply agree_refl. }
  intros out st1 (Hout & _ & Hld).
  apply wp_bind. eapply wp_mono.
  { apply (wp_map_read fst (fun r => snd (fst r)) out rs).
    eapply Forall2_impl; [exact Hout|]. intros o r [Hj _]. eauto. }
  intros js st' [-> ->].
  apply wp_bind. apply wp_alloc.
  apply wp_bind. eapply wp_mono.
  { apply (wp_map_read snd (fun r => snd r) out rs).
    eapply Forall2_impl; [exact Hout|]. intros o r [_ Hk]. cbn [heap].
    exists (fst (fst r)). rewrite lookup_app_l; [done|]. by eapply lookup_lt_Some. }
  intros ks st' [-> ->].
  apply wp_bind. apply wp_alloc. apply wp_ret. cbn [loads]. exact Hld.
Qed.

(** X10.  A sequence of densities is processed one density after the
    other, and each of them reads the whole factor again: on the general
    path a sequence of [k] well-shaped densities makes [k] times the
    [load_buf] calls of a single density, pass after pass. *)
Theorem batch_rereads_factor mf mol hermi ls st cderi N nao :
  _cderi (build_cderi mf mol) = Some cderi ->
  _naoaux (build_cderi mf mol) = Some (Z.of_nat N) ->
  nao = nrows (ovlp mf) ->
  well_shaped cderi (ovlp mf) nao N ->
  Forall (fun dm => exists f a,
            heap st !! dm = Some (Arr2 f a) /\ rect nao nao a) ls ->
  hermi <> 1%Z ->
  exists vj vk st',
    snd (get_jk_ mf mol (Many ls) hermi st) = (inr (vj, vk), st') /\
    loads st' =
      loads st ++ concat (repeat (block_loads (Z.of_nat N)) (length ls)).
Proof.
  intros Hcd Hn -> Hws Hls Hne. unfold get_jk_. cbn [snd].
  rewrite <- (ovlp_build_cderi mf mol) in Hws, Hls.
  assert (exists rs, Forall2 (dm_ok st cderi (ovlp (build_cderi mf mol))
                                (nrows (ovlp (build_cderi mf mol))) N hermi) ls rs)
    as [rs Hrs].
  { apply Forall_exists_Forall2. eapply Forall_impl; [exact Hls|].
    intros dm (f & a & Hdm & Ha).
    destruct (fjk_val_is_Some cderi (ovlp (build_cderi mf mol))
                (nrows (ovlp (build_cderi mf mol))) (Z.of_nat N) hermi a)
      as [[J K] Hv]; [done|].
    exists (f, J, K), a. done. }
  destruct (wp_run _ _ _ (jk_of_many_trace _ hermi cderi N ls rs st Hcd Hn Hws Hrs))
    as ([vj vk] & st' & Hrun & Hld).
  exists vj, vk, st'. split; [exact Hrun|]. rewrite Hld. f_equal. f_equal.
  clear -Hls Hne. induction Hls as [|dm ls (f & a & Hdm & _) _ IH]; [done|].
  cbn [map length repeat]. rewrite IH. f_equal.
  unfold dm_trace. rewrite Hdm. unfold fjk_trace.
  by destruct (Z.eqb_spec hermi 1).
Qed.

(* ================================================================= *)
(** ** Failures of the collaborators and missing attributes *)

Lemma build_cderi_Some mf mol : is_Some (_cderi (build_cderi mf mol)).
Proof.
  unfold build_cderi. destruct (_cderi mf) eqn:E; [by rewrite E|].
  by destruct (in_core _ _ _).
Qed.

Lemma build_cderi_preset mf mol cderi :
  _cderi mf = Some cderi -> build_cderi mf mol = mf.
Proof. intros H. unfold build_cderi. by rewrite H. Qed.

Lemma eigh_call_fails nao a s :
  rect nao nao a -> rect nao nao s -> eigh a s = None ->
  eigh_call a s = inl LinAlgError.
Proof.
  intros Ha Hs He. unfold eigh_call.
  rewrite (rect_nrows _ _ _ Ha), (rect_ncols_sq _ _ Ha), Nat.eqb_refl,
    (shape_eqb_sq nao) by done.
  cbn. by rewrite He.
Qed.

(** [fjk] up to the branch on [hermi]: the packed density and the two zero
    accumulators are in the store. *)
Lemma wpx_fjk_prefix cderi s nao naoaux hermi dm f a m Q st :
  heap st !! dm = Some (Arr2 f a) -> rect m m a -> nao <= m ->
  (forall st1,
     loads st1 = loads st -> length (heap st1) = S (S (S (length (heap st)))) ->
     heap st1 !! dm = Some (Arr2 f a) ->
     wpx (if (hermi =? 1)%Z then
            ec <- lift (eigh_call a s) ;;
            let e := fst ec in
            let c := snd ec in
            let pos := pos_mask e in
            let neg := neg_mask e in
            if 0 <? count_true pos + count_true neg then
              let cpos := cpos_of c e in
              let cneg := cneg_of c e in
              n <- getattr naoaux ;;
              blocks <- lift (prange 0 n BLOCKDIM) ;;
              for_each blocks
                (block_sym cderi nao (length (heap st)) (S (length (heap st)))
                           (S (S (length (heap st)))) cpos cneg)
            else ret tt
          else
            dmF <- asfortranarray dm ;;
            n <- getattr naoaux ;;
            blocks <- lift (prange 0 n BLOCKDIM) ;;
            for_each blocks
              (block_gen cderi nao (length (heap st)) (S (length (heap st)))
                         (S (S (length (heap st)))) dmF)) Q st1) ->
  wpx (fjk cderi s nao naoaux hermi dm) Q st.
Proof.
  intros Hdm Ha Hle HQ. unfold fjk.
  assert (dm < length (heap st)) as Hdmlt by (by eapply lookup_lt_Some).
  apply wpx_bind_r. eapply (wp_pack_density_le nao m); [exact Hdm|exact Ha|lia|].
  unfold fjk_from.
  apply wpx_bind_r. eapply wp_read2; [cbn; rewrite lookup_app_l by done; exact Hdm|].
  cbn [fst snd].
  apply wpx_bind_r. apply wp_alloc.
  apply wpx_bind_r. apply wp_alloc.
  apply wpx_bind_l. cbn [heap loads]. rewrite !length_app. cbn [length].
  replace (length (heap st) + 1) with (S (length (heap st))) by lia.
  replace (S (length (heap st)) + 1) with (S (S (length (heap st)))) by lia.
  apply HQ; cbn [heap loads].
  - done.
  - rewrite !length_app. cbn. lia.
  - by rewrite !lookup_app_l by (rewrite ?length_app; cbn; lia).
Qed.

(** X11.  When the eigensolver fails on a well-shaped density, the call
    on the symmetric path raises the solver's [LinAlgError]; no block of
    the factor has been loaded, and the factor that the call built stays
    with the SCF object. *)
Theorem eigensolver_failure mf mol dm f a st nao :
  nao = nrows (ovlp mf) -> rect nao nao (ovlp mf) ->
  heap st !! dm = Some (Arr2 f a) -> rect nao nao a ->
  eigh a (ovlp mf) = None ->
  exists st',
    snd (get_jk_ mf mol (One dm) 1 st) = (inl LinAlgError, st') /\
    loads st' = loads st /\
    is_Some (_cderi (fst (get_jk_ mf mol (One dm) 1 st))).
Proof.
  intros -> Hs Hdm Ha He. unfold get_jk_. cbn [fst snd].
  destruct (build_cderi_Some mf mol) as [cd Hcd].
  assert (wpx (jk_of (build_cderi mf mol) 1 (One dm))
              (fun e st' => e = LinAlgError /\ loads st' = loads st) st) as H.
  { unfold jk_of. rewrite Hcd, ovlp_build_cderi.
    apply wpx_bind_r. eapply wp_getattr; [done|].
    eapply wpx_fjk_prefix; [exact Hdm|exact Ha|lia|].
    intros st1 Hld _ _. cbn [Z.eqb Pos.eqb].
    apply wpx_bind_l. eapply wpx_lift; [by eapply eigh_call_fails|]. done. }
  destruct (wpx_run _ _ _ H) as (e & st' & Hrun & -> & Hld).
  exists st'. split; [exact Hrun|]. split; [exact Hld|]. by rewrite Hcd.
Qed.

Lemma wp_asfortranarray l f a Q st :
  heap st !! l = Some (Arr2 f a) ->
  (forall l' st', loads st' = loads st ->
                  length (heap st) <= length (heap st') ->
                  (forall k, k < length (heap st) -> heap st' !! k = heap st !! k) ->
                  Q l' st') ->
  wp (asfortranarray l) Q st.
Proof.
  intros Hl HQ. unfold asfortranarray.
  apply wp_bind. eapply wp_read2; [exact Hl|]. cbn [fst snd].
  destruct f.
  - apply wp_ret. apply HQ; done.
  - apply wp_alloc. apply HQ; cbn [heap loads].
    + done.
    + rewrite length_app. lia.
    + intros k Hk. by rewrite lookup_app_l.
Qed.

(** X12.  An SCF object that carries a factor but no [_naoaux] (the
    attribute is set only where [get_jk_] builds the factor itself) makes
    the call fail with [AttributeError] where the block loop starts: always
    on the general path, and on the symmetric path when an eigenvalue is
    retained; nothing has been loaded then.  On the symmetric path with no
    eigenvalue retained the attribute is never read and the call returns
    two zero arrays. *)
Theorem naoaux_missing mf mol dm hermi f a st cderi nao :
  _cderi mf = Some cderi -> _naoaux mf = None ->
  nao = nrows (ovlp mf) -> rect nao nao (ovlp mf) ->
  heap st !! dm = Some (Arr2 f a) -> rect nao nao a ->
  ((hermi = 1%Z ->
    exists e c, eigh a (ovlp mf) = Some (e, c) /\
                0 < count_true (pos_mask e) + count_true (neg_mask e)) ->
   exists st',
     snd (get_jk_ mf mol (One dm) hermi st) = (inl AttributeError, st') /\
     loads st' = loads st) /\
  (hermi = 1%Z ->
   (exists e c, eigh a (ovlp mf) = Some (e, c) /\
                count_true (pos_mask e) + count_true (neg_mask e) = 0) ->
   exists vj vk st',
     snd (get_jk_ mf mol (One dm) hermi st) = (inr (vj, vk), st') /\
     heap st' !! vj = Some (Arr2 f (zeros nao nao)) /\
     heap st' !! vk = Some (Arr2 f (zeros nao nao)) /\
     loads st' = loads st).
Proof.
  intros Hcd Hn -> Hs Hdm Ha. unfold get_jk_. cbn [snd].
  rewrite (build_cderi_preset mf mol cderi Hcd). unfold jk_of. rewrite Hcd, Hn.
  split.
  - intros Hh.
    assert (wpx (cderi0 <- getattr (Some cderi) ;;
                 fjk cderi0 (ovlp mf) (nrows (ovlp mf)) None hermi dm)
                (fun e st' => e = AttributeError /\ loads st' = loads st) st) as H.
    { apply wpx_bind_r. eapply wp_getattr; [done|].
      eapply wpx_fjk_prefix; [exact Hdm|exact Ha|lia|].
      intros st1 Hld Hlen Hdm1.
      destruct (Z.eqb_spec hermi 1) as [E|E].
      - destruct (Hh E) as (e & c & He & Hc).
        apply wpx_bind_r. eapply wp_lift; [by eapply eigh_call_ok|].
        cbn [fst snd]. cbn zeta.
        destruct (Nat.ltb_spec 0 (count_true (pos_mask e) + count_true (neg_mask e)));
          [|lia].
        apply wpx_bind_l. by apply wpx_raise.
      - apply wpx_bind_r. eapply wp_asfortranarray; [exact Hdm1|].
        intros dmF st2 Hld2 _ _.
        apply wpx_bind_l. apply wpx_raise. split; [done|]. by rewrite Hld2. }
    destruct (wpx_run _ _ _ H) as (e & st' & Hrun & -> & Hld).
    by exists st'.
  - intros -> (e & c & He & Hc).
    assert (dm < length (heap st)) as Hdmlt by (by eapply lookup_lt_Some).
    assert (wp (cderi0 <- getattr (Some cderi) ;;
                fjk cderi0 (ovlp mf) (nrows (ovlp mf)) None 1 dm)
               (fun r st' =>
                  heap st' !! fst r =
                    Some (Arr2 f (zeros (nrows (ovlp mf)) (nrows (ovlp mf)))) /\
                  heap st' !! snd r =
                    Some (Arr2 f (zeros (nrows (ovlp mf)) (nrows (ovlp mf)))) /\
                  loads st' = loads st) st) as H.
    { apply wp_bind. eapply wp_getattr; [done|].
      unfold fjk. apply wp_bind.
      eapply wp_pack_density; [exact Hdm|exact Ha|].
      unfold fjk_from.
      apply wp_bind. eapply wp_read2; [cbn; rewrite lookup_app_l by done; exact Hdm|].
      cbn [fst snd]. rewrite (zeros_like_rect _ _ _ Ha) by lia.
      apply wp_bind. apply wp_alloc. apply wp_bind. apply wp_alloc.
      apply wp_bind. cbn [Z.eqb Pos.eqb].
      apply wp_bind. eapply wp_lift; [by eapply eigh_call_ok|].
      cbn [fst snd]. cbn zeta.
      destruct (Nat.ltb_spec 0 (count_true (pos_mask e) + count_true (neg_mask e)));
        [lia|].
      apply wp_ret. apply wp_ret. cbn [fst snd heap loads].
      split; [|split; [|done]].
      - rewrite lookup_app_l by (rewrite !length_app; cbn; lia).
        apply list_lookup_middle. done.
      - apply list_lookup_middle. done. }
    destruct (wp_run _ _ _ H) as ([vj vk] & st' & Hrun & Hj & Hk & Hld).
    by exists vj, vk, st'.
Qed.

Lemma prange_empty n : (n <= 0)%Z -> prange 0 n BLOCKDIM = inr [].
Proof.
  intros Hn. rewrite prange_blocks by done.
  by rewrite range_len_empty by (done || lia).
Qed.

(** X13.  With an empty auxiliary basis ([naoaux <= 0]) the block loop
    runs no block: [fjk] loads nothing and returns two zero arrays shaped
    like the density.  On the general path this is so even for a square
    density larger than [nao]: its size is never compared with anything. *)
Theorem empty_auxiliary_basis cderi s nao n hermi dm f a m st :
  (n <= 0)%Z -> rect nao nao s ->
  heap st !! dm = Some (Arr2 f a) -> rect m m a -> nao <= m ->
  (hermi = 1%Z -> m = nao /\ is_Some (eigh a s)) ->
  exists vj vk st',
    fjk cderi s nao (Some n) hermi dm st = (inr (vj, vk), st') /\
    heap st' !! vj = Some (Arr2 f (zeros m m)) /\
    heap st' !! vk = Some (Arr2 f (zeros m m)) /\
    loads st' = loads st.
Proof.
  intros Hn Hs Hdm Ha Hle Hh.
  assert (dm < length (heap st)) as Hdmlt by (by eapply lookup_lt_Some).
  assert (wp (fjk cderi s nao (Some n) hermi dm)
             (fun r st' =>
                heap st' !! fst r = Some (Arr2 f (zeros m m)) /\
                heap st' !! snd r = Some (Arr2 f (zeros m m)) /\
                loads st' = loads st) st) as H.
  { unfold fjk. apply wp_bind.
    eapply (wp_pack_density_le nao m); [exact Hdm|exact Ha|lia|].
    unfold fjk_from.
    apply wp_bind. eapply wp_read2; [cbn; rewrite lookup_app_l by done; exact Hdm|].
    cbn [fst snd]. rewrite (zeros_like_rect _ _ _ Ha) by lia.
    apply wp_bind. apply wp_alloc. apply wp_bind. apply wp_alloc.
    cbn [heap loads].
    set (h := ((heap st ++ [_]) ++ [Arr2 f (zeros m m)]) ++ [Arr2 f (zeros m m)]).
    assert (length h = S (S (S (length (heap st))))) as Hlh
      by (subst h; rewrite !length_app; cbn; lia).
    assert (h !! length ((heap st ++ [Arr1 (halve_diag nao (pack_tril (tabulate m m
               (fun i j => (entry a i j + entry a j i)%Q))))])) =
            Some (Arr2 f (zeros m m))) as Hvj.
    { subst h. rewrite lookup_app_l by (rewrite !length_app; cbn; lia).
      by apply list_lookup_middle. }
    assert (h !! length ((heap st ++ [Arr1 (halve_diag nao (pack_tril (tabulate m m
               (fun i j => (entry a i j + entry a j i)%Q))))]) ++
               [Arr2 f (zeros m m)]) = Some (Arr2 f (zeros m m))) as Hvk.
    { subst h. by apply list_lookup_middle. }
    assert (h !! dm = Some (Arr2 f a)) as Hdm'.
    { subst h. by rewrite !lookup_app_l by (rewrite ?length_app; cbn; lia). }
    apply wp_bind.
    destruct (Z.eqb_spec hermi 1) as [E|E].
    - destruct (Hh E) as [-> [[e c] He]].
      apply wp_bind. eapply wp_lift; [by eapply eigh_call_ok|].
      cbn [fst snd]. cbn zeta.
      destruct (0 <? _).
      + apply wp_bind. eapply wp_getattr; [done|].
        apply wp_bind. eapply wp_lift; [by apply prange_empty|].
        cbn [for_each]. apply wp_ret. apply wp_ret. done.
      + apply wp_ret. apply wp_ret. done.
    - apply wp_bind. eapply wp_asfortranarray; [exact Hdm'|].
      intros dmF st2 Hld2 Hlen2 Hag2. cbn [heap] in Hlen2, Hag2.
      apply wp_bind. eapply wp_getattr; [done|].
      apply wp_bind. eapply wp_lift; [by apply prange_empty|].
      cbn [for_each]. apply wp_ret. apply wp_ret. cbn [fst snd].
      split; [|split; [|done]].
      + rewrite Hag2; [exact Hvj|]. rewrite Hlh, !length_app. cbn. lia.
      + rewrite Hag2; [exact Hvk|]. rewrite Hlh, !length_app. cbn. lia. }
  destruct (wp_run _ _ _ H) as ([vj vk] & st' & Hrun & Hj & Hk & Hld).
  by exists vj, vk, st'.
Qed.

(* ================================================================= *)
(** ** The SCF object across calls, and the arrays a call returns *)

Lemma in_core_zero_budget nao naoaux :
  (0 <= nao)%Z -> (0 <= naoaux)%Z -> in_core nao naoaux 0 = false.
Proof.
  intros Hn Ha. unfold in_core.
  change (times_1e6 0) with (Finite 0). unfold int_lt_float, Qltb.
  assert (0 <= nao * (nao + 1) / 2 * naoaux * 8)%Z as Hz.
  { apply Z.mul_nonneg_nonneg; [|lia].
    apply Z.mul_nonneg_nonneg; [|lia].
    apply Z.div_pos; [|lia]. apply Z.mul_nonneg_nonneg; lia. }
  assert (Qle_bool 0 (inject_Z (nao * (nao + 1) / 2 * naoaux * 8)) = true)
    as ->; [|done].
  apply Qle_bool_iff. unfold Qle. cbn. lia.
Qed.

(** X16.  What the script at the end of the file does with
    [method.max_memory = 0]: for a molecule and an auxiliary basis with
    non-negative numbers of functions, an object [density_fit(mf)] whose
    memory budget is set to zero builds its factor into the temporary
    file, never in memory, on the first [get_jk]. *)
Theorem zero_budget_out_of_core mf mol dms hermi st :
  (0 <= nao_nr mol)%Z ->
  (0 <= nao_nr (format_aux_basis mol "weigend"))%Z ->
  _cderi (fst (get_jk (set_max_memory (density_fit mf) 0) mol dms hermi st)) =
  Some (OutCore tempname (outcore_cholesky_eri mol tempname "weigend")).
Proof.
  intros Hn Ha. unfold get_jk, get_jk_, build_cderi, set_max_memory, density_fit.
  cbn [fst _cderi auxbasis max_memory direct_scf ovlp _naoaux].
  by rewrite in_core_zero_budget.
Qed.

Lemma wlp_bind {A B} (m : M A) (k : A -> M B) Q st :
  wlp m (fun a st' => wlp (k a) Q st') st -> wlp (bind m k) Q st.
Proof. unfold wlp, bind. by destruct (m st) as [[e|a] st']. Qed.

Lemma wlp_ret {A} (a : A) (Q : A -> state -> Prop) st : Q a st -> wlp (ret a) Q st.
Proof. done. Qed.

Lemma wlp_alloc v (Q : loc -> state -> Prop) st :
  Q (length (heap st)) (mkState (heap st ++ [v]) (loads st)) ->
  wlp (alloc v) Q st.
Proof. done. Qed.

(** A computation that keeps the objects of the store leaves at least as
    many objects as it found. *)
Lemma wlp_grow {A} (m : M A) (P : A -> Prop) (Q : A -> state -> Prop) st :
  local 0 m P ->
  (forall a st', P a -> length (heap st) <= length (heap st') -> Q a st') ->
  wlp m Q st.
Proof.
  intros Hl HQ. unfold wlp. destruct (Hl st) as [[Hlen _] HP]; [lia|].
  destruct (m st) as [[e|a] st']; [done|]. cbn in *. by apply HQ.
Qed.

Lemma wlp_run {A} (m : M A) (Q : A -> state -> Prop) st a st' :
  wlp m Q st -> m st = (inr a, st') -> Q a st'.
Proof. unfold wlp. intros H E. by rewrite E in H. Qed.

(** The two arrays [fjk] returns are objects it created. *)
Lemma wlp_fjk cderi s nao naoaux hermi dm st :
  wlp (fjk cderi s nao naoaux hermi dm)
      (fun r st' => length (heap st) <= fst r /\ fst r < snd r /\
                    snd r < length (heap st')) st.
Proof.
  unfold fjk. apply wlp_bind.
  eapply wlp_grow; [apply local_pack_density|]. intros dmtril st1 _ H1.
  unfold fjk_from. apply wlp_bind.
  eapply wlp_grow; [apply local_read2|]. intros a st2 _ H2.
  apply wlp_bind. apply wlp_alloc. apply wlp_bind. apply wlp_alloc.
  apply wlp_bind. eapply wlp_grow with (P := fun _ => True).
  - destruct (hermi =? 1)%Z.
    + eapply local_bind; [apply local_lift|]. intros ec _. cbn zeta.
      destruct (0 <? _); [|by apply local_ret].
      eapply local_bind; [apply local_getattr|]. intros k _.
      eapply local_bind; [apply local_lift|]. intros blocks _.
      apply local_for_each. intros b. apply local_block_sym; lia.
    + eapply local_bind; [apply local_asfortranarray|]. intros dmF _.
      eapply local_bind; [apply local_getattr|]. intros k _.
      eapply local_bind; [apply local_lift|]. intros blocks _.
      apply local_for_each. intros b. apply local_block_gen; lia.
  - intros [] st3 _ H3. apply wlp_ret. cbn [fst snd heap] in *.
    rewrite !length_app in H3. cbn [length] in H3.
    rewrite length_app. cbn [length]. lia.
Qed.

(** X17.  Whenever [get_jk_] returns, the two arrays it returns are
    objects that the call itself created: they are in the store afterwards,
    they are distinct from each other, and neither is one of the arrays
    that existed before the call, so no result is ever an alias of an
    input density. *)
Theorem outputs_are_new mf mol dms hermi st vj vk st' :
  snd (get_jk_ mf mol dms hermi st) = (inr (vj, vk), st') ->
  length (heap st) <= vj /\ vj < vk /\ vk < length (heap st').
Proof.
  unfold get_jk_. cbn [snd]. intros Hrun.
  apply (wlp_run (jk_of (build_cderi mf mol) hermi dms)
           (fun r st' => length (heap st) <= fst r /\ fst r < snd r /\
                         snd r < length (heap st')) st (vj, vk) st');
    [|exact Hrun].
  unfold jk_of. apply wlp_bind.
  eapply wlp_grow; [apply local_getattr|]. intros cderi st1 _ H1.
  destruct dms as [dm|l].
  - pose proof (wlp_fjk cderi (ovlp (build_cderi mf mol))
                  (nrows (ovlp (build_cderi mf mol)))
                  (_naoaux (build_cderi mf mol)) hermi dm st1) as H.
    unfold wlp in *. destruct (fjk _ _ _ _ _ _ st1) as [[e|r] st2]; [done|]. lia.
  - apply wlp_bind.
    eapply wlp_grow; [apply local_map_M with (P := fun _ => True)|].
    { intros x. eapply local_weaken; [apply local_fjk|done]. }
    intros vjk st2 _ H2.
    apply wlp_bind.
    eapply wlp_grow; [apply local_map_M with (P := fun _ => True)|].
    { intros x. eapply local_bind; [apply local_read2|]. intros; by apply local_ret. }
    intros js st3 _ H3.
    apply wlp_bind. apply wlp_alloc.
    apply wlp_bind.
    eapply wlp_grow; [apply local_map_M with (P := fun _ => True)|].
    { intros x. eapply local_bind; [apply local_read2|]. intros; by apply local_ret. }
    intros ks st4 _ H4. cbn [heap] in H4. rewrite length_app in H4. cbn [length] in H4.
    apply wlp_bind. apply wlp_alloc. apply wlp_ret. cbn [fst snd heap].
    rewrite length_app. cbn [length]. lia.
Qed.

(* ================================================================= *)
(** ** More on the block iterator *)

#[local] Open Scope Z_scope.

Lemma range_len_split step q : 0 < step -> forall a c,
  a + Z.of_nat q * step <= c ->
  range_len a c step = Z.of_nat q + range_len (a + Z.of_nat q * step) c step.
Proof.
  intros Hs. induction q as [|q IH]; intros a c Hc.
  - cbn [Z.of_nat Z.mul]. by rewrite Z.add_0_r.
  - rewrite Nat2Z.inj_succ, Z.mul_succ_l in *.
    pose proof (Z.mul_nonneg_nonneg (Z.of_nat q) step ltac:(lia) ltac:(lia)).
    rewrite range_len_step by lia.
    rewrite (IH (a + step) c) by lia.
    replace (a + step + Z.of_nat q * step) with (a + (Z.of_nat q * step + step)) by lia.
    lia.
Qed.

Lemma blocks_of_app step q k : 0 < step -> forall a c,
  a + Z.of_nat q * step <= c ->
  blocks_of a c step (q + k) =
  blocks_of a (a + Z.of_nat q * step) step q ++
  blocks_of (a + Z.of_nat q * step) c step k.
Proof.
  intros Hs. induction q as [|q IH]; intros a c Hc.
  - cbn [Z.of_nat Z.mul Nat.add]. by rewrite Z.add_0_r.
  - rewrite Nat2Z.inj_succ, Z.mul_succ_l in *.
    pose proof (Z.mul_nonneg_nonneg (Z.of_nat q) step ltac:(lia) ltac:(lia)).
    cbn [Nat.add]. rewrite !blocks_of_S. cbn [app].
    rewrite (IH (a + step) c) by lia.
    replace (a + step + Z.of_nat q * step) with (a + (Z.of_nat q * step + step)) by lia.
    f_equal. f_equal. lia.
Qed.

(** X18.  Two runs of [prange] over adjacent ranges, the first of which is
    a whole number of steps long, yield together what one run over the
    whole range yields: a range can be cut at any block boundary. *)
Theorem prange_concat a b c step :
  0 < step -> a <= b -> b <= c -> (b - a) mod step = 0 ->
  exists l1 l2,
    prange a b step = inr l1 /\
    prange b c step = inr l2 /\
    prange a c step = inr (l1 ++ l2).
Proof.
  intros Hs Hab Hbc Hmod.
  set (q := Z.to_nat ((b - a) / step)).
  assert (b = a + Z.of_nat q * step) as Hb.
  { subst q. rewrite Z2Nat.id by (apply Z.div_pos; lia).
    pose proof (Z.div_mod (b - a) step ltac:(lia)). lia. }
  rewrite !prange_blocks by lia.
  eexists _, _. split; [reflexivity|]. split; [reflexivity|]. f_equal.
  pose proof (range_len_nonneg b c step Hs) as Hn.
  rewrite (range_len_split step q Hs a c) by lia.
  rewrite (range_len_split step q Hs a b) by lia.
  rewrite <- Hb, (range_len_empty b b) by lia.
  rewrite Z.add_0_r, Nat2Z.id, Z2Nat.inj_add, Nat2Z.id by lia.
  rewrite (blocks_of_app step q _ Hs a c) by lia.
  by rewrite <- Hb.
Qed.

(** X19.  For a positive step and [start <= end], [prange] yields
    [ceil((end - start) / step)] blocks; a non-empty range no longer than
    one step is yielded as the single block [(start, end)]. *)
Theorem prange_count start end_ step :
  0 < step -> start <= end_ ->
  exists bs,
    prange start end_ step = inr bs /\
    Z.of_nat (length bs) = (end_ - start + step - 1) / step /\
    (start < end_ -> end_ - start <= step -> bs = [(start, end_)]).
Proof.
  intros Hs Hle. rewrite prange_blocks by lia.
  eexists. split; [reflexivity|].
  rewrite length_blocks_of.
  pose proof (range_len_nonneg start end_ step Hs) as Hn.
  rewrite Z2Nat.id by done. split.
  - unfold range_len.
    destruct (Z.ltb_spec 0 step); [|lia].
    destruct (Z.ltb_spec start end_).
    + replace (end_ - start + step - 1) with (end_ - start - 1 + 1 * step) by lia.
      by rewrite Z.div_add by lia.
    + replace end_ with start by lia.
      replace (start - start + step - 1) with (step - 1) by lia.
      by rewrite Z.div_small by lia.
  - intros Hlt Hlen.
    assert (range_len start end_ step = 1) as ->.
    { unfold range_len.
      destruct (Z.ltb_spec 0 step); [|lia].
      destruct (Z.ltb_spec start end_); [|lia].
      by rewrite Z.div_small by lia. }
    change (Z.to_nat 1) with 1%nat. rewrite blocks_of_S. cbn.
    by rewrite Z.min_r by lia.
Qed.

#[local] Close Scope Z_scope.

(* ================================================================= *)
(** ** Counting symmetry-adapted orbitals ([symm/test/test_basis.py]) *)

Lemma count_so_ok so : forall n,
  Forall (fun c => 0 < np_size c -> 2 <= length (nshape c)) so ->
  count_so so n =
  inr (n + list_sum (map (fun c => if 0 <? np_size c then nth 1 (nshape c) 0 else 0) so)).
Proof.
  induction so as [|c so IH]; intros n H; cbn [count_so map list_sum].
  - f_equal. unfold list_sum. cbn. lia.
  - apply Forall_cons_1 in H as [Hc H].
    change (list_sum (?x :: ?l)) with (x + list_sum l).
    destruct (Nat.ltb_spec 0 (np_size c)) as [Hs|Hs].
    + specialize (Hc Hs).
      destruct (nshape c) as [|r [|k sh]] eqn:E; cbn in Hc; try lia.
      cbn [lookup list_lookup nth]. rewrite (IH _ H). f_equal. lia.
    + rewrite (IH _ H). f_equal.
Qed.

Lemma count_so_error so :
  Exists (fun c => 0 < np_size c /\ length (nshape c) < 2) so ->
  forall n, count_so so n = inl IndexError.
Proof.
  induction 1 as [c so [Hs Hr]|c so _ IH]; intros n; cbn [count_so].
  - destruct (Nat.ltb_spec 0 (np_size c)); [|lia].
    destruct (nshape c) as [|r [|k sh]]; cbn in Hr; try lia; done.
  - destruct (0 <? np_size c); [|apply IH].
    destruct (nshape c !! 1); [apply IH|done].
Qed.

(** X20.  [get_so] returns the list of arrays that
    [symm_adapted_basis] built, unchanged, together with the sum of
    [shape[1]] over the arrays that are not empty, provided every
    non-empty array has at least two dimensions; an empty array is skipped
    whatever its shape.  When all arrays are two-dimensional with the same
    positive number of rows, the count is the total number of columns.  A
    non-empty array with fewer than two dimensions makes the call raise
    [IndexError]. *)
Theorem get_so_counts atoms basis gpname atoms' :
  detect_symm atoms = (gpname, atoms') ->
  let so := symm_adapted_basis gpname (symm_identical_atoms gpname atoms')
                               atoms' basis in
  (Forall (fun c => 0 < np_size c -> 2 <= length (nshape c)) so ->
   get_so atoms basis =
   inr (list_sum (map (fun c => if 0 <? np_size c then nth 1 (nshape c) 0 else 0) so),
        so)) /\
  (forall r, 0 < r -> Forall (fun c => exists k, nshape c = [r; k]) so ->
   get_so atoms basis = inr (list_sum (map (fun c => nth 1 (nshape c) 0) so), so)) /\
  (Exists (fun c => 0 < np_size c /\ length (nshape c) < 2) so ->
   get_so atoms basis = inl IndexError).
Proof.
  intros Hd so. unfold get_so. rewrite Hd. fold so.
  split; [|split].
  - intros H. by rewrite (count_so_ok so 0 H).
  - intros r Hr H. rewrite (count_so_ok so 0).
    + cbn [Nat.add]. f_equal. f_equal. f_equal.
      apply map_ext_in. intros c Hc. rewrite List.Forall_forall in H.
      destruct (H c Hc) as [k Hk]. unfold np_size. rewrite Hk.
      cbn [fold_right nth].
      destruct (Nat.ltb_spec 0 (r * (k * 1))); [done|]. nia.
    + eapply Forall_impl; [exact H|]. intros c [k Hk] _. rewrite Hk. cbn. lia.
  - intros H. by rewrite (count_so_error so H 0).
Qed.

(* ================================================================= *)
(** ** The cutting into blocks does not show in the result *)

#[local] Open Scope Q_scope.

Lemma Qsum_blocks cderi N c (F : vec -> Q) :
  rect N c (factor_rows cderi) ->
  Qsum (map (fun b => Qsum (map F (block_rows cderi b))) (aux_blocks (Z.of_nat N)))
  == Qsum (map F (factor_rows cderi)).
Proof.
  intros Hcd.
  pose proof (Qsum_map_concat F (map (block_rows cderi) (aux_blocks (Z.of_nat N))))
    as H.
  rewrite (concat_block_rows cderi N c Hcd), map_map in H.
  symmetry. exact H.
Qed.

Lemma factor_rows_nonempty cderi N c :
  rect N c (factor_rows cderi) -> (0 < N)%nat -> factor_rows cderi <> [].
Proof. intros [Hlen _] HN E. rewrite E in Hlen. cbn in Hlen. lia. Qed.

(** X21.  For a factor with at least one row, the matrices that [fjk]
    accumulates block by block are those of a single pass over the whole
    factor taken as one block: [J] is [unpack_tril(cderi . dmtril . cderi)],
    [K] of the general path is the one product [buf.T . buf1] over all
    rows, and [K] of the symmetric path (with an eigenvalue retained) is
    [bufpos.T . bufpos - bufneg.T . bufneg] over all rows.  The value of
    [BLOCKDIM] bounds the buffers, not the result (exact arithmetic). *)
Theorem blocking_invisible cderi s nao N hermi dm f a st :
  well_shaped cderi s nao N -> (0 < N)%nat ->
  heap st !! dm = Some (Arr2 f a) -> rect nao nao a ->
  (hermi = 1%Z -> is_Some (eigh a s)) ->
  let rows := factor_rows cderi in
  exists vj vk st' J K,
    fjk cderi s nao (Some (Z.of_nat N)) hermi dm st = (inr (vj, vk), st') /\
    heap st' !! vj = Some (Arr2 f J) /\
    heap st' !! vk = Some (Arr2 f K) /\
    (hermi <> 1%Z ->
     forall i j, (i < nao)%nat -> (j < nao)%nat ->
       entry J i j == entry (j_block rows (dmtril_val nao a)) i j /\
       entry K i j == entry (k_gen_block nao rows a) i j) /\
    (forall e c, hermi = 1%Z -> eigh a s = Some (e, c) ->
     (0 < count_true (pos_mask e) + count_true (neg_mask e))%nat ->
     forall i j, (i < nao)%nat -> (j < nao)%nat ->
       entry J i j == entry (j_block rows (dmtril_val nao a)) i j /\
       entry K i j == entry (k_half nao rows (cpos_of c e)) i j -
                      entry (k_half nao rows (cneg_of c e)) i j).
Proof.
  intros Hws HN Hdm Ha Hh rows.
  pose proof Hws as (Hnao & Hs & Hcd).
  pose proof (factor_rows_nonempty cderi N _ Hcd HN) as Hne.
  assert (forall t i j, (i < nao)%nat -> (j < nao)%nat ->
            entry (J_val cderi (Z.of_nat N) t (zeros nao nao)) i j ==
            entry (j_block rows t) i j) as HJ.
  { intros t i j Hi Hj.
    rewrite (J_val_entry cderi s nao N t i j Hws Hi Hj).
    by rewrite (entry_j_block nao N rows t i j Hcd HN Hi Hj). }
  destruct (Z.eq_dec hermi 1%Z) as [->|Hne1].
  - destruct (Hh eq_refl) as [[e c] He].
    destruct (wp_run _ _ _ (fjk_sym_ok cderi s nao N dm f a e c st Hws Hdm Ha He))
      as ([vj vk] & st' & Hrun & _ & Hj & Hk & _).
    eexists vj, vk, st', _, _.
    split; [exact Hrun|]. split; [exact Hj|]. split; [exact Hk|].
    split; [done|].
    intros e' c' _ He' Hret i j Hi Hj'.
    rewrite He in He'. injection He' as <- <-.
    unfold J_sym, K_sym_val. rewrite (proj2 (retained_true e) Hret).
    split; [by apply HJ|].
    rewrite (K_sym_entry_blocks cderi s nao N _ _ i j Hws Hi Hj').
    rewrite !(entry_k_half nao rows) by done.
    set (Fp := fun row : vec => sumn (ncols (cpos_of c e)) (fun k =>
                 half nao (cpos_of c e) row k i * half nao (cpos_of c e) row k j)).
    set (Fn := fun row : vec => sumn (ncols (cneg_of c e)) (fun k =>
                 half nao (cneg_of c e) row k i * half nao (cneg_of c e) row k j)).
    transitivity (Qsum (map (fun b => Qsum (map Fp (block_rows cderi b)) -
                                      Qsum (map Fn (block_rows cderi b)))
                            (aux_blocks (Z.of_nat N)))).
    { apply Qsum_map_ext. intros b Hb.
      pose proof (block_rows_nonempty _ _ _ _ Hcd Hb) as Hnb.
      by rewrite !entry_k_half by done. }
    rewrite Qsum_map_sub.
    rewrite (Qsum_blocks cderi N _ Fp Hcd), (Qsum_blocks cderi N _ Fn Hcd).
    reflexivity.
  - destruct (wp_run _ _ _ (fjk_gen_ok cderi s nao N hermi dm f a st Hws Hdm Ha Hne1))
      as ([vj vk] & st' & Hrun & _ & Hj & Hk & _).
    eexists vj, vk, st', _, _.
    split; [exact Hrun|]. split; [exact Hj|]. split; [exact Hk|].
    split; [|done].
    intros _ i j Hi Hj'. split; [by apply HJ|].
    rewrite (K_gen_entry_blocks cderi s nao N a i j Hws Hi Hj').
    rewrite (entry_k_gen_block nao rows) by done.
    apply (Qsum_blocks cderi N _
             (fun row => sumn nao (fun k =>
                half nao a row k i * entry (unpack_sym nao row) k j)) Hcd).
Qed.

#[local] Close Scope Q_scope.

(* ================================================================= *)
(** ** A density that is not square *)

Lemma np_add_T_nonsquare r c a :
  rect r c a -> r <> c -> 1 < r -> 1 < c ->
  np_add a (transpose a) = inl ValueError.
Proof.
  intros Ha Hne Hr Hc. unfold np_add, np_binop.
  rewrite (rect_nrows _ _ _ Ha), (rect_ncols _ _ _ Ha) by lia.
  unfold transpose. rewrite (rect_nrows _ _ _ Ha), (rect_ncols _ _ _ Ha) by lia.
  rewrite nrows_tabulate, ncols_tabulate by lia.
  unfold bdim.
  destruct (Nat.eqb_spec r c); [done|].
  destruct (Nat.eqb_spec r 1); [lia|].
  destruct (Nat.eqb_spec c 1); [lia|]. done.
Qed.

(** X22.  A two-dimensional density with different numbers of rows and
    columns, both at least two, is rejected by the first statement of
    [fjk]: [dm + dm.T] cannot be broadcast and raises [ValueError], on
    either path, before any array is created or any block loaded; the
    store is as it was.  (The factor has been built by then.) *)
Theorem nonsquare_rejected mf mol hermi dm f a r c st :
  heap st !! dm = Some (Arr2 f a) -> rect r c a ->
  r <> c -> 1 < r -> 1 < c ->
  snd (get_jk_ mf mol (One dm) hermi st) = (inl ValueError, st) /\
  is_Some (_cderi (fst (get_jk_ mf mol (One dm) hermi st))).
Proof.
  intros Hdm Ha Hne Hr Hc. unfold get_jk_. cbn [fst snd].
  destruct (build_cderi_Some mf mol) as [cd Hcd]. split; [|by rewrite Hcd].
  assert (wpx (jk_of (build_cderi mf mol) hermi (One dm))
              (fun e st' => e = ValueError /\ st' = st) st) as H.
  { unfold jk_of. rewrite Hcd.
    apply wpx_bind_r. eapply wp_getattr; [done|].
    unfold fjk. apply wpx_bind_l. unfold pack_density.
    apply wpx_bind_r. eapply wp_read2; [exact Hdm|]. cbn [snd].
    apply wpx_bind_l. eapply wpx_lift; [by eapply np_add_T_nonsquare|]. done. }
  destruct (wpx_run _ _ _ H) as (e & st' & Hrun & -> & ->). exact Hrun.
Qed.

End Collaborators.

(* ================================================================= *)
(** * Closed instances

    The theorems above at the concrete collaborators and inputs of
    [Demo], and the concrete runs on which sentences of the specification
    fail. *)

#[local] Abbreviation get_jk_demo :=
  (get_jk_ Demo.eigh_demo Demo.sqrt_demo Demo.Mole Demo.nao_nr
           Demo.format_aux_basis Demo.incore_cholesky_eri
           Demo.outcore_cholesky_eri Demo.tempname).
#[local] Abbreviation fjk_demo := (fjk Demo.eigh_demo Demo.sqrt_demo).

Ltac rect_now := split; [reflexivity | repeat constructor].
Ltac shaped_now := split; [lia | split; rect_now].

(** The eigenpairs [eigh_demo] returns for the 2 x 2 problem solve it:
    [dm S c_m = e[m] c_m] and [c_m^T S c_m = 1]. *)
Example eigh_demo_pairs :
  Demo.eigh_demo Demo.dm2 Demo.s2 = Some ([1; 4], [[1; 1]; [-1; 1]])%Q /\
  meq (mm (mm Demo.dm2 Demo.s2) [[1; 1]; [-1; 1]]%Q) [[1; 4]; [-1; 4]]%Q /\
  meq (mm (transpose [[1; 1]; [-1; 1]]%Q) (mm Demo.s2 [[1; 1]; [-1; 1]]%Q))
      [[1; 0]; [0; 1]]%Q.
Proof.
  split; [reflexivity|]. split; repeat constructor.
Qed.

Lemma prange_partition_witness :
  (0 < 2)%Z /\ (0 <= 5)%Z /\
  exists bs, prange 0 5 2 = inr bs /\ tiling 2 0 5 bs /\
             concat (map (fun b => interval (fst b) (snd b)) bs) = interval 0 5.
Proof.
  split; [lia|]. split; [lia|].
  destruct (prange_partition 0 5 2) as [H _]; [lia|].
  destruct H as (bs & Hp & Ht & Hc & _); [lia|].
  exists bs. split; [exact Hp|]. split; [exact Ht|exact Hc].
Defined.

Lemma factor_storage_witness :
  _cderi (Demo.mf1 4000) = None /\
  (exists a, round_double 4000 = Finite a) /\
  times_1e6 4000 = Finite 4000000000 /\
  _cderi (fst (get_jk_demo (Demo.mf1 4000) 1%Z (One 0) 1%Z Demo.st_one))
    = Some (InCore Demo.factor1) /\
  _cderi (fst (get_jk_demo (Demo.mf1 0) 1%Z (One 0) 1%Z Demo.st_one))
    = Some (OutCore Demo.tempname Demo.factor1).
Proof.
  assert (exists a, round_double 4000 = Finite a) as H4 by (by eexists).
  assert (exists a, round_double 0 = Finite a) as H0 by (by eexists).
  split; [reflexivity|]. split; [exact H4|]. split.
  - destruct (factor_storage Demo.eigh_demo Demo.sqrt_demo Demo.Mole Demo.nao_nr
                Demo.format_aux_basis Demo.incore_cholesky_eri
                Demo.outcore_cholesky_eri Demo.tempname
                (Demo.mf1 4000) 1%Z (One 0) 1%Z Demo.st_one eq_refl H4)
      as (_ & _ & _ & _ & Hex).
    apply (Hex 4000%Z); [reflexivity|reflexivity].
  - split.
    + destruct (factor_storage Demo.eigh_demo Demo.sqrt_demo Demo.Mole Demo.nao_nr
                  Demo.format_aux_basis Demo.incore_cholesky_eri
                  Demo.outcore_cholesky_eri Demo.tempname
                  (Demo.mf1 4000) 1%Z (One 0) 1%Z Demo.st_one eq_refl H4)
        as (_ & Hin & _).
      apply Hin. vm_compute. reflexivity.
    + destruct (factor_storage Demo.eigh_demo Demo.sqrt_demo Demo.Mole Demo.nao_nr
                  Demo.format_aux_basis Demo.incore_cholesky_eri
                  Demo.outcore_cholesky_eri Demo.tempname
                  (Demo.mf1 0) 1%Z (One 0) 1%Z Demo.st_one eq_refl H0)
        as (_ & _ & Hout & _).
      apply Hout. vm_compute. discriminate.
Defined.

Lemma eigen_split_witness :
  rect 2 (length Demo.e5) Demo.c5 /\
  pos_mask Demo.e5 = [false; false; false; true; false] /\
  neg_mask Demo.e5 = [true; false; false; false; false] /\
  entry (cpos_of Demo.sqrt_demo Demo.c5 Demo.e5) 1 0
    = (entry Demo.c5 1 3 * Demo.sqrt_demo 9)%Q /\
  entry (cneg_of Demo.sqrt_demo Demo.c5 Demo.e5) 1 0
    = (entry Demo.c5 1 0 * Demo.sqrt_demo (- -4))%Q.
Proof.
  assert (rect 2 (length Demo.e5) Demo.c5) as Hc by rect_now.
  destruct (eigen_split Demo.sqrt_demo Demo.c5 Demo.e5 2 Hc)
    as (_ & _ & _ & _ & _ & _ & Hpos & Hneg).
  split; [exact Hc|]. split; [reflexivity|]. split; [reflexivity|]. split.
  - apply (Hpos 1 0); [lia|vm_compute; lia].
  - apply (Hneg 1 0); [lia|vm_compute; lia].
Defined.

Lemma dmtril_packed_witness :
  heap Demo.st_dm2 !! 0 = Some (Arr2 false Demo.dm2) /\ rect 2 2 Demo.dm2 /\
  exists t,
    pack_density 2 0 Demo.st_dm2 =
      (inr 1, mkState (heap Demo.st_dm2 ++ [Arr1 t]) (loads Demo.st_dm2)) /\
    nth (tri 1 + 0) t 0%Q = (3 + 3)%Q /\
    nth (tri 1 + 1) t 0%Q = ((5 + 5) * (1 # 2))%Q.
Proof.
  assert (rect 2 2 Demo.dm2) as Ha by rect_now.
  split; [reflexivity|]. split; [exact Ha|].
  destruct (dmtril_packed Demo.eigh_demo Demo.sqrt_demo (InCore Demo.factor2)
              Demo.s2 2 (Some 2%Z) 1%Z 0 Demo.st_dm2 false Demo.dm2 eq_refl Ha)
    as (t & Hrun & _ & _ & Hent).
  exists t. split; [exact Hrun|]. split.
  - apply (Hent 1 0); lia.
  - apply (Hent 1 1); lia.
Defined.

Lemma coulomb_accumulated_witness :
  well_shaped (InCore Demo.factor2) Demo.s2 2 2 /\
  rect 2 2 Demo.dm2 /\
  exists vj vk st',
    fjk_demo (InCore Demo.factor2) Demo.s2 2 (Some 2%Z) 1%Z 0 Demo.st_dm2
      = (inr (vj, vk), st') /\
    heap st' !! vj =
      Some (Arr2 false (J_val (InCore Demo.factor2) 2 (dmtril_val 2 Demo.dm2)
                              (zeros 2 2))) /\
    loads st' = [(0, 2)]%Z.
Proof.
  assert (well_shaped (InCore Demo.factor2) Demo.s2 2 2) as Hws by shaped_now.
  assert (rect 2 2 Demo.dm2) as Ha by rect_now.
  split; [exact Hws|]. split; [exact Ha|].
  destruct (coulomb_accumulated Demo.eigh_demo Demo.sqrt_demo
              (InCore Demo.factor2) Demo.s2 2 2 0 false Demo.dm2
              [1; 4]%Q [[1; 1]; [-1; 1]]%Q Demo.st_dm2 Hws eq_refl Ha eq_refl)
    as (vj & vk & st' & Hrun & Hret & _).
  destruct Hret as (Hj & _ & Hld); [vm_compute; lia|].
  exists vj, vk, st'. split; [exact Hrun|]. split; [exact Hj|exact Hld].
Defined.

(** C1 fails on the code: a density whose eigenvalues are all within the
    drop threshold ([dm = [[1e-13]]] with unit overlap, eigenvalue [1e-13])
    leaves [J] at zero and loads no block, although the Coulomb contribution
    of the one block of the factor is [1.3e-12], not zero.  The contraction
    that the comment of lines 77-78 gives for [vj] is [1.3e-12] on this
    density, and so is the [J] of the general path, which loads the
    block. *)
Lemma coulomb_skipped_counterexample :
  fst (fjk_demo (InCore Demo.factor1) [[1%Q]] 1 (Some 2%Z) 1%Z 0 Demo.st_tiny)
    = inr (2, 3) /\
  heap (snd (fjk_demo (InCore Demo.factor1) [[1%Q]] 1 (Some 2%Z) 1%Z 0 Demo.st_tiny))
    !! 2 = Some (Arr2 false [[0%Q]]) /\
  loads (snd (fjk_demo (InCore Demo.factor1) [[1%Q]] 1 (Some 2%Z) 1%Z 0 Demo.st_tiny))
    = [] /\
  aux_blocks 2 = [(0, 2)]%Z /\
  ~ (entry (j_block (block_rows (InCore Demo.factor1) (0, 2)%Z)
                    (dmtril_val 1 [[Demo.tiny]])) 0 0 == 0)%Q /\
  (vj_ref (InCore Demo.factor1) 2 1 [[Demo.tiny]] 0 0 == 13 # 10000000000000)%Q /\
  fst (fjk_demo (InCore Demo.factor1) [[1%Q]] 1 (Some 2%Z) 0%Z 0 Demo.st_tiny)
    = inr (2, 3) /\
  (exists J,
     heap (snd (fjk_demo (InCore Demo.factor1) [[1%Q]] 1 (Some 2%Z) 0%Z 0
                         Demo.st_tiny)) !! 2 = Some (Arr2 false [[J]]) /\
     (J == 13 # 10000000000000)%Q) /\
  loads (snd (fjk_demo (InCore Demo.factor1) [[1%Q]] 1 (Some 2%Z) 0%Z 0 Demo.st_tiny))
    = [(0, 2)]%Z.
Proof.
  split; [reflexivity|]. split; [reflexivity|]. split; [reflexivity|].
  split; [reflexivity|]. split; [vm_compute; discriminate|].
  split; [vm_compute; reflexivity|]. split; [reflexivity|].
  split; [|reflexivity].
  eexists. split; [vm_compute; reflexivity|]. vm_compute. reflexivity.
Defined.

Lemma zero_density_witness :
  well_shaped (InCore Demo.factor1) [[1%Q]] 1 2 /\
  (exists vj vk st',
     fjk_demo (InCore Demo.factor1) [[1%Q]] 1 (Some 2%Z) 1%Z 0 Demo.st_zero
       = (inr (vj, vk), st') /\
     heap st' !! vj = Some (Arr2 false (zeros 1 1)) /\
     heap st' !! vk = Some (Arr2 false (zeros 1 1))) /\
  (exists vj vk st' J K,
     fjk_demo (InCore Demo.factor1) [[1%Q]] 1 (Some 2%Z) 0%Z 0 Demo.st_zero
       = (inr (vj, vk), st') /\
     heap st' !! vj = Some (Arr2 false J) /\
     heap st' !! vk = Some (Arr2 false K) /\
     meq J (zeros 1 1) /\ meq K (zeros 1 1)).
Proof.
  assert (well_shaped (InCore Demo.factor1) [[1%Q]] 1 2) as Hws by shaped_now.
  split; [exact Hws|].
  destruct (zero_density Demo.eigh_demo Demo.sqrt_demo (InCore Demo.factor1)
              [[1%Q]] 1 2 0 false Demo.st_zero Hws eq_refl) as [Hsym Hgen].
  split.
  - apply (Hsym [0%Q] [[1%Q]]); [reflexivity|].
    repeat constructor. vm_compute. discriminate.
  - apply (Hgen 0%Z). lia.
Defined.

Lemma batch_pointwise_witness :
  well_shaped (InCore Demo.factor1) [[1%Q]] 1 2 /\
  exists vj vk st',
    snd (get_jk_demo (Demo.mf1 4000) 1%Z (Many [0; 1]) 1%Z Demo.st_two)
      = (inr (vj, vk), st') /\
    exists J0 J1 K0 K1,
      heap st' !! vj = Some (Arr3 [J0; J1]) /\
      heap st' !! vk = Some (Arr3 [K0; K1]) /\
      (exists vj1 vk1 st1,
         snd (get_jk_demo (Demo.mf1 4000) 1%Z (One 1) 1%Z Demo.st_two)
           = (inr (vj1, vk1), st1) /\
         heap st1 !! vj1 = Some (Arr2 false J1) /\
         heap st1 !! vk1 = Some (Arr2 false K1)).
Proof.
  assert (well_shaped (InCore Demo.factor1) [[1%Q]] 1 2) as Hws by shaped_now.
  split; [exact Hws|].
  destruct (batch_pointwise Demo.eigh_demo Demo.sqrt_demo Demo.Mole Demo.nao_nr
              Demo.format_aux_basis Demo.incore_cholesky_eri
              Demo.outcore_cholesky_eri Demo.tempname
              (Demo.mf1 4000) 1%Z 1%Z [0; 1] Demo.st_two
              (InCore Demo.factor1) 2 1 eq_refl eq_refl eq_refl Hws)
    as (vj & vk & st' & Js & Ks & Hrun & Hj & Hk & HlJ & HlK & Hpt).
  { constructor; [|constructor; [|constructor]].
    - exists false, [[4%Q]]. split; [reflexivity|]. split; [rect_now|].
      intros _. eexists. reflexivity.
    - exists false, [[9%Q]]. split; [reflexivity|]. split; [rect_now|].
      intros _. eexists. reflexivity. }
  exists vj, vk, st'. split; [exact Hrun|].
  destruct Js as [|J0 [|J1 [|? ?]]]; try discriminate HlJ.
  destruct Ks as [|K0 [|K1 [|? ?]]]; try discriminate HlK.
  exists J0, J1, K0, K1. split; [exact Hj|]. split; [exact Hk|].
  destruct (Hpt 1 1 eq_refl) as (vj1 & vk1 & st1 & f & J & K & Hrun1 & Hj1 & Hk1 & HJ & HK).
  injection HJ as <-. injection HK as <-.
  exists vj1, vk1, st1. split; [exact Hrun1|].
  assert (f = false) as ->.
  { revert Hrun1 Hj1. vm_compute. intros [= <- <- <-] [= <-]. reflexivity. }
  split; [exact Hj1|exact Hk1].
Defined.

Lemma exchange_paths_witness :
  well_shaped (InCore Demo.factor2) Demo.s2 2 2 /\
  heap Demo.st_dm2 !! 0 = Some (Arr2 false Demo.dm2) /\
  rect 2 2 Demo.dm2 /\
  Demo.eigh_demo Demo.dm2 Demo.s2 = Some ([1; 4], [[1; 1]; [-1; 1]])%Q /\
  rect 2 2 [[1; 1]; [-1; 1]]%Q /\
  Forall (fun w => w == 0)%Q (weight_gap Demo.sqrt_demo [1; 4]%Q) /\
  exists vj1 vk1 st1 vj2 vk2 st2 Ksym Kgen,
    fjk_demo (InCore Demo.factor2) Demo.s2 2 (Some 2%Z) 1%Z 0 Demo.st_dm2
      = (inr (vj1, vk1), st1) /\
    heap st1 !! vk1 = Some (Arr2 false Ksym) /\
    fjk_demo (InCore Demo.factor2) Demo.s2 2 (Some 2%Z) 0%Z 0 Demo.st_dm2
      = (inr (vj2, vk2), st2) /\
    heap st2 !! vk2 = Some (Arr2 false Kgen) /\
    meq Ksym Kgen /\
    (forall i j, i < 2 -> j < 2 ->
       (Qabs (entry Kgen i j - entry Ksym i j) <=
        0 * pair_abs (InCore Demo.factor2) 2 2 [[1; 1]; [-1; 1]] 2 i j +
        Qabs (entry (K_gen (InCore Demo.factor2) 2 2
                       (eig_residual 2 Demo.dm2 [1; 4] [[1; 1]; [-1; 1]])
                       (zeros 2 2)) i j))%Q).
Proof.
  assert (well_shaped (InCore Demo.factor2) Demo.s2 2 2) as Hws by shaped_now.
  assert (rect 2 2 Demo.dm2) as Ha by rect_now.
  assert (rect 2 2 [[1; 1]; [-1; 1]]%Q) as Hc by rect_now.
  assert (Forall (fun w => w == 0)%Q (weight_gap Demo.sqrt_demo [1; 4]%Q)) as Hgap
    by (repeat constructor).
  split; [exact Hws|]. split; [reflexivity|]. split; [exact Ha|].
  split; [reflexivity|]. split; [exact Hc|]. split; [exact Hgap|].
  destruct (exchange_paths Demo.eigh_demo Demo.sqrt_demo (InCore Demo.factor2)
              Demo.s2 2 2 0 false Demo.dm2 [1; 4]%Q [[1; 1]; [-1; 1]]%Q 0%Z
              Demo.st_dm2 Hws eq_refl Ha ltac:(lia) eq_refl Hc)
    as (vj1 & vk1 & st1 & vj2 & vk2 & st2 & Ksym & Kgen &
        Hr1 & Hk1 & Hr2 & Hk2 & _ & Hbound & Heq & _).
  exists vj1, vk1, st1, vj2, vk2, st2, Ksym, Kgen.
  split; [exact Hr1|]. split; [exact Hk1|]. split; [exact Hr2|].
  split; [exact Hk2|]. split.
  - apply Heq; [exact Hgap|].
    intros [|[|p]] [|[|q]] Hp Hq; try lia; reflexivity.
  - intros i j Hi Hj. apply Hbound; [|exact Hi|exact Hj].
    repeat constructor; vm_compute; discriminate.
Defined.

(** C4 fails on the code: the 1 x 1 density [[1e-13]] is symmetric, and
    with unit overlap its one eigenvalue [1e-13] is below the drop
    threshold.  For a factor whose one row is [1e10] the symmetric path
    returns [K = [[0]]] without reading the factor, and the general path
    returns [K = [[1e7]]]. *)
Lemma exchange_dropped_counterexample :
  Demo.eigh_demo [[Demo.tiny]] [[1%Q]] = Some ([Demo.tiny], [[1%Q]]) /\
  fst (fjk_demo (InCore Demo2.factor_big) [[1%Q]] 1 (Some 1%Z) 1%Z 0 Demo.st_tiny)
    = inr (2, 3) /\
  heap (snd (fjk_demo (InCore Demo2.factor_big) [[1%Q]] 1 (Some 1%Z) 1%Z 0
                      Demo.st_tiny)) !! 3 = Some (Arr2 false [[0%Q]]) /\
  loads (snd (fjk_demo (InCore Demo2.factor_big) [[1%Q]] 1 (Some 1%Z) 1%Z 0
                       Demo.st_tiny)) = [] /\
  fst (fjk_demo (InCore Demo2.factor_big) [[1%Q]] 1 (Some 1%Z) 0%Z 0 Demo.st_tiny)
    = inr (2, 3) /\
  (exists K,
     heap (snd (fjk_demo (InCore Demo2.factor_big) [[1%Q]] 1 (Some 1%Z) 0%Z 0
                         Demo.st_tiny)) !! 3 = Some (Arr2 false [[K]]) /\
     (K == 10000000)%Q) /\
  loads (snd (fjk_demo (InCore Demo2.factor_big) [[1%Q]] 1 (Some 1%Z) 0%Z 0
                       Demo.st_tiny)) = [(0, 1)]%Z.
Proof.
  split; [reflexivity|]. split; [reflexivity|]. split; [reflexivity|].
  split; [reflexivity|]. split; [reflexivity|]. split; [|reflexivity].
  eexists. split; [vm_compute; reflexivity|]. vm_compute. reflexivity.
Defined.

(** The round-off of the square root alone: for the density [[2]] (unit
    overlap, factor rows [3] and [2]) the general path returns [K = [[26]]]
    and the symmetric path, with a square root of twelve decimal places,
    a [K] that is smaller by less than [1e-10]. *)
Example exchange_sqrt_roundoff :
  exists Ksym Kgen,
    heap (snd (fjk_demo (InCore Demo.factor1) [[1%Q]] 1 (Some 2%Z) 1%Z 0
                        Demo2.st_sqrt2)) !! 3 = Some (Arr2 false [[Ksym]]) /\
    heap (snd (fjk_demo (InCore Demo.factor1) [[1%Q]] 1 (Some 2%Z) 0%Z 0
                        Demo2.st_sqrt2)) !! 3 = Some (Arr2 false [[Kgen]]) /\
    (Kgen == 26)%Q /\ (Ksym < Kgen)%Q /\ (Kgen - Ksym < 1 # 10000000000)%Q.
Proof.
  eexists _, _. split; [vm_compute; reflexivity|].
  split; [vm_compute; reflexivity|]. split; [vm_compute; reflexivity|].
  split; vm_compute; reflexivity.
Qed.



(* ================================================================= *)
(** * Closed instances of the further properties *)

#[local] Abbreviation get_so_demo :=
  (get_so nat nat nat nat Demo2.detect_symm Demo2.symm_identical_atoms
          Demo2.symm_adapted_basis).

Lemma coulomb_reference_witness :
  well_shaped (InCore Demo.factor2) Demo.s2 2 2 /\
  exists vj vk st' J,
    fjk_demo (InCore Demo.factor2) Demo.s2 2 (Some 2%Z) 1%Z 0 Demo.st_dm2
      = (inr (vj, vk), st') /\
    heap st' !! vj = Some (Arr2 false J) /\
    (entry J 0 1 == vj_ref (InCore Demo.factor2) 2 2 Demo.dm2 0 1)%Q.
Proof.
  assert (well_shaped (InCore Demo.factor2) Demo.s2 2 2) as Hws by shaped_now.
  split; [exact Hws|].
  destruct (coulomb_reference Demo.eigh_demo Demo.sqrt_demo (InCore Demo.factor2)
              Demo.s2 2 2 1%Z 0 false Demo.dm2 Demo.st_dm2 Hws eq_refl)
    as (vj & vk & st' & J & Hrun & Hj & _ & Hent).
  - rect_now.
  - intros _. exists [1; 4]%Q, [[1; 1]; [-1; 1]]%Q.
    split; [reflexivity|vm_compute; lia].
  - exists vj, vk, st', J. split; [exact Hrun|]. split; [exact Hj|].
    apply Hent; lia.
Defined.

Lemma coulomb_symmetric_witness :
  well_shaped (InCore Demo.factor2) Demo.s2 2 2 /\
  exists vj vk st' J,
    fjk_demo (InCore Demo.factor2) Demo.s2 2 (Some 2%Z) 0%Z 0 Demo2.st_lin
      = (inr (vj, vk), st') /\
    heap st' !! vj = Some (Arr2 false J) /\
    (entry J 0 1 == entry J 1 0)%Q.
Proof.
  assert (well_shaped (InCore Demo.factor2) Demo.s2 2 2) as Hws by shaped_now.
  split; [exact Hws|].
  destruct (coulomb_symmetric Demo.eigh_demo Demo.sqrt_demo (InCore Demo.factor2)
              Demo.s2 2 2 0%Z 0 false Demo2.dmA Demo2.st_lin Hws eq_refl)
    as (vj & vk & st' & J & Hrun & Hj & Hsym).
  - rect_now.
  - intros H. discriminate H.
  - exists vj, vk, st', J. split; [exact Hrun|]. split; [exact Hj|].
    apply Hsym; lia.
Defined.

Lemma coulomb_sees_symmetric_part_witness :
  well_shaped (InCore Demo.factor2) Demo.s2 2 2 /\
  exists vj1 vk1 st1 J1 vj2 vk2 st2 J2,
    fjk_demo (InCore Demo.factor2) Demo.s2 2 (Some 2%Z) 0%Z 0 Demo2.st_lin
      = (inr (vj1, vk1), st1) /\
    heap st1 !! vj1 = Some (Arr2 false J1) /\
    fjk_demo (InCore Demo.factor2) Demo.s2 2 (Some 2%Z) 0%Z 1 Demo2.st_lin
      = (inr (vj2, vk2), st2) /\
    heap st2 !! vj2 = Some (Arr2 false J2) /\
    (entry J1 0 1 == entry J2 0 1)%Q.
Proof.
  assert (well_shaped (InCore Demo.factor2) Demo.s2 2 2) as Hws by shaped_now.
  split; [exact Hws|].
  destruct (coulomb_sees_symmetric_part Demo.eigh_demo Demo.sqrt_demo
              (InCore Demo.factor2) Demo.s2 2 2 0%Z 0 1 false false
              Demo2.dmA Demo2.dmAT Demo2.st_lin Hws eq_refl)
    as (vj1 & vk1 & st1 & J1 & vj2 & vk2 & st2 & J2 & Hr1 & Hj1 & Hr2 & Hj2 & Heq).
  - rect_now.
  - reflexivity.
  - rect_now.
  - lia.
  - intros [|[|k]] [|[|l]] Hk Hl; try lia; reflexivity.
  - exists vj1, vk1, st1, J1, vj2, vk2, st2, J2.
    split; [exact Hr1|]. split; [exact Hj1|]. split; [exact Hr2|].
    split; [exact Hj2|]. apply Heq; lia.
Defined.

Lemma coulomb_linear_witness :
  well_shaped (InCore Demo.factor2) Demo.s2 2 2 /\
  exists vj1 vk1 st1 J1 vj2 vk2 st2 J2 vj3 vk3 st3 J3,
    fjk_demo (InCore Demo.factor2) Demo.s2 2 (Some 2%Z) 0%Z 0 Demo2.st_lin
      = (inr (vj1, vk1), st1) /\
    heap st1 !! vj1 = Some (Arr2 false J1) /\
    fjk_demo (InCore Demo.factor2) Demo.s2 2 (Some 2%Z) 0%Z 2 Demo2.st_lin
      = (inr (vj2, vk2), st2) /\
    heap st2 !! vj2 = Some (Arr2 false J2) /\
    fjk_demo (InCore Demo.factor2) Demo.s2 2 (Some 2%Z) 0%Z 3 Demo2.st_lin
      = (inr (vj3, vk3), st3) /\
    heap st3 !! vj3 = Some (Arr2 false J3) /\
    (entry J3 1 0 == 2 * entry J1 1 0 + -1 * entry J2 1 0)%Q.
Proof.
  assert (well_shaped (InCore Demo.factor2) Demo.s2 2 2) as Hws by shaped_now.
  split; [exact Hws|].
  destruct (coulomb_linear Demo.eigh_demo Demo.sqrt_demo
              (InCore Demo.factor2) Demo.s2 2 2 0%Z 0 2 3 false false false
              Demo2.dmA Demo2.dmB Demo2.dmC 2%Q (-1)%Q Demo2.st_lin Hws eq_refl)
    as (vj1 & vk1 & st1 & J1 & vj2 & vk2 & st2 & J2 & vj3 & vk3 & st3 & J3 &
        Hr1 & Hj1 & Hr2 & Hj2 & Hr3 & Hj3 & Heq).
  - rect_now.
  - reflexivity.
  - rect_now.
  - reflexivity.
  - rect_now.
  - lia.
  - intros [|[|k]] [|[|l]] Hk Hl; try lia; reflexivity.
  - exists vj1, vk1, st1, J1, vj2, vk2, st2, J2, vj3, vk3, st3, J3.
    split; [exact Hr1|]. split; [exact Hj1|]. split; [exact Hr2|].
    split; [exact Hj2|]. split; [exact Hr3|]. split; [exact Hj3|].
    apply Heq; lia.
Defined.

Lemma coulomb_same_on_both_paths_witness :
  well_shaped (InCore Demo.factor2) Demo.s2 2 2 /\
  exists vj1 vk1 st1 vj2 vk2 st2 J,
    fjk_demo (InCore Demo.factor2) Demo.s2 2 (Some 2%Z) 1%Z 0 Demo.st_dm2
      = (inr (vj1, vk1), st1) /\
    fjk_demo (InCore Demo.factor2) Demo.s2 2 (Some 2%Z) 0%Z 0 Demo.st_dm2
      = (inr (vj2, vk2), st2) /\
    heap st1 !! vj1 = Some (Arr2 false J) /\
    heap st2 !! vj2 = Some (Arr2 false J).
Proof.
  assert (well_shaped (InCore Demo.factor2) Demo.s2 2 2) as Hws by shaped_now.
  split; [exact Hws|].
  destruct (coulomb_same_on_both_paths Demo.eigh_demo Demo.sqrt_demo
              (InCore Demo.factor2) Demo.s2 2 2 0%Z 0 false Demo.dm2
              [1; 4]%Q [[1; 1]; [-1; 1]]%Q Demo.st_dm2 Hws eq_refl)
    as (vj1 & vk1 & st1 & vj2 & vk2 & st2 & J & Hr1 & Hr2 & Hj1 & Hj2 & _).
  - rect_now.
  - reflexivity.
  - vm_compute; lia.
  - lia.
  - exists vj1, vk1, st1, vj2, vk2, st2, J.
    split; [exact Hr1|]. split; [exact Hr2|]. split; [exact Hj1|exact Hj2].
Defined.

Lemma exchange_symmetric_witness :
  well_shaped (InCore Demo.factor2) Demo.s2 2 2 /\
  exists vj vk st' K,
    fjk_demo (InCore Demo.factor2) Demo.s2 2 (Some 2%Z) 1%Z 0 Demo.st_dm2
      = (inr (vj, vk), st') /\
    heap st' !! vk = Some (Arr2 false K) /\
    (entry K 0 1 == entry K 1 0)%Q.
Proof.
  assert (well_shaped (InCore Demo.factor2) Demo.s2 2 2) as Hws by shaped_now.
  split; [exact Hws|].
  destruct (exchange_symmetric Demo.eigh_demo Demo.sqrt_demo
              (InCore Demo.factor2) Demo.s2 2 2 0 false Demo.dm2
              [1; 4]%Q [[1; 1]; [-1; 1]]%Q Demo.st_dm2 Hws eq_refl)
    as (vj & vk & st' & K & Hrun & Hk & Hsym).
  - rect_now.
  - reflexivity.
  - exists vj, vk, st', K. split; [exact Hrun|]. split; [exact Hk|].
    apply Hsym; lia.
Defined.

Lemma exchange_semidefinite_witness :
  well_shaped (InCore Demo.factor2) Demo.s2 2 2 /\
  exists vj vk st' K,
    fjk_demo (InCore Demo.factor2) Demo.s2 2 (Some 2%Z) 1%Z 0 Demo.st_dm2
      = (inr (vj, vk), st') /\
    heap st' !! vk = Some (Arr2 false K) /\
    (0 <= quad_form 2 K [1; -1])%Q.
Proof.
  assert (well_shaped (InCore Demo.factor2) Demo.s2 2 2) as Hws by shaped_now.
  split; [exact Hws|].
  destruct (exchange_semidefinite Demo.eigh_demo Demo.sqrt_demo
              (InCore Demo.factor2) Demo.s2 2 2 0 false Demo.dm2
              [1; 4]%Q [[1; 1]; [-1; 1]]%Q Demo.st_dm2 Hws eq_refl)
    as (vj & vk & st' & K & Hrun & Hk & Hpos & _).
  - rect_now.
  - reflexivity.
  - exists vj, vk, st', K. split; [exact Hrun|]. split; [exact Hk|].
    apply Hpos. repeat constructor; vm_compute; discriminate.
Defined.

Lemma exchange_linear_witness :
  well_shaped (InCore Demo.factor2) Demo.s2 2 2 /\
  exists vj1 vk1 st1 K1 vj2 vk2 st2 K2 vj3 vk3 st3 K3,
    fjk_demo (InCore Demo.factor2) Demo.s2 2 (Some 2%Z) 0%Z 0 Demo2.st_lin
      = (inr (vj1, vk1), st1) /\
    heap st1 !! vk1 = Some (Arr2 false K1) /\
    fjk_demo (InCore Demo.factor2) Demo.s2 2 (Some 2%Z) 0%Z 2 Demo2.st_lin
      = (inr (vj2, vk2), st2) /\
    heap st2 !! vk2 = Some (Arr2 false K2) /\
    fjk_demo (InCore Demo.factor2) Demo.s2 2 (Some 2%Z) 0%Z 3 Demo2.st_lin
      = (inr (vj3, vk3), st3) /\
    heap st3 !! vk3 = Some (Arr2 false K3) /\
    (entry K3 1 0 == 2 * entry K1 1 0 + -1 * entry K2 1 0)%Q.
Proof.
  assert (well_shaped (InCore Demo.factor2) Demo.s2 2 2) as Hws by shaped_now.
  split; [exact Hws|].
  destruct (exchange_linear Demo.eigh_demo Demo.sqrt_demo
              (InCore Demo.factor2) Demo.s2 2 2 0%Z 0 2 3 false false false
              Demo2.dmA Demo2.dmB Demo2.dmC 2%Q (-1)%Q Demo2.st_lin Hws eq_refl)
    as (vj1 & vk1 & st1 & K1 & vj2 & vk2 & st2 & K2 & vj3 & vk3 & st3 & K3 &
        Hr1 & Hk1 & Hr2 & Hk2 & Hr3 & Hk3 & Heq).
  - rect_now.
  - reflexivity.
  - rect_now.
  - reflexivity.
  - rect_now.
  - lia.
  - intros [|[|k]] [|[|l]] Hk Hl; try lia; reflexivity.
  - exists vj1, vk1, st1, K1, vj2, vk2, st2, K2, vj3, vk3, st3, K3.
    split; [exact Hr1|]. split; [exact Hk1|]. split; [exact Hr2|].
    split; [exact Hk2|]. split; [exact Hr3|]. split; [exact Hk3|].
    apply Heq; lia.
Defined.

Lemma factor_read_in_blocks_witness :
  well_shaped (InCore Demo.factor2) Demo.s2 2 2 /\
  exists vj vk st' L,
    fjk_demo (InCore Demo.factor2) Demo.s2 2 (Some 2%Z) 1%Z 0 Demo.st_dm2
      = (inr (vj, vk), st') /\
    loads st' = loads Demo.st_dm2 ++ L /\
    consecutive 0 2 L /\
    length L = 1.
Proof.
  assert (well_shaped (InCore Demo.factor2) Demo.s2 2 2) as Hws by shaped_now.
  split; [exact Hws|].
  destruct (factor_read_in_blocks Demo.eigh_demo Demo.sqrt_demo
              (InCore Demo.factor2) Demo.s2 2 2 1%Z 0 false Demo.dm2 Demo.st_dm2
              Hws eq_refl)
    as (vj & vk & st' & L & Hrun & Hld & Hc & _ & Hlen).
  - rect_now.
  - intros _. exists [1; 4]%Q, [[1; 1]; [-1; 1]]%Q.
    split; [reflexivity|vm_compute; lia].
  - exists vj, vk, st', L. split; [exact Hrun|]. split; [exact Hld|].
    split; [exact Hc|exact Hlen].
Defined.

Lemma batch_rereads_factor_witness :
  well_shaped (InCore Demo.factor1) [[1%Q]] 1 2 /\
  exists vj vk st',
    snd (get_jk_demo (Demo.mf1 4000) 1%Z (Many [0; 1]) 0%Z Demo.st_two)
      = (inr (vj, vk), st') /\
    loads st' = [(0, 2); (0, 2)]%Z.
Proof.
  assert (well_shaped (InCore Demo.factor1) [[1%Q]] 1 2) as Hws by shaped_now.
  split; [exact Hws|].
  destruct (batch_rereads_factor Demo.eigh_demo Demo.sqrt_demo Demo.Mole Demo.nao_nr
              Demo.format_aux_basis Demo.incore_cholesky_eri
              Demo.outcore_cholesky_eri Demo.tempname
              (Demo.mf1 4000) 1%Z 0%Z [0; 1] Demo.st_two
              (InCore Demo.factor1) 2 1 eq_refl eq_refl eq_refl Hws)
    as (vj & vk & st' & Hrun & Hld).
  - constructor; [|constructor; [|constructor]].
    + exists false, [[4%Q]]. split; [reflexivity|rect_now].
    + exists false, [[9%Q]]. split; [reflexivity|rect_now].
  - lia.
  - exists vj, vk, st'. split; [exact Hrun|exact Hld].
Defined.

Lemma eigensolver_failure_witness :
  rect 1 1 (ovlp Demo2.mf_bad) /\
  Demo.eigh_demo [[4%Q]] (ovlp Demo2.mf_bad) = None /\
  exists st',
    snd (get_jk_demo Demo2.mf_bad 1%Z (One 0) 1%Z Demo.st_one)
      = (inl LinAlgError, st') /\
    loads st' = loads Demo.st_one.
Proof.
  assert (rect 1 1 (ovlp Demo2.mf_bad)) as Hs by rect_now.
  split; [exact Hs|]. split; [reflexivity|].
  destruct (eigensolver_failure Demo.eigh_demo Demo.sqrt_demo Demo.Mole Demo.nao_nr
              Demo.format_aux_basis Demo.incore_cholesky_eri
              Demo.outcore_cholesky_eri Demo.tempname
              Demo2.mf_bad 1%Z 0 false [[4%Q]] Demo.st_one 1 eq_refl Hs eq_refl)
    as (st' & Hrun & Hld & _).
  - rect_now.
  - reflexivity.
  - exists st'. split; [exact Hrun|exact Hld].
Defined.

Lemma naoaux_missing_witness :
  _cderi Demo2.mf_preset = Some (InCore Demo.factor1) /\
  _naoaux Demo2.mf_preset = None /\
  (exists st',
     snd (get_jk_demo Demo2.mf_preset 1%Z (One 0) 1%Z Demo.st_one)
       = (inl AttributeError, st') /\
     loads st' = loads Demo.st_one) /\
  (exists vj vk st',
     snd (get_jk_demo Demo2.mf_preset 1%Z (One 0) 1%Z Demo.st_tiny)
       = (inr (vj, vk), st') /\
     heap st' !! vj = Some (Arr2 false (zeros 1 1))).
Proof.
  split; [reflexivity|]. split; [reflexivity|]. split.
  - destruct (naoaux_missing Demo.eigh_demo Demo.sqrt_demo Demo.Mole Demo.nao_nr
                Demo.format_aux_basis Demo.incore_cholesky_eri
                Demo.outcore_cholesky_eri Demo.tempname
                Demo2.mf_preset 1%Z 0 1%Z false [[4%Q]] Demo.st_one
                (InCore Demo.factor1) 1 eq_refl eq_refl eq_refl)
      as [Herr _].
    + rect_now.
    + reflexivity.
    + rect_now.
    + apply Herr. intros _. exists [4%Q], [[1%Q]].
      split; [reflexivity|vm_compute; lia].
  - destruct (naoaux_missing Demo.eigh_demo Demo.sqrt_demo Demo.Mole Demo.nao_nr
                Demo.format_aux_basis Demo.incore_cholesky_eri
                Demo.outcore_cholesky_eri Demo.tempname
                Demo2.mf_preset 1%Z 0 1%Z false [[Demo.tiny]] Demo.st_tiny
                (InCore Demo.factor1) 1 eq_refl eq_refl eq_refl)
      as [_ Hok].
    + rect_now.
    + reflexivity.
    + rect_now.
    + destruct Hok as (vj & vk & st' & Hrun & Hj & _); [reflexivity| |].
      * exists [Demo.tiny], [[1%Q]]. split; reflexivity.
      * exists vj, vk, st'. split; [exact Hrun|exact Hj].
Defined.

Lemma outputs_are_new_witness :
  snd (get_jk_demo (Demo.mf1 4000) 1%Z (One 0) 1%Z Demo.st_one)
    = (inr (2, 3),
       snd (snd (get_jk_demo (Demo.mf1 4000) 1%Z (One 0) 1%Z Demo.st_one))) /\
  length (heap Demo.st_one) <= 2 /\ 2 < 3 /\
  3 < length (heap (snd (snd (get_jk_demo (Demo.mf1 4000) 1%Z (One 0) 1%Z
                                          Demo.st_one)))).
Proof.
  assert (snd (get_jk_demo (Demo.mf1 4000) 1%Z (One 0) 1%Z Demo.st_one)
          = (inr (2, 3),
             snd (snd (get_jk_demo (Demo.mf1 4000) 1%Z (One 0) 1%Z Demo.st_one))))
    as Hrun by reflexivity.
  split; [exact Hrun|].
  exact (outputs_are_new Demo.eigh_demo Demo.sqrt_demo Demo.Mole Demo.nao_nr
           Demo.format_aux_basis Demo.incore_cholesky_eri
           Demo.outcore_cholesky_eri Demo.tempname
           (Demo.mf1 4000) 1%Z (One 0) 1%Z Demo.st_one 2 3 _ Hrun).
Defined.

Lemma prange_concat_witness :
  exists l1 l2,
    prange 0 4 2 = inr l1 /\ prange 4 7 2 = inr l2 /\
    prange 0 7 2 = inr (l1 ++ l2).
Proof. apply prange_concat; [lia|lia|lia|reflexivity]. Defined.

Lemma prange_count_witness :
  exists bs, prange 0 161 160 = inr bs /\ Z.of_nat (length bs) = 2%Z.
Proof.
  destruct (prange_count 0 161 160) as (bs & Hp & Hl & _); [lia|lia|].
  exists bs. split; [exact Hp|exact Hl].
Defined.

Lemma empty_auxiliary_basis_witness :
  heap Demo.st_mixed !! 1 = Some (Arr2 false Demo.dm2) /\ rect 2 2 Demo.dm2 /\
  exists vj vk st',
    fjk_demo (InCore []) [[1%Q]] 1 (Some 0%Z) 0%Z 1 Demo.st_mixed
      = (inr (vj, vk), st') /\
    heap st' !! vj = Some (Arr2 false (zeros 2 2)) /\
    heap st' !! vk = Some (Arr2 false (zeros 2 2)) /\
    loads st' = loads Demo.st_mixed.
Proof.
  assert (rect 2 2 Demo.dm2) as Ha by rect_now.
  split; [reflexivity|]. split; [exact Ha|].
  apply (empty_auxiliary_basis Demo.eigh_demo Demo.sqrt_demo (InCore [])
           [[1%Q]] 1 0%Z 0%Z 1 false Demo.dm2 2 Demo.st_mixed).
  - lia.
  - rect_now.
  - reflexivity.
  - exact Ha.
  - lia.
  - intros H. discriminate H.
Defined.

Lemma get_so_counts_witness :
  Demo2.detect_symm 7 = (0, 7) /\
  get_so_demo 7 0 = inr (3, Demo2.so3).
Proof.
  split; [reflexivity|].
  destruct (get_so_counts nat nat nat nat Demo2.detect_symm
              Demo2.symm_identical_atoms Demo2.symm_adapted_basis
              7 0 0 7 eq_refl) as (_ & Hcols & _).
  apply (Hcols 3); [lia|].
  repeat constructor; eexists; reflexivity.
Defined.

Lemma zero_budget_out_of_core_witness :
  (0 <= Demo.nao_nr 1)%Z /\
  _cderi (fst (get_jk Demo.eigh_demo Demo.sqrt_demo Demo.Mole Demo.nao_nr
                 Demo.format_aux_basis Demo.incore_cholesky_eri
                 Demo.outcore_cholesky_eri Demo.tempname
                 (set_max_memory (density_fit (Demo.mf1 4000)) 0) 1%Z (One 0)
                 None Demo.st_one))
    = Some (OutCore Demo.tempname Demo.factor1).
Proof.
  split; [vm_compute; discriminate|].
  apply (zero_budget_out_of_core Demo.eigh_demo Demo.sqrt_demo Demo.Mole
           Demo.nao_nr Demo.format_aux_basis Demo.incore_cholesky_eri
           Demo.outcore_cholesky_eri Demo.tempname).
  - vm_compute; discriminate.
  - vm_compute; discriminate.
Defined.

Lemma blocking_invisible_witness :
  well_shaped (InCore Demo.factor2) Demo.s2 2 2 /\
  exists vj vk st' J K,
    fjk_demo (InCore Demo.factor2) Demo.s2 2 (Some 2%Z) 1%Z 0 Demo.st_dm2
      = (inr (vj, vk), st') /\
    heap st' !! vj = Some (Arr2 false J) /\
    heap st' !! vk = Some (Arr2 false K) /\
    (entry J 0 1 ==
     entry (j_block Demo.factor2 (dmtril_val 2 Demo.dm2)) 0 1)%Q /\
    (entry K 0 1 ==
     entry (k_half 2 Demo.factor2
              (cpos_of Demo.sqrt_demo [[1; 1]; [-1; 1]] [1; 4])) 0 1 -
     entry (k_half 2 Demo.factor2
              (cneg_of Demo.sqrt_demo [[1; 1]; [-1; 1]] [1; 4])) 0 1)%Q.
Proof.
  assert (well_shaped (InCore Demo.factor2) Demo.s2 2 2) as Hws by shaped_now.
  split; [exact Hws|].
  destruct (blocking_invisible Demo.eigh_demo Demo.sqrt_demo
              (InCore Demo.factor2) Demo.s2 2 2 1%Z 0 false Demo.dm2 Demo.st_dm2
              Hws)
    as (vj & vk & st' & J & K & Hrun & Hj & Hk & _ & Hsym).
  - lia.
  - reflexivity.
  - rect_now.
  - intros _. eexists. reflexivity.
  - exists vj, vk, st', J, K.
    split; [exact Hrun|]. split; [exact Hj|]. split; [exact Hk|].
    apply (Hsym [1; 4]%Q [[1; 1]; [-1; 1]]%Q);
      [reflexivity|reflexivity|vm_compute; lia|lia|lia].
Defined.

Lemma nonsquare_rejected_witness :
  rect 2 3 [[1; 2; 3]; [4; 5; 6]]%Q /\
  snd (get_jk_demo (Demo.mf1 4000) 1%Z (One 0) 1%Z
         (mkState [Arr2 false [[1; 2; 3]; [4; 5; 6]]%Q] []))
    = (inl ValueError, mkState [Arr2 false [[1; 2; 3]; [4; 5; 6]]%Q] []).
Proof.
  assert (rect 2 3 [[1; 2; 3]; [4; 5; 6]]%Q) as Ha by rect_now.
  split; [exact Ha|].
  apply (nonsquare_rejected Demo.eigh_demo Demo.sqrt_demo Demo.Mole Demo.nao_nr
           Demo.format_aux_basis Demo.incore_cholesky_eri
           Demo.outcore_cholesky_eri Demo.tempname
           (Demo.mf1 4000) 1%Z 1%Z 0 false [[1; 2; 3]; [4; 5; 6]]%Q 2 3
           (mkState [Arr2 false [[1; 2; 3]; [4; 5; 6]]%Q] []) eq_refl Ha);
    lia.
Defined.
